(** * consistent_hash: the skiplist hash ring, its lock and the placement engine

    A shallow embedding of
      - [local/hash_ring.go]  (SkiplistHashRing and its LockEntity),
      - [consistent_hash.go]  (AddNode, RemoveNode, GetNode),
      - [migrator.go]         (migrateIn, migrateOut, getValidNextNode),
    with the properties of the specification stated over it. *)

From stdpp Require Import base gmap sets list sorting strings pretty.
From Stdlib Require Import ZArith Lia Ascii.

Open Scope Z_scope.

(** ** Go values *)

(** What a Go call yields: a value with a nil error, a non-nil error
    (its message), a run-time panic, or no return at all (the call blocks on
    a mutex for ever, or recurses without end). *)
Inductive result (A : Type) : Type :=
| Ok (a : A)
| Err (msg : string)
| Panic
| Hang.
Arguments Ok {A} a.
Arguments Err {A} msg.
Arguments Panic {A}.
Arguments Hang {A}.

(** [math.MaxInt32] *)
Definition MaxInt32 : Z := 2147483647.

(** Arithmetic on [int32] wraps around. *)
Definition wrap32 (x : Z) : Z := (x + 2147483648) mod 4294967296 - 2147483648.

(** Arithmetic on [int] (64 bits) wraps around. *)
Definition wrap64 (x : Z) : Z :=
  (x + 9223372036854775808) mod 18446744073709551616 - 9223372036854775808.

(** ** Strings *)

(** [strings.LastIndex(s, "_")]: position of the last underscore, -1 if none. *)
Fixpoint LastIndex_from (s : string) (pos : Z) (found : Z) : Z :=
  match s with
  | EmptyString => found
  | String c tl =>
      LastIndex_from tl (pos + 1) (if Ascii.eqb c "_"%char then pos else found)
  end.

Definition LastIndex_underscore (s : string) : Z := LastIndex_from s 0 (-1).

(** [s[:n]] for [0 <= n <= len(s)] *)
Fixpoint prefix (n : nat) (s : string) : string :=
  match n, s with
  | O, _ => EmptyString
  | S k, String c tl => String c (prefix k tl)
  | S _, EmptyString => EmptyString
  end.

(** [fmt.Sprintf("%s_%d", nodeID, index)] *)
Definition getRawNodeKey (nodeID : string) (index : Z) : string :=
  nodeID +:+ "_" +:+ pretty index.

(** [getNodeID]: [rawNodeKey[:strings.LastIndex(rawNodeKey, "_")]]; slicing
    with index -1 panics. *)
Definition getNodeID (rawNodeKey : string) : result string :=
  let index := LastIndex_underscore rawNodeKey in
  if index <? 0 then Panic else Ok (prefix (Z.to_nat index) rawNodeKey).

(** The string holds no underscore. *)
Fixpoint no_underscore (s : string) : bool :=
  match s with
  | EmptyString => true
  | String c tl => negb (Ascii.eqb c "_"%char) && no_underscore tl
  end.

(** ** The skiplist hash ring ([local/hash_ring.go]) *)

Module Skiplist.

(** A [virtualNode] carries its score, the virtual-node keys of the slot and
    its forward pointers [nexts].  The pointer structure is kept as towers:
    the ring lists the nodes in the order of the level-0 chain and records for
    each node [len(nexts)]; a node is linked on level [l] exactly when
    [l < len(nexts)], so [move.nexts[l]] is the first node after [move] whose
    tower reaches level [l].  [Add] and [Rem] link and unlink a node on all
    the levels of its tower at once, which keeps the chains in this shape. *)
Record virtualNode : Type := VirtualNode {
  score : Z;
  nodeIDs : list string;
  levels : nat            (* len(nexts) *)
}.

(** [LockEntity]: the mutex [lock] (held or not), the [owner] token (the
    empty string when nothing was stored or after it was cleared) and the
    guard goroutine that waits to expire the lock, with the token it
    captured ([None] when there is none or it was cancelled).  [doubleLock]
    makes [Lock] and [unlock] atomic with respect to each other, which is
    what running them as functions of the state expresses. *)
Record LockEntity : Type := MkLock {
  lock : bool;
  owner : string;
  timer : option string
}.

Record SkiplistHashRing : Type := Ring {
  lockEntity : LockEntity;
  root_levels : nat;                        (* len(root.nexts) *)
  chain : list virtualNode;                 (* root.nexts[0], its nexts[0], ... *)
  nodeToReplicas : gmap string Z;
  nodeToDataKey : gmap string (gset string)
}.

Definition NewSkiplistHashRing : SkiplistHashRing :=
  Ring (MkLock false "" None) 0 [] ∅ ∅.

(** A position in the ring: the nodes passed so far, nearest first ([move] is
    the head, the root when there is none), and the nodes after [move]. *)
Definition cursor : Type := list virtualNode * list virtualNode.

Definition at_root (ring : SkiplistHashRing) : cursor := ([], chain ring).

(** [move.nexts[level]]: [after] lists the nodes after [move]; the result
    focuses the target, with the nodes before it and those after it. *)
Fixpoint nexts_at (level : nat) (passed after : list virtualNode)
  : option (list virtualNode * virtualNode * list virtualNode) :=
  match after with
  | [] => None
  | n :: tl =>
      if (level <? levels n)%nat then Some (passed, n, tl)
      else nexts_at level (n :: passed) tl
  end.

(** [for move.nexts[level] != nil && move.nexts[level].score < score
       { move = move.nexts[level] }] *)
Fixpoint seek (level : nat) (sc : Z) (c : cursor)
  (passed scan : list virtualNode) : cursor :=
  match scan with
  | [] => c
  | n :: tl =>
      if (level <? levels n)%nat then
        if score n <? sc then seek level sc (n :: passed, tl) (n :: passed) tl
        else c
      else seek level sc c (n :: passed) tl
  end.

Definition seek_level (level : nat) (sc : Z) (c : cursor) : cursor :=
  seek level sc c (fst c) (snd c).

(** [for level := top - 1; level >= 0; level-- { seek }] *)
Fixpoint descend (top : nat) (sc : Z) (c : cursor) : cursor :=
  match top with
  | O => c
  | S level => descend level sc (seek_level level sc c)
  end.

(** [get]: the descent that stops on the first level where the next node
    carries the score. *)
Fixpoint get_from (top : nat) (sc : Z) (c : cursor)
  : option (list virtualNode * virtualNode * list virtualNode) :=
  match top with
  | O => None
  | S level =>
      let c' := seek_level level sc c in
      match nexts_at level (fst c') (snd c') with
      | Some (before, n, tl) =>
          if score n =? sc then Some (before, n, tl) else get_from level sc c'
      | None => get_from level sc c'
      end
  end.

Definition get (ring : SkiplistHashRing) (sc : Z)
  : option (list virtualNode * virtualNode * list virtualNode) :=
  get_from (root_levels ring) sc (at_root ring).

Definition set_chain (ring : SkiplistHashRing) (ch : list virtualNode)
  : SkiplistHashRing :=
  Ring (lockEntity ring) (root_levels ring) ch (nodeToReplicas ring) (nodeToDataKey ring).

(** [Add]; [rLevel] is what [s.roll()] returns when it is called. The error
    is always nil. *)
Definition Add (sc : Z) (nodeID : string) (rLevel : nat)
  (ring : SkiplistHashRing) : SkiplistHashRing :=
  match get ring sc with
  | Some (before, target, tl) =>
      if bool_decide (nodeID ∈ nodeIDs target) then ring
      else
        set_chain ring
          (rev_append before
             (VirtualNode (score target) (nodeIDs target ++ [nodeID])
                (levels target) :: tl))
  | None =>
      let top :=
        if (root_levels ring <? rLevel + 1)%nat then (rLevel + 1)%nat
        else root_levels ring in
      let newNode := VirtualNode sc [nodeID] (rLevel + 1) in
      let c := descend (rLevel + 1) sc (at_root ring) in
      Ring (lockEntity ring) top (rev_append (fst c) (newNode :: snd c))
        (nodeToReplicas ring) (nodeToDataKey ring)
  end.

(** [ceiling] *)
Definition ceiling (ring : SkiplistHashRing) (sc : Z) : Z * bool :=
  if (root_levels ring =? 0)%nat then (-1, false)
  else
    let c := descend (root_levels ring) sc (at_root ring) in
    match nexts_at 0 (fst c) (snd c) with
    | None => (-1, false)
    | Some (_, n, _) => (score n, true)
    end.

(** [first]: [s.root.nexts[0].score] dereferences a nil pointer when the
    root has levels but no node. *)
Definition first (ring : SkiplistHashRing) : result (Z * bool) :=
  if (root_levels ring =? 0)%nat then Ok (-1, false)
  else
    match nexts_at 0 [] (chain ring) with
    | None => Panic
    | Some (_, n, _) => Ok (score n, true)
    end.

(** [floor] *)
Definition floor (ring : SkiplistHashRing) (sc : Z) : Z * bool :=
  if (root_levels ring =? 0)%nat then (-1, false)
  else
    let c := descend (root_levels ring) sc (at_root ring) in
    match nexts_at 0 (fst c) (snd c) with
    | Some (_, n, _) =>
        if score n =? sc then (sc, true)
        else match fst c with
             | [] => (-1, false)
             | move :: _ => (score move, true)
             end
    | None =>
        match fst c with
        | [] => (-1, false)
        | move :: _ => (score move, true)
        end
    end.

(** [for move.nexts[level] != nil { move = move.nexts[level] }] *)
Fixpoint seek_end (level : nat) (c : cursor)
  (passed scan : list virtualNode) : cursor :=
  match scan with
  | [] => c
  | n :: tl =>
      if (level <? levels n)%nat then seek_end level (n :: passed, tl) (n :: passed) tl
      else seek_end level c (n :: passed) tl
  end.

Fixpoint descend_end (top : nat) (c : cursor) : cursor :=
  match top with
  | O => c
  | S level => descend_end level (seek_end level c (fst c) (snd c))
  end.

(** [last] *)
Definition last (ring : SkiplistHashRing) : Z * bool :=
  match fst (descend_end (root_levels ring) (at_root ring)) with
  | [] => (-1, false)
  | move :: _ => (score move, true)
  end.

(** [Ceiling]: the ceiling, else the first score. *)
Definition Ceiling (ring : SkiplistHashRing) (sc : Z) : result Z :=
  let '(target, ok) := ceiling ring sc in
  if ok then Ok target
  else match first ring with
       | Ok (fst_score, _) => Ok fst_score
       | Err e => Err e
       | Panic => Panic
       | Hang => Hang
       end.

(** [Floor]: the floor, else the last score. *)
Definition Floor (ring : SkiplistHashRing) (sc : Z) : result Z :=
  let '(target, ok) := floor ring sc in
  if ok then Ok target else Ok (fst (last ring)).

(** The index loop of [Rem]: position of the first occurrence, -1 if none. *)
Fixpoint index_of (nodeID : string) (ids : list string) (i : Z) : Z :=
  match ids with
  | [] => -1
  | x :: tl => if String.eqb x nodeID then i else index_of nodeID tl (i + 1)
  end.

(** [append(ids[:index], ids[index+1:]...)] *)
Definition remove_at (index : nat) (ids : list string) : list string :=
  take index ids ++ drop (S index) ids.

(** The closing loop of [Rem]: the root is cut at the first level whose
    pointer is nil. *)
Fixpoint first_vacant (remaining level : nat) (ch : list virtualNode)
  : option nat :=
  match remaining with
  | O => None
  | S r =>
      match nexts_at level [] ch with
      | Some _ => first_vacant r (S level) ch
      | None => Some level
      end
  end.

Definition shrink_root (top : nat) (ch : list virtualNode) : nat :=
  match first_vacant top O ch with
  | Some level => level
  | None => top
  end.

(** The unlinking loop of [Rem]: on each level the node after [move] is
    unlinked unless it is nil or its score is greater. *)
Definition unlink (top : nat) (sc : Z) (ring : SkiplistHashRing)
  : list virtualNode :=
  let c := descend top sc (at_root ring) in
  match nexts_at 0 (fst c) (snd c) with
  | Some (before, n, tl) =>
      if sc <? score n then chain ring else rev_append before tl
  | None => chain ring
  end.

(** [Rem] *)
Definition Rem (sc : Z) (nodeID : string) (ring : SkiplistHashRing)
  : SkiplistHashRing * option string :=
  match get ring sc with
  | None => (ring, Some ("score: " +:+ pretty sc +:+ " not exist"))
  | Some (before, target, tl) =>
      let index := index_of nodeID (nodeIDs target) 0 in
      if index =? -1 then
        (ring, Some ("node: " +:+ nodeID +:+ " not exist in score: " +:+ pretty sc))
      else
        let dataKeys := delete nodeID (nodeToDataKey ring) in
        if (1 <? length (nodeIDs target))%nat then
          (Ring (lockEntity ring) (root_levels ring)
             (rev_append before
                (VirtualNode (score target)
                   (remove_at (Z.to_nat index) (nodeIDs target))
                   (levels target) :: tl))
             (nodeToReplicas ring) dataKeys, None)
        else
          let ch := unlink (root_levels ring) sc ring in
          (Ring (lockEntity ring) (shrink_root (root_levels ring) ch) ch
             (nodeToReplicas ring) dataKeys, None)
  end.

(** [Nodes], [AddNodeToReplica], [DeleteNodeToReplica] *)
Definition Nodes (ring : SkiplistHashRing) : gmap string Z :=
  nodeToReplicas ring.

Definition AddNodeToReplica (nodeID : string) (replicas : Z)
  (ring : SkiplistHashRing) : SkiplistHashRing :=
  Ring (lockEntity ring) (root_levels ring) (chain ring)
    (<[nodeID := replicas]> (nodeToReplicas ring)) (nodeToDataKey ring).

Definition DeleteNodeToReplica (nodeID : string) (ring : SkiplistHashRing)
  : SkiplistHashRing :=
  Ring (lockEntity ring) (root_levels ring) (chain ring)
    (delete nodeID (nodeToReplicas ring)) (nodeToDataKey ring).

(** [Node] *)
Definition Node (ring : SkiplistHashRing) (sc : Z) : result (list string) :=
  match get ring sc with
  | None => Err ("score: " +:+ pretty sc +:+ " not exist")
  | Some (_, target, _) => Ok (nodeIDs target)
  end.

(** [DataKeys]: the stored map, nil ([None]) when the node has no entry. *)
Definition DataKeys (ring : SkiplistHashRing) (nodeID : string)
  : option (gset string) :=
  nodeToDataKey ring !! nodeID.

(** [len(m)] of a possibly nil key set *)
Definition len_keys (m : option (gset string)) : nat :=
  match m with
  | None => O
  | Some ks => size ks
  end.

Definition set_dataKeys (ring : SkiplistHashRing)
  (m : gmap string (gset string)) : SkiplistHashRing :=
  Ring (lockEntity ring) (root_levels ring) (chain ring) (nodeToReplicas ring) m.

(** [AddNodeToDataKeys] *)
Definition AddNodeToDataKeys (nodeID : string) (dataKeys : gset string)
  (ring : SkiplistHashRing) : SkiplistHashRing :=
  let oldDataKeys :=
    match nodeToDataKey ring !! nodeID with
    | None => ∅
    | Some old => old
    end in
  set_dataKeys ring (<[nodeID := oldDataKeys ∪ dataKeys]> (nodeToDataKey ring)).

(** [DeleteNodeToDataKeys] *)
Definition DeleteNodeToDataKeys (nodeID : string) (dataKeys : gset string)
  (ring : SkiplistHashRing) : SkiplistHashRing :=
  match nodeToDataKey ring !! nodeID with
  | None => ring
  | Some old =>
      let oldDataKeys := old ∖ dataKeys in
      if (size oldDataKeys =? 0)%nat then
        set_dataKeys ring (delete nodeID (nodeToDataKey ring))
      else
        set_dataKeys ring (<[nodeID := oldDataKeys]> (nodeToDataKey ring))
  end.

(** *** The self-expiring lock *)

Definition set_lock (ring : SkiplistHashRing) (l : LockEntity)
  : SkiplistHashRing :=
  Ring l (root_levels ring) (chain ring) (nodeToReplicas ring)
    (nodeToDataKey ring).

(** [os.GetCurrentProcessAndGogroutineIDStr]: [fmt.Sprintf("%d_%s", pid,
    goroutineID)] for the process and goroutine of the caller. *)
Definition GetCurrentProcessAndGogroutineIDStr (pid : Z) (goroutineID : string)
  : string :=
  pretty pid +:+ "_" +:+ goroutineID.

(** [Lock], run by the caller with token [token].  [s.lock.Lock()] blocks
    while the mutex is held; the caller then keeps [doubleLock], so that no
    [unlock] can ever release the mutex: the call does not return ([None]).
    Otherwise the error is nil. *)
Definition Lock (token : string) (expireSeconds : Z) (ring : SkiplistHashRing)
  : option SkiplistHashRing :=
  let l := lockEntity ring in
  if lock l then None
  else if expireSeconds <=? 0 then Some (set_lock ring (MkLock true token (timer l)))
  else Some (set_lock ring (MkLock true token (Some token))).

(** [unlock]; releasing a mutex that is not held is a fatal error. *)
Definition unlock (token : string) (ring : SkiplistHashRing)
  : SkiplistHashRing * result unit :=
  let l := lockEntity ring in
  if negb (String.eqb (owner l) token) then (ring, Err "not your lock")
  else if lock l then (set_lock ring (MkLock false "" None), Ok tt)
  else (set_lock ring (MkLock false "" None), Panic).

(** [Unlock] *)
Definition Unlock (pid : Z) (goroutineID : string) (ring : SkiplistHashRing)
  : SkiplistHashRing * result unit :=
  unlock (GetCurrentProcessAndGogroutineIDStr pid goroutineID) ring.

(** The guard goroutine of [Lock] when its delay has passed:
    [s.unlock(ctx, token)] with the token it captured, the result dropped. *)
Definition expire (ring : SkiplistHashRing) : SkiplistHashRing :=
  match timer (lockEntity ring) with
  | None => ring
  | Some token =>
      let ring' := fst (unlock token ring) in
      set_lock ring'
        (MkLock (lock (lockEntity ring')) (owner (lockEntity ring')) None)
  end.

(** A fresh ring locked by goroutine 7 of process 1, with and without an
    expiry, and the same ring after that caller has unlocked it. *)
Definition ring_locked : SkiplistHashRing :=
  default NewSkiplistHashRing
    (Lock (GetCurrentProcessAndGogroutineIDStr 1 "7") 15 NewSkiplistHashRing).

Definition ring_released : SkiplistHashRing := fst (Unlock 1 "7" ring_locked).

(** *** Specification-level views of the ring *)

(** The slot stored at a score: the first node of the chain that carries it. *)
Fixpoint find_node (ch : list virtualNode) (sc : Z) : option virtualNode :=
  match ch with
  | [] => None
  | n :: tl => if score n =? sc then Some n else find_node tl sc
  end.

(** The tallest tower of the chain. *)
Fixpoint max_levels (ch : list virtualNode) : nat :=
  match ch with
  | [] => O
  | n :: tl => Nat.max (levels n) (max_levels tl)
  end.

Definition score_lt (a b : virtualNode) : Prop := score a < score b.

(** The shape [Add] and [Rem] maintain: scores strictly increase along the
    chain, every node is linked on level 0, a slot is never empty and never
    lists a key twice, and the root is as tall as the tallest tower. *)
Record wf (ring : SkiplistHashRing) : Prop := Wf {
  wf_sorted : StronglySorted score_lt (chain ring);
  wf_levels : Forall (λ n, (1 <= levels n)%nat) (chain ring);
  wf_ids : Forall (λ n, nodeIDs n ≠ [] ∧ NoDup (nodeIDs n)) (chain ring);
  wf_root : root_levels ring = max_levels (chain ring)
}.

(** The slot scores of the ring, in chain order. *)
Definition scores (ring : SkiplistHashRing) : list Z := score <$> chain ring.

(** [vkey] is stored in the slot at [sc]. *)
Definition in_slot (ring : SkiplistHashRing) (sc : Z) (vkey : string) : Prop :=
  ∃ n, find_node (chain ring) sc = Some n ∧ vkey ∈ nodeIDs n.

(** What [Add] leaves in the slot at [sc], given what was there. *)
Definition add_slot (sc : Z) (vkey : string) (rLevel : nat)
  (o : option virtualNode) : virtualNode :=
  match o with
  | Some n =>
      if bool_decide (vkey ∈ nodeIDs n) then n
      else VirtualNode (score n) (nodeIDs n ++ [vkey]) (levels n)
  | None => VirtualNode sc [vkey] (rLevel + 1)
  end.

(** Removal of the first occurrence of a key. *)
Fixpoint remove_key (vkey : string) (ids : list string) : list string :=
  match ids with
  | [] => []
  | x :: tl => if String.eqb x vkey then tl else x :: remove_key vkey tl
  end.

(** What a successful [Rem] leaves in the slot at [sc]. *)
Definition rem_slot (vkey : string) (n : virtualNode) : option virtualNode :=
  if (1 <? length (nodeIDs n))%nat then
    Some (VirtualNode (score n) (remove_key vkey (nodeIDs n)) (levels n))
  else None.

Global Instance score_lt_dec : RelDecision score_lt :=
  λ a b, decide (score a < score b).

Global Instance wf_dec ring : Decision (wf ring).
Proof.
  refine
    (match decide (StronglySorted score_lt (chain ring)),
           decide (Forall (λ n, (1 <= levels n)%nat) (chain ring)),
           decide (Forall (λ n, nodeIDs n ≠ [] ∧ NoDup (nodeIDs n)) (chain ring)),
           decide (root_levels ring = max_levels (chain ring)) with
     | left H1, left H2, left H3, left H4 => left (Wf ring H1 H2 H3 H4)
     | _, _, _, _ => right _
     end); intros []; contradiction.
Defined.

(** [t] is the smallest slot score that is at least [sc]. *)
Definition is_ceiling (ring : SkiplistHashRing) (sc t : Z) : Prop :=
  t ∈ scores ring ∧ sc <= t ∧ ∀ u, u ∈ scores ring → sc <= u → t <= u.

(** [t] is the smallest slot score. *)
Definition is_min (ring : SkiplistHashRing) (t : Z) : Prop :=
  t ∈ scores ring ∧ ∀ u, u ∈ scores ring → t <= u.

(** [t] is the largest slot score that is at most [sc]. *)
Definition is_floor (ring : SkiplistHashRing) (sc t : Z) : Prop :=
  t ∈ scores ring ∧ t <= sc ∧ ∀ u, u ∈ scores ring → u <= sc → u <= t.

(** [t] is the largest slot score. *)
Definition is_max (ring : SkiplistHashRing) (t : Z) : Prop :=
  t ∈ scores ring ∧ ∀ u, u ∈ scores ring → u <= t.

(** The rings that the operations of the skiplist ring build from a new
    one, whatever their outcome. *)
Inductive built : SkiplistHashRing → Prop :=
| built_New : built NewSkiplistHashRing
| built_Add sc nodeID rLevel ring :
    built ring → built (Add sc nodeID rLevel ring)
| built_Rem sc nodeID ring :
    built ring → built (fst (Rem sc nodeID ring))
| built_AddNodeToReplica nodeID replicas ring :
    built ring → built (AddNodeToReplica nodeID replicas ring)
| built_DeleteNodeToReplica nodeID ring :
    built ring → built (DeleteNodeToReplica nodeID ring)
| built_AddNodeToDataKeys nodeID dataKeys ring :
    built ring → built (AddNodeToDataKeys nodeID dataKeys ring)
| built_DeleteNodeToDataKeys nodeID dataKeys ring :
    built ring → built (DeleteNodeToDataKeys nodeID dataKeys ring)
| built_Lock token expireSeconds ring ring' :
    built ring → Lock token expireSeconds ring = Some ring' → built ring'
| built_unlock token ring :
    built ring → built (fst (unlock token ring))
| built_expire ring :
    built ring → built (expire ring).

(** A ring with three slots, one of them shared by two keys. *)
Definition ring3 : SkiplistHashRing :=
  Add 20 "D_0" 2 (Add 20 "C_0" 2 (Add 30 "B_0" 0
    (Add 10 "A_0" 1 NewSkiplistHashRing))).

(** A cursor that splits the chain at [sc]: everything passed is below
    [sc], the node after [move] (if any) is not. *)
Definition splits (ch : list virtualNode) (sc : Z) (c : cursor) : Prop :=
  rev (fst c) ++ snd c = ch ∧
  Forall (λ n, score n < sc) (fst c) ∧
  (∀ n, head (snd c) = Some n → sc <= score n).

End Skiplist.


(** ** The placement engine ([consistent_hash.go], [migrator.go]) *)

Module ConsistentHashEngine.
Import Skiplist.

(** Calls on the ring: the ring is threaded through, an error, a panic or a
    call that does not return ends the sequence with the ring as it is. *)
Definition M (A : Type) : Type := SkiplistHashRing → SkiplistHashRing * result A.

Global Instance M_ret : MRet M := λ A a ring, (ring, Ok a).

Global Instance M_bind : MBind M := λ A B k m ring,
  match m ring with
  | (ring', Ok a) => k a ring'
  | (ring', Err e) => (ring', Err e)
  | (ring', Panic) => (ring', Panic)
  | (ring', Hang) => (ring', Hang)
  end.

Global Instance result_ret : MRet result := λ A a, Ok a.

Global Instance result_bind : MBind result := λ A B k m,
  match m with
  | Ok a => k a
  | Err e => Err e
  | Panic => Panic
  | Hang => Hang
  end.

(** A call that reads the ring. *)
Definition call {A : Type} (f : SkiplistHashRing → result A) : M A :=
  λ ring, (ring, f ring).

(** A call that changes the ring and returns a nil error. *)
Definition update (f : SkiplistHashRing → SkiplistHashRing) : M unit :=
  λ ring, (f ring, Ok tt).

(** A call that changes the ring and returns an error or nil. *)
Definition attempt (f : SkiplistHashRing → SkiplistHashRing * option string)
  : M unit :=
  λ ring, match f ring with
          | (ring', None) => (ring', Ok tt)
          | (ring', Some e) => (ring', Err e)
          end.

Definition fail {A : Type} (e : string) : M A := λ ring, (ring, Err e).

Record ConsistentHashOptions : Type := Options {
  lockExpireSeconds : Z;
  replicas : Z
}.

(** [repair] *)
Definition repair (o : ConsistentHashOptions) : ConsistentHashOptions :=
  Options (if lockExpireSeconds o <=? 0 then 15 else lockExpireSeconds o)
          (if replicas o <=? 0 then 5 else replicas o).

(** [ConsistentHash]: the hash ring is the state the calls run on; of the
    migrator closure only whether it is nil matters before the migration
    tasks run; the encryptor is its [Encrypt] method. *)
Record ConsistentHash : Type := Engine {
  migrator : bool;               (* c.migrator != nil *)
  encryptor : string → Z;
  opts : ConsistentHashOptions
}.

Definition NewConsistentHash (encryptor : string → Z) (migrator : bool)
  (o : ConsistentHashOptions) : ConsistentHash :=
  Engine migrator encryptor (repair o).

(** A migration task: [c.migrator(ctx, datas, from, to)]. *)
Record task : Type := Task {
  task_from : string;
  task_to : string;
  task_datas : gset string
}.

(** [incrScore], [decrScore] *)
Definition incrScore (sc : Z) : Z :=
  if sc =? MaxInt32 - 1 then 0 else wrap32 (sc + 1).

Definition decrScore (sc : Z) : Z :=
  if sc =? 0 then MaxInt32 - 1 else wrap32 (sc - 1).

(** [getValidWeight] *)
Definition getValidWeight (weight : Z) : Z :=
  if weight <=? 0 then 1 else if 10 <=? weight then 10 else weight.

(** The keys of a possibly nil key set. *)
Definition keys_of (m : option (gset string)) : gset string := default ∅ m.

(** The test of the loop of [migrateIn] on the score [ds] of a data key:
    the key is kept unless
    [dataVirtualScore <= lastScore || dataVirtualScore > virtualScore]. *)
Definition moves_in (patternOne patternTwo : bool) (lastScore virtualScore ds : Z)
  : bool :=
  let ds1 :=
    if patternOne && (wrap32 (lastScore + MaxInt32) <? ds)
    then wrap32 (ds - MaxInt32) else ds in
  let ds2 := if patternTwo then wrap32 (ds1 - MaxInt32) else ds1 in
  negb ((ds2 <=? lastScore) || (virtualScore <? ds2)).

(** [migrateIn] *)
Definition migrateIn (c : ConsistentHash) (virtualScore : Z) (nodeID : string)
  : M (string * string * gset string) :=
  if negb (migrator c) then mret ("", "", ∅)
  else
    nodes ← call (λ ring, Node ring virtualScore);
    if (1 <? length nodes)%nat then mret ("", "", ∅)
    else
      lastScore ← call (λ ring, Floor ring (decrScore virtualScore));
      if (lastScore =? -1) || (lastScore =? virtualScore) then mret ("", "", ∅)
      else
        nextScore ← call (λ ring, Ceiling ring (incrScore virtualScore));
        if (nextScore =? -1) || (nextScore =? virtualScore) then mret ("", "", ∅)
        else
          let patternOne := virtualScore <? lastScore in
          let patternTwo := nextScore <? virtualScore in
          let lastScore1 :=
            if patternOne then wrap32 (lastScore - MaxInt32) else lastScore in
          let virtualScore2 :=
            if patternTwo then wrap32 (virtualScore - MaxInt32) else virtualScore in
          let lastScore2 :=
            if patternTwo then wrap32 (lastScore1 - MaxInt32) else lastScore1 in
          nextNodes ← call (λ ring, Node ring nextScore);
          match nextNodes with
          | [] => mret ("", "", ∅)
          | next0 :: _ =>
              nextOwner ← call (λ _, getNodeID next0);
              dataKeys ← call (λ ring, Ok (DataKeys ring nextOwner));
              let datas :=
                filter (λ dataKey,
                          moves_in patternOne patternTwo lastScore2 virtualScore2
                            (encryptor c dataKey))
                       (keys_of dataKeys) in
              _ ← update (DeleteNodeToDataKeys nextOwner datas);
              _ ← update (AddNodeToDataKeys nodeID datas);
              mret (nextOwner, nodeID, datas)
          end.

(** [getValidNextNode]; [fuel] bounds the depth of the recursion, a
    recursion that goes deeper does not return. *)
Fixpoint getValidNextNode (fuel : nat) (ring : SkiplistHashRing) (sc : Z)
  (nodeID : string) (ranged : gset Z) : result string :=
  match fuel with
  | O => Hang
  | S fuel' =>
      nextScore ← Ceiling ring (incrScore sc);
      if nextScore =? -1 then Ok ""
      else if bool_decide (nextScore ∈ ranged) then Ok ""
      else
        nextNodes ← Node ring nextScore;
        match nextNodes with
        | [] => Err "next node empty"
        | next0 :: rest =>
            nextNode ← getNodeID next0;
            if negb (String.eqb nextNode nodeID) then Ok nextNode
            else
              match rest with
              | next1 :: _ => getNodeID next1
              | [] =>
                  getValidNextNode fuel' ring nextScore nodeID ({[sc]} ∪ ranged)
              end
        end
  end.

(** The walk of [getValidNextNode] visits each slot at most once before it
    meets a score it has recorded. *)
Definition walk_fuel (ring : SkiplistHashRing) : nat :=
  S (S (length (chain ring))).

(** The test of the loop of [migrateOut] on the score [ds] of a data key. *)
Definition moves_out (pattern : bool) (lastScore virtualScore ds : Z) : bool :=
  let ds1 :=
    if pattern && (wrap32 (lastScore + MaxInt32) <? ds)
    then wrap32 (ds - MaxInt32) else ds in
  negb ((ds1 <=? lastScore) || (virtualScore <? ds1)).

(** The body of [migrateOut] up to its return: the named results [from],
    [to], [datas], or the error. *)
Definition migrateOut_body (c : ConsistentHash) (virtualScore : Z)
  (nodeID : string) (ring : SkiplistHashRing)
  : result (string * string * gset string) :=
  nodes ← Node ring virtualScore;
  match nodes with
  | [] => Ok (nodeID, "", ∅)
  | node0 :: rest =>
      owner0 ← getNodeID node0;
      if negb (String.eqb owner0 nodeID) then Ok (nodeID, "", ∅)
      else
        let allDatas := DataKeys ring nodeID in
        if (len_keys allDatas =? 0)%nat then Ok (nodeID, "", ∅)
        else
          lastScore ← Floor ring (decrScore virtualScore);
          let single := (lastScore =? -1) || (lastScore =? virtualScore) in
          if single && (length nodes =? 1)%nat then Err "no other no"
          else
            let onlyScore := single in
            let pattern := virtualScore <? lastScore in
            let lastScore1 :=
              if pattern then wrap32 (lastScore - MaxInt32) else lastScore in
            let datas :=
              filter (λ data,
                        onlyScore ||
                        moves_out pattern lastScore1 virtualScore
                          (encryptor c data))
                     (keys_of allDatas) in
            match rest with
            | node1 :: _ =>
                to ← getNodeID node1;
                Ok (nodeID, to, datas)
            | [] =>
                match getValidNextNode (walk_fuel ring) ring virtualScore nodeID ∅ with
                | Ok to =>
                    if String.eqb to "" then Err "no other node"
                    else Ok (nodeID, to, datas)
                | Err _ => Ok (nodeID, "", datas)  (* err = _err, which is nil *)
                | Panic => Panic
                | Hang => Hang
                end
            end
  end.

(** [migrateOut]: the body, then the deferred bookkeeping. *)
Definition migrateOut (c : ConsistentHash) (virtualScore : Z) (nodeID : string)
  : M (string * string * gset string) :=
  if negb (migrator c) then mret ("", "", ∅)
  else
    '(from, to, datas) ← call (migrateOut_body c virtualScore nodeID);
    if String.eqb to "" || (size datas =? 0)%nat then mret (from, to, datas)
    else
      _ ← update (DeleteNodeToDataKeys nodeID datas);
      _ ← update (AddNodeToDataKeys to datas);
      mret (from, to, datas).

(** The loop of [AddNode] over the replica indices; [rolls i] is what
    [roll] returns when [Add] calls it for replica [i]. *)
Fixpoint AddNode_loop (c : ConsistentHash) (nodeID : string) (rolls : nat → nat)
  (indices : list nat) (migrateTasks : list task) : M (list task) :=
  match indices with
  | [] => mret migrateTasks
  | i :: rest =>
      let nodeKey := getRawNodeKey nodeID (Z.of_nat i) in
      let virtualScore := encryptor c nodeKey in
      _ ← update (Add virtualScore nodeKey (rolls i));
      '(from, to, datas) ← migrateIn c virtualScore nodeID;
      if (size datas =? 0)%nat
      then AddNode_loop c nodeID rolls rest migrateTasks
      else AddNode_loop c nodeID rolls rest (migrateTasks ++ [Task from to datas])
  end.

(** [AddNode] between [Lock] and the deferred [Unlock]; the result lists the
    migration tasks handed to [batchExecuteMigrator]. *)
Definition AddNode_locked (c : ConsistentHash) (nodeID : string) (weight : Z)
  (rolls : nat → nat) : M (list task) :=
  nodes ← call (λ ring, Ok (Nodes ring));
  match nodes !! nodeID with
  | Some _ => fail "repeat node"
  | None =>
      let replicas := wrap64 (getValidWeight weight * replicas (opts c)) in
      _ ← update (AddNodeToReplica nodeID replicas);
      AddNode_loop c nodeID rolls (seq 0 (Z.to_nat replicas)) []
  end.

(** The loop of [RemoveNode] over the replica indices. *)
Fixpoint RemoveNode_loop (c : ConsistentHash) (nodeID : string)
  (indices : list nat) (migrateTasks : list task) : M (list task) :=
  match indices with
  | [] => mret migrateTasks
  | i :: rest =>
      let virtualScore := encryptor c (getRawNodeKey nodeID (Z.of_nat i)) in
      '(from, to, datas) ← migrateOut c virtualScore nodeID;
      let nodeKey := getRawNodeKey nodeID (Z.of_nat i) in
      _ ← attempt (Rem virtualScore nodeKey);
      if (size datas =? 0)%nat
      then RemoveNode_loop c nodeID rest migrateTasks
      else RemoveNode_loop c nodeID rest (migrateTasks ++ [Task from to datas])
  end.

(** [RemoveNode] between [Lock] and the deferred [Unlock]. *)
Definition RemoveNode_locked (c : ConsistentHash) (nodeID : string)
  : M (list task) :=
  nodes ← call (λ ring, Ok (Nodes ring));
  match nodes !! nodeID with
  | None => fail "invalid node id"
  | Some replicas =>
      _ ← update (DeleteNodeToReplica nodeID);
      RemoveNode_loop c nodeID (seq 0 (Z.to_nat replicas)) []
  end.

(** [GetNode] between [Lock] and the deferred [Unlock]. *)
Definition GetNode_locked (c : ConsistentHash) (dataKey : string) : M string :=
  let dataScore := encryptor c dataKey in
  ceilingScore ← call (λ ring, Ceiling ring dataScore);
  if ceilingScore =? -1 then fail "no node available"
  else
    nodes ← call (λ ring, Node ring ceilingScore);
    match nodes with
    | [] => fail "no node available with empty score"
    | node0 :: _ =>
        owner0 ← call (λ _, getNodeID node0);
        _ ← update (AddNodeToDataKeys owner0 {[dataKey]});
        mret node0
    end.

(** A public operation: [Lock] with the configured expiry, the body, and
    the deferred [Unlock], whose error is dropped.  The caller is the
    goroutine [goroutineID] of process [pid]. *)
Definition locked {A : Type} (c : ConsistentHash) (pid : Z)
  (goroutineID : string) (body : M A) : M A :=
  λ ring,
    let token := GetCurrentProcessAndGogroutineIDStr pid goroutineID in
    match Lock token (lockExpireSeconds (opts c)) ring with
    | None => (ring, Hang)
    | Some ring1 =>
        let '(ring2, res) := body ring1 in
        match unlock token ring2 with
        | (ring3, Panic) => (ring3, Panic)
        | (ring3, _) => (ring3, res)
        end
    end.

Definition AddNode (c : ConsistentHash) (pid : Z) (goroutineID : string)
  (nodeID : string) (weight : Z) (rolls : nat → nat) : M (list task) :=
  locked c pid goroutineID (AddNode_locked c nodeID weight rolls).

Definition RemoveNode (c : ConsistentHash) (pid : Z) (goroutineID : string)
  (nodeID : string) : M (list task) :=
  locked c pid goroutineID (RemoveNode_locked c nodeID).

Definition GetNode (c : ConsistentHash) (pid : Z) (goroutineID : string)
  (dataKey : string) : M string :=
  locked c pid goroutineID (GetNode_locked c dataKey).

(** *** Specification-level views of the engine *)

(** The [i]-th virtual-node key of a node. *)
Definition vkey (nodeID : string) (i : nat) : string :=
  getRawNodeKey nodeID (Z.of_nat i).

(** The slots, [nodeToReplicas] and the lock are the same. *)
Definition same_slots (ring ring' : SkiplistHashRing) : Prop :=
  lockEntity ring = lockEntity ring' ∧ root_levels ring = root_levels ring' ∧
  chain ring = chain ring' ∧ nodeToReplicas ring = nodeToReplicas ring'.

Definition same_lock (ring ring' : SkiplistHashRing) : Prop :=
  lockEntity ring = lockEntity ring'.

(** Everything but the lock is the same. *)
Definition same_data (ring ring' : SkiplistHashRing) : Prop :=
  root_levels ring = root_levels ring' ∧ chain ring = chain ring' ∧
  nodeToReplicas ring = nodeToReplicas ring' ∧
  nodeToDataKey ring = nodeToDataKey ring'.

(** Whatever its outcome, the call leaves the ring related to the one it
    started from. *)
Definition preserves {A : Type} (R : relation SkiplistHashRing) (m : M A) : Prop :=
  ∀ ring, R ring (fst (m ring)).

(** Every key stored in a slot is a virtual-node key of a node of
    [nodeToReplicas], within its replica count, and sits at its score. *)
Definition vkeys_sound (c : ConsistentHash) (ring : SkiplistHashRing) : Prop :=
  ∀ sc v, in_slot ring sc v →
    ∃ nodeID i R, v = vkey nodeID i ∧ nodeToReplicas ring !! nodeID = Some R ∧
                  (i < Z.to_nat R)%nat ∧ sc = encryptor c v.

(** Every virtual-node key of every node of [nodeToReplicas] is stored in
    the slot at its score. *)
Definition vkeys_complete (c : ConsistentHash) (ring : SkiplistHashRing) : Prop :=
  ∀ nodeID R i, nodeToReplicas ring !! nodeID = Some R → (i < Z.to_nat R)%nat →
    in_slot ring (encryptor c (vkey nodeID i)) (vkey nodeID i).

(** The invariant of the specification: every key stored in a slot decodes
    to a node of [nodeToReplicas]. *)
Definition decodes (ring : SkiplistHashRing) : Prop :=
  ∀ sc v, in_slot ring sc v →
    ∃ nodeID, getNodeID v = Ok nodeID ∧ is_Some (nodeToReplicas ring !! nodeID).

(** The ring between two public operations: well formed, with exactly the
    virtual-node keys of its nodes, and unlocked. *)
Record Inv (c : ConsistentHash) (ring : SkiplistHashRing) : Prop := MkInv {
  inv_wf : wf ring;
  inv_sound : vkeys_sound c ring;
  inv_complete : vkeys_complete c ring;
  inv_free : lock (lockEntity ring) = false
}.

(** The rings reached from the new ring by public operations that
    returned: [AddNode] and [GetNode] with or without an error,
    [RemoveNode] without an error or for a node that is not in
    [nodeToReplicas]. *)
Inductive reachable (c : ConsistentHash) : SkiplistHashRing → Prop :=
| reach_new : reachable c NewSkiplistHashRing
| reach_AddNode ring ring' pid goroutineID nodeID weight rolls tasks :
    reachable c ring →
    AddNode c pid goroutineID nodeID weight rolls ring = (ring', Ok tasks) →
    reachable c ring'
| reach_AddNode_err ring ring' pid goroutineID nodeID weight rolls e :
    reachable c ring →
    AddNode c pid goroutineID nodeID weight rolls ring = (ring', Err e) →
    reachable c ring'
| reach_RemoveNode ring ring' pid goroutineID nodeID tasks :
    reachable c ring →
    RemoveNode c pid goroutineID nodeID ring = (ring', Ok tasks) →
    reachable c ring'
| reach_RemoveNode_unknown ring ring' pid goroutineID nodeID res :
    reachable c ring →
    nodeToReplicas ring !! nodeID = None →
    RemoveNode c pid goroutineID nodeID ring = (ring', res) →
    reachable c ring'
| reach_GetNode ring ring' pid goroutineID dataKey v :
    reachable c ring →
    GetNode c pid goroutineID dataKey ring = (ring', Ok v) →
    reachable c ring'
| reach_GetNode_err ring ring' pid goroutineID dataKey e :
    reachable c ring →
    GetNode c pid goroutineID dataKey ring = (ring', Err e) →
    reachable c ring'.

(** *** One slot through [AddNode] and [RemoveNode] *)

(** What the [i]-th round of the loop of [AddNode] does to the slot at
    [sc]. *)
Definition add_step (c : ConsistentHash) (nodeID : string) (rolls : nat → nat)
  (sc : Z) (o : option virtualNode) (i : nat) : option virtualNode :=
  if encryptor c (vkey nodeID i) =? sc
  then Some (add_slot sc (vkey nodeID i) (rolls i) o) else o.

(** What the [i]-th round of the loop of [RemoveNode] does to the slot at
    [sc] when its [Rem] succeeds. *)
Definition rem_step (c : ConsistentHash) (nodeID : string)
  (sc : Z) (o : option virtualNode) (i : nat) : option virtualNode :=
  if encryptor c (vkey nodeID i) =? sc
  then o ≫= rem_slot (vkey nodeID i) else o.

(** The virtual-node keys of the node that fall on the slot at [sc]. *)
Definition pending (c : ConsistentHash) (nodeID : string) (sc : Z)
  (indices : list nat) : list string :=
  vkey nodeID <$> filter (λ i, encryptor c (vkey nodeID i) = sc) indices.

(** No node holds a data key. *)
Definition no_keys (ring : SkiplistHashRing) : Prop :=
  ∀ k, keys_of (DataKeys ring k) = ∅.

(** The data key is registered under some node. *)
Definition registered (ring : SkiplistHashRing) (k : string) : Prop :=
  ∃ nodeID, k ∈ keys_of (DataKeys ring nodeID).

(** [ds] lies on the arc of the circle of scores that runs clockwise from
    [lastScore] (excluded) to [virtualScore] (included). *)
Definition in_arc (lastScore virtualScore ds : Z) : Prop :=
  if lastScore <? virtualScore then lastScore < ds ∧ ds <= virtualScore
  else lastScore < ds ∨ ds <= virtualScore.

(** [o] lies on the way that runs clockwise from [x] (included) to [s]
    (excluded). *)
Definition on_way (x s o : Z) : Prop :=
  if x <=? s then x <= o ∧ o < s else x <= o ∨ o < s.

(** The slot of [ring0] that a score [x] falls to: the first slot score of
    [ring0] clockwise from [x]. *)
Definition home (ring0 : SkiplistHashRing) (x o : Z) : Prop :=
  o ∈ scores ring0 ∧ ∀ o', o' ∈ scores ring0 → ¬ on_way x o o'.

(** The node that owns a slot: the node of the first key the slot lists. *)
Definition slot_owner (ring : SkiplistHashRing) (sc : Z) (owner : string) : Prop :=
  ∃ node v rest, find_node (chain ring) sc = Some node ∧
    nodeIDs node = v :: rest ∧ getNodeID v = Ok owner.

(** The ring while the virtual nodes of [nodeID] are being added to, or
    removed from, the ring [ring0]: the slots of [ring0] are there and keep
    their first key, every other slot lists virtual-node keys of [nodeID]
    only, the data keys missing from another node are with [nodeID] and
    fall to a slot of that node in [ring0], and every data key with
    [nodeID] has a slot of [nodeID] ahead of it before any slot of
    [ring0]. *)
Record during (c : ConsistentHash) (nodeID : string)
  (ring0 ring : SkiplistHashRing) : Prop := During {
  d_wf : wf ring;
  d_range : ∀ sc, sc ∈ scores ring → 0 <= sc < MaxInt32;
  d_orig : ∀ o node0, find_node (chain ring0) o = Some node0 →
    ∃ node, find_node (chain ring) o = Some node ∧
      head (nodeIDs node) = head (nodeIDs node0);
  d_new : ∀ sc node v, find_node (chain ring0) sc = None →
    find_node (chain ring) sc = Some node → v ∈ nodeIDs node →
    ∃ i, v = vkey nodeID i;
  d_keys : ∀ n k, n ≠ nodeID →
    k ∈ keys_of (DataKeys ring0 n) ↔
      (k ∈ keys_of (DataKeys ring n) ∨
       (k ∈ keys_of (DataKeys ring nodeID) ∧
        ∃ o, home ring0 (encryptor c k) o ∧ slot_owner ring0 o n));
  d_lent : ∀ k, k ∈ keys_of (DataKeys ring nodeID) →
    migrator c = true ∧ (∃ o, o ∈ scores ring0) ∧
    ∃ s, s ∈ scores ring ∧ (s ∉ scores ring0) ∧
      ∀ o, o ∈ scores ring0 → ¬ on_way (encryptor c k) s o
}.

(** [MurmurHasher.Encrypt]: [int32(hasher.Sum32() % math.MaxInt32)], for
    the 32-bit murmur3 sum [sum32] of the string. *)
Definition MurmurHasher_Encrypt (sum32 : string → Z) (origin : string) : Z :=
  wrap32 (sum32 origin mod MaxInt32).

(** *** Scenarios *)

(** A hasher that places [A_0] at 10, [B_0] at [M - 10], [X_0] at 3, [Y_0]
    at 7 and the data key [d] at 5, where [M = 2^31 - 1]. *)
Definition wrap_hasher (s : string) : Z :=
  if String.eqb s "A_0" then 10
  else if String.eqb s "B_0" then MaxInt32 - 10
  else if String.eqb s "X_0" then 3
  else if String.eqb s "Y_0" then 7
  else if String.eqb s "d" then 5
  else 0.

(** An engine with that hasher, a migrator and one virtual node per unit of
    weight. *)
Definition wrap_engine : ConsistentHash :=
  NewConsistentHash wrap_hasher true (Options 0 1).

Definition no_rolls : nat → nat := λ _, O.

(** [AddNode("A", 1)] on a new ring, then [GetNode("d")]. *)
Definition sole_ring_A : SkiplistHashRing :=
  fst (AddNode wrap_engine 1 "7" "A" 1 no_rolls NewSkiplistHashRing).

Definition sole_ring_d : SkiplistHashRing :=
  fst (GetNode wrap_engine 1 "7" "d" sole_ring_A).

(** ... then [RemoveNode("A")]. *)
Definition sole_ring_removed : SkiplistHashRing :=
  fst (RemoveNode wrap_engine 1 "7" "A" sole_ring_d).

(** [AddNode("A", 1)], [AddNode("B", 1)], then [GetNode("d")]. *)
Definition wrap_ring_AB : SkiplistHashRing :=
  fst (AddNode wrap_engine 1 "7" "B" 1 no_rolls sole_ring_A).

Definition wrap_ring_d : SkiplistHashRing :=
  fst (GetNode wrap_engine 1 "7" "d" wrap_ring_AB).

(** ... then [AddNode("X", 1)], which inserts [X_0] at 3. *)
Definition wrap_ring_X : SkiplistHashRing :=
  fst (AddNode wrap_engine 1 "7" "X" 1 no_rolls wrap_ring_d).

(** ... or else [AddNode("Y", 1)], which inserts [Y_0] at 7. *)
Definition wrap_ring_Y : SkiplistHashRing :=
  fst (AddNode wrap_engine 1 "7" "Y" 1 no_rolls wrap_ring_d).

(** [AddNode("Y", 1)], then [RemoveNode("Y")]. *)
Definition wrap_ring_Y_removed : SkiplistHashRing :=
  fst (RemoveNode wrap_engine 1 "7" "Y" wrap_ring_Y).

(** A node with the empty ID that holds [d], then [AddNode("Y", 1)]. *)
Definition anon_ring : SkiplistHashRing :=
  fst (GetNode wrap_engine 1 "7" "d"
         (fst (AddNode wrap_engine 1 "7" "" 1 no_rolls NewSkiplistHashRing))).

Definition anon_ring_Y : SkiplistHashRing :=
  fst (AddNode wrap_engine 1 "7" "Y" 1 no_rolls anon_ring).

(** The same hasher in an engine without a migrator and with one virtual
    node per unit of weight: [AddNode("A", 1)], [AddNode("Y", 1)],
    [GetNode("d")], [RemoveNode("Y")], which leaves [d] registered under
    [Y]; then, with the migrator, [AddNode("Y", 1)] and [RemoveNode("Y")]. *)
Definition bare_engine : ConsistentHash :=
  NewConsistentHash wrap_hasher false (Options 0 1).

Definition bare_ring_A : SkiplistHashRing :=
  fst (AddNode bare_engine 1 "7" "A" 1 no_rolls NewSkiplistHashRing).

Definition bare_ring_AY : SkiplistHashRing :=
  fst (AddNode bare_engine 1 "7" "Y" 1 no_rolls bare_ring_A).

Definition bare_ring_d : SkiplistHashRing :=
  fst (GetNode bare_engine 1 "7" "d" bare_ring_AY).

Definition stale_ring : SkiplistHashRing :=
  fst (RemoveNode bare_engine 1 "7" "Y" bare_ring_d).

Definition stale_ring_Y : SkiplistHashRing :=
  fst (AddNode wrap_engine 1 "7" "Y" 1 no_rolls stale_ring).

Definition stale_ring_removed : SkiplistHashRing :=
  fst (RemoveNode wrap_engine 1 "7" "Y" stale_ring_Y).

(** A hasher that places [Y_1] at -1: [AddNode("A", 1)], [GetNode("d")],
    then [AddNode("Y", 2)]. *)
Definition low_hasher (s : string) : Z :=
  if String.eqb s "A_0" then 10
  else if String.eqb s "Y_0" then 7
  else if String.eqb s "Y_1" then -1
  else if String.eqb s "d" then 5
  else 0.

Definition low_engine : ConsistentHash :=
  NewConsistentHash low_hasher true (Options 0 1).

Definition low_ring : SkiplistHashRing :=
  fst (GetNode low_engine 1 "7" "d"
         (fst (AddNode low_engine 1 "7" "A" 1 no_rolls NewSkiplistHashRing))).

Definition low_ring_Y : SkiplistHashRing :=
  fst (AddNode low_engine 1 "7" "Y" 2 no_rolls low_ring).

(** The ring in which [AddNode("X", 1)] calls [migrateIn] for [X_0]. *)
Definition wrap_ring_X_added : SkiplistHashRing :=
  Add 3 "X_0" 0 (AddNodeToReplica "X" 1 wrap_ring_d).

(** The same hasher in an engine without a migrator and with the default
    five virtual nodes per unit of weight; [A_1] to [A_4] share a slot. *)
Definition plain_engine : ConsistentHash :=
  NewConsistentHash wrap_hasher false (Options 0 0).

Definition plain_ring_A : SkiplistHashRing :=
  fst (AddNode plain_engine 1 "7" "A" 1 no_rolls NewSkiplistHashRing).

Definition plain_ring_d : SkiplistHashRing :=
  fst (GetNode plain_engine 1 "7" "d" plain_ring_A).

(** A hasher that gives the five virtual nodes of [A] scores of their own
    and places the data key [d] at 5. *)
Definition spread_hasher (s : string) : Z :=
  if String.eqb s "A_0" then 10
  else if String.eqb s "A_1" then 20
  else if String.eqb s "A_2" then 30
  else if String.eqb s "A_3" then 40
  else if String.eqb s "A_4" then 50
  else if String.eqb s "A_0_0" then 60
  else if String.eqb s "d" then 5
  else 0.

(** With a migrator and the default options: [AddNode("A", 1)], then
    [GetNode("d")]. *)
Definition spread_engine : ConsistentHash :=
  NewConsistentHash spread_hasher true (Options 0 0).

Definition spread_ring_A : SkiplistHashRing :=
  fst (AddNode spread_engine 1 "7" "A" 1 no_rolls NewSkiplistHashRing).

Definition spread_ring_d : SkiplistHashRing :=
  fst (GetNode spread_engine 1 "7" "d" spread_ring_A).

(** Without a migrator and with one virtual node per unit of weight: a node
    named [A_0] that holds the data key [d], then [AddNode("A", 1)] and
    [RemoveNode("A")]. *)
Definition named_engine : ConsistentHash :=
  NewConsistentHash spread_hasher false (Options 0 1).

Definition named_ring : SkiplistHashRing :=
  fst (GetNode named_engine 1 "7" "d"
         (fst (AddNode named_engine 1 "7" "A_0" 1 no_rolls NewSkiplistHashRing))).

Definition named_ring_added : SkiplistHashRing :=
  fst (AddNode named_engine 1 "7" "A" 1 no_rolls named_ring).

Definition named_ring_removed : SkiplistHashRing :=
  fst (RemoveNode named_engine 1 "7" "A" named_ring_added).

(** With a migrator and five slots: [AddNode("A", 1)] on a new ring, then
    [RemoveNode("A")]. *)
Definition spread_ring_removed : SkiplistHashRing :=
  fst (RemoveNode spread_engine 1 "7" "A" spread_ring_A).

End ConsistentHashEngine.

(** * Properties *)

(** ** Virtual-node keys *)

Module KeyFacts.

Lemma LastIndex_from_app s1 s2 pos found :
  LastIndex_from (s1 +:+ s2) pos found =
  LastIndex_from s2 (pos + Z.of_nat (String.length s1)) (LastIndex_from s1 pos found).
Proof.
  revert pos found. induction s1 as [|c tl IH]; intros pos found; simpl.
  - f_equal. lia.
  - rewrite IH. f_equal. lia.
Qed.

Lemma LastIndex_from_no_underscore s pos found :
  no_underscore s = true → LastIndex_from s pos found = found.
Proof.
  revert pos found. induction s as [|c tl IH]; intros pos found; simpl; [done|].
  intros H. apply andb_true_iff in H as [Hc Htl].
  rewrite IH by done. by destruct (Ascii.eqb c "_").
Qed.

Lemma prefix_app s1 s2 : prefix (String.length s1) (s1 +:+ s2) = s1.
Proof. induction s1 as [|c tl IH]; simpl; [by destruct s2|by rewrite IH]. Qed.

Lemma pretty_N_char_no_underscore x :
  Ascii.eqb (pretty_N_char x) "_" = false.
Proof. unfold pretty_N_char. by repeat case_match. Qed.

Lemma pretty_N_go_no_underscore x s :
  no_underscore s = true → no_underscore (pretty_N_go x s) = true.
Proof.
  revert s. induction (N.lt_wf_0 x) as [x _ IH]; intros s Hs.
  destruct (decide (x = 0)%N) as [->|Hx]; [by rewrite pretty_N_go_0|].
  rewrite pretty_N_go_step by lia. apply IH.
  - apply N.div_lt; lia.
  - simpl. by rewrite pretty_N_char_no_underscore.
Qed.

Lemma pretty_index_no_underscore (i : nat) :
  no_underscore (pretty (Z.of_nat i)) = true.
Proof.
  destruct (Z.of_nat i) as [|p|p] eqn:E; [done| |lia].
  unfold pretty, pretty_Z, pretty, pretty_positive, pretty, pretty_N.
  destruct (decide (N.pos p = 0)%N); [done|]. by apply pretty_N_go_no_underscore.
Qed.

(** The node of a virtual-node key is recovered by [getNodeID]. *)
Lemma getNodeID_getRawNodeKey nodeID (i : nat) :
  getNodeID (getRawNodeKey nodeID (Z.of_nat i)) = Ok nodeID.
Proof.
  unfold getNodeID, getRawNodeKey, LastIndex_underscore.
  rewrite LastIndex_from_app. simpl.
  rewrite LastIndex_from_no_underscore by apply pretty_index_no_underscore.
  destruct (Z.ltb_spec (0 + Z.of_nat (String.length nodeID)) 0); [lia|].
  replace (Z.to_nat (0 + Z.of_nat (String.length nodeID)))
    with (String.length nodeID) by lia.
  by rewrite prefix_app.
Qed.

Lemma getRawNodeKey_inj n1 (i1 : nat) n2 (i2 : nat) :
  getRawNodeKey n1 (Z.of_nat i1) = getRawNodeKey n2 (Z.of_nat i2) →
  n1 = n2 ∧ i1 = i2.
Proof.
  intros He.
  assert (n1 = n2) as ->.
  { pose proof (getNodeID_getRawNodeKey n1 i1) as H1.
    rewrite He, getNodeID_getRawNodeKey in H1. congruence. }
  split; [done|]. unfold getRawNodeKey in He.
  apply (inj (String.app n2)) in He. apply (inj (String.app "_")) in He.
  apply (inj pretty) in He. lia.
Qed.

Lemma string_length_app s1 s2 :
  String.length (s1 +:+ s2) = (String.length s1 + String.length s2)%nat.
Proof. induction s1 as [|c tl IH]; simpl; [done|by rewrite IH]. Qed.

Lemma getRawNodeKey_ne nodeID i : getRawNodeKey nodeID i ≠ nodeID.
Proof.
  unfold getRawNodeKey. intros He.
  assert (String.length (nodeID +:+ "_" +:+ pretty i) = String.length nodeID)
    as Hl by (by rewrite He).
  rewrite !string_length_app in Hl. simpl in Hl. lia.
Qed.

End KeyFacts.

(** ** The skiplist *)

Module SkiplistFacts.
Import Skiplist.

Lemma nexts_at_Some level passed after b n tl :
  nexts_at level passed after = Some (b, n, tl) →
  rev b ++ n :: tl = rev passed ++ after ∧ (level < levels n)%nat.
Proof.
  revert passed. induction after as [|x after IH]; intros passed; simpl; [done|].
  destruct (Nat.ltb_spec level (levels x)).
  - intros [= <- <- <-]. done.
  - intros H1. apply IH in H1 as [-> ?]. split; [|done].
    simpl. by rewrite <- app_assoc.
Qed.

Lemma nexts_at_0_cons passed n tl :
  (1 <= levels n)%nat → nexts_at 0 passed (n :: tl) = Some (passed, n, tl).
Proof.
  intros H. simpl. destruct (Nat.ltb_spec 0 (levels n)); [done|lia].
Qed.

Lemma sorted_before_lt (passed : list virtualNode) n tl x :
  StronglySorted score_lt (rev passed ++ n :: tl) → x ∈ passed → score x < score n.
Proof.
  intros Hs Hx.
  apply (StronglySorted_app_1_elem_of _ _ _ x n) in Hs; [done| |left].
  apply list_elem_of_In, in_rev. rewrite rev_involutive. by apply list_elem_of_In.
Qed.

Lemma seek_valid level sc ch c passed scan :
  StronglySorted score_lt ch →
  rev passed ++ scan = ch →
  rev (fst c) ++ snd c = ch ∧ Forall (λ n, score n < sc) (fst c) →
  let c' := seek level sc c passed scan in
  rev (fst c') ++ snd c' = ch ∧ Forall (λ n, score n < sc) (fst c').
Proof.
  intros Hs. revert c passed. induction scan as [|n tl IH]; intros c passed Hch Hc; simpl; [done|].
  destruct (level <? levels n)%nat.
  - destruct (Z.ltb_spec (score n) sc) as [Hlt|]; [|done].
    apply IH; simpl.
    + by rewrite <- app_assoc.
    + split; [by rewrite <- app_assoc|].
      constructor; [done|]. apply Forall_forall. intros x Hx.
      subst ch. pose proof (sorted_before_lt _ _ _ _ Hs Hx). lia.
  - apply IH; [|done]. simpl. by rewrite <- app_assoc.
Qed.

Lemma seek0_stop sc passed scan :
  Forall (λ n, (1 <= levels n)%nat) scan →
  ∀ n, head (snd (seek 0 sc (passed, scan) passed scan)) = Some n → sc <= score n.
Proof.
  revert passed. induction scan as [|x tl IH]; intros passed Hl; simpl; [done|].
  apply Forall_cons in Hl as [Hx Hl].
  destruct (Nat.ltb_spec 0 (levels x)); [|lia].
  destruct (Z.ltb_spec (score x) sc).
  - by apply IH.
  - simpl. intros n [= <-]. done.
Qed.

Lemma descend_valid top sc ch c :
  StronglySorted score_lt ch →
  rev (fst c) ++ snd c = ch ∧ Forall (λ n, score n < sc) (fst c) →
  let c' := descend top sc c in
  rev (fst c') ++ snd c' = ch ∧ Forall (λ n, score n < sc) (fst c').
Proof.
  intros Hs. revert c. induction top as [|level IH]; intros c Hc; simpl; [done|].
  apply IH. apply seek_valid; [done| |done]. apply Hc.
Qed.

Lemma descend_splits top sc ch c :
  StronglySorted score_lt ch →
  Forall (λ n, (1 <= levels n)%nat) ch →
  rev (fst c) ++ snd c = ch ∧ Forall (λ n, score n < sc) (fst c) →
  (1 <= top)%nat →
  splits ch sc (descend top sc c).
Proof.
  intros Hs Hl. revert c. induction top as [|level IH]; intros c Hc Htop; [lia|].
  simpl. destruct level as [|level].
  - simpl. pose proof (seek_valid 0 sc ch c (fst c) (snd c) Hs (proj1 Hc) Hc) as [H1 H2].
    split; [done|]. split; [done|].
    unfold seek_level. destruct c as [b a]. simpl in *.
    apply seek0_stop. destruct Hc as [<- _].
    apply Forall_app in Hl. apply Hl.
  - apply IH; [|lia]. apply seek_valid; [done| |done]. apply Hc.
Qed.

Lemma at_root_valid ring sc :
  rev (fst (at_root ring)) ++ snd (at_root ring) = chain ring ∧
  Forall (λ n, score n < sc) (fst (at_root ring)).
Proof. split; [done|]. constructor. Qed.

(** Scores identify the nodes of a sorted chain. *)
Lemma find_node_Some ch sc n :
  StronglySorted score_lt ch →
  find_node ch sc = Some n ↔ n ∈ ch ∧ score n = sc.
Proof.
  intros Hs. induction ch as [|x tl IH]; simpl.
  - split; [done|]. intros [H _]. by apply elem_of_nil in H.
  - apply StronglySorted_cons in Hs as [Hx Hs].
    destruct (Z.eqb_spec (score x) sc) as [He|Hne].
    + split.
      * intros [= <-]. split; [left|done].
      * intros [Hin Hsc]. apply elem_of_cons in Hin as [->|Hin]; [done|].
        rewrite Forall_forall in Hx. specialize (Hx _ Hin). unfold score_lt in Hx. lia.
    + rewrite (IH Hs). split.
      * intros [??]. split; [by right|done].
      * intros [Hin Hsc]. apply elem_of_cons in Hin as [->|Hin]; [done|]. done.
Qed.

Lemma find_node_None ch sc :
  find_node ch sc = None ↔ ∀ n, n ∈ ch → score n ≠ sc.
Proof.
  induction ch as [|x tl IH]; simpl.
  - split; [|done]. intros _ n H. by apply elem_of_nil in H.
  - destruct (Z.eqb_spec (score x) sc) as [He|Hne].
    + split; [done|]. intros H. exfalso. apply (H x); [left|done].
    + rewrite IH. split.
      * intros H n Hin. apply elem_of_cons in Hin as [->|Hin]; [done|by apply H].
      * intros H n Hin. apply H. by right.
Qed.

Lemma splits_after_ge ch sc c n :
  StronglySorted score_lt ch → splits ch sc c → n ∈ snd c → sc <= score n.
Proof.
  intros Hs (Hch & _ & Hhd) Hin.
  destruct (snd c) as [|x tl] eqn:E; [by apply elem_of_nil in Hin|].
  specialize (Hhd x eq_refl).
  apply elem_of_cons in Hin as [->|Hin]; [done|].
  rewrite <- Hch in Hs. apply StronglySorted_app_1_r in Hs.
  apply StronglySorted_cons in Hs as [Hx _]. rewrite Forall_forall in Hx.
  specialize (Hx _ Hin). unfold score_lt in Hx. lia.
Qed.

Lemma splits_find ch sc c :
  StronglySorted score_lt ch → splits ch sc c →
  find_node ch sc =
    match head (snd c) with
    | Some n => if score n =? sc then Some n else None
    | None => None
    end.
Proof.
  intros Hs Hsp. pose proof Hsp as (Hch & Hlt & Hhd).
  destruct (snd c) as [|x tl] eqn:E; simpl.
  - apply find_node_None. intros n Hin. rewrite <- Hch, app_nil_r in Hin.
    apply list_elem_of_In, in_rev, list_elem_of_In in Hin.
    rewrite Forall_forall in Hlt. specialize (Hlt _ Hin). lia.
  - destruct (Z.eqb_spec (score x) sc) as [He|Hne].
    + apply find_node_Some; [done|]. split; [|done].
      rewrite <- Hch. apply elem_of_app. right. left.
    + apply find_node_None. intros n Hin. rewrite <- Hch in Hin.
      apply elem_of_app in Hin as [Hin|Hin].
      * apply list_elem_of_In, in_rev, list_elem_of_In in Hin.
        rewrite Forall_forall in Hlt. specialize (Hlt _ Hin). lia.
      * assert (sc <= score n) by (eapply splits_after_ge; [done..|by rewrite E]).
        apply elem_of_cons in Hin as [->|Hin]; [done|].
        specialize (Hhd x eq_refl).
        rewrite <- Hch in Hs. apply StronglySorted_app_1_r in Hs.
        apply StronglySorted_cons in Hs as [Hx _]. rewrite Forall_forall in Hx.
        specialize (Hx _ Hin). unfold score_lt in Hx. lia.
Qed.

Lemma nexts_at_0 passed after :
  Forall (λ n, (1 <= levels n)%nat) after →
  nexts_at 0 passed after =
    match after with
    | [] => None
    | n :: tl => Some (passed, n, tl)
    end.
Proof.
  destruct after as [|n tl]; [done|]. intros H. apply Forall_cons in H as [H _].
  by apply nexts_at_0_cons.
Qed.

Lemma valid_after_levels ch (c : cursor) :
  Forall (λ n, (1 <= levels n)%nat) ch →
  rev (fst c) ++ snd c = ch →
  Forall (λ n, (1 <= levels n)%nat) (snd c).
Proof. intros Hl <-. apply Forall_app in Hl. apply Hl. Qed.

Lemma get_from_Some top sc ch c b n tl :
  StronglySorted score_lt ch →
  rev (fst c) ++ snd c = ch ∧ Forall (λ n, score n < sc) (fst c) →
  get_from top sc c = Some (b, n, tl) →
  rev b ++ n :: tl = ch ∧ score n = sc.
Proof.
  intros Hs. revert c. induction top as [|level IH]; intros c Hc; simpl; [done|].
  pose proof (seek_valid level sc ch c (fst c) (snd c) Hs (proj1 Hc) Hc) as Hc'.
  fold (seek_level level sc c) in Hc'. simpl in Hc'.
  destruct (nexts_at level _ _) as [[[b' n'] tl']|] eqn:E; [|by apply IH].
  destruct (Z.eqb_spec (score n') sc); [|by apply IH].
  intros [= -> -> ->]. apply nexts_at_Some in E as [E _].
  split; [|done]. rewrite E. apply Hc'.
Qed.

Lemma get_from_None top sc ch c :
  StronglySorted score_lt ch →
  Forall (λ n, (1 <= levels n)%nat) ch →
  rev (fst c) ++ snd c = ch ∧ Forall (λ n, score n < sc) (fst c) →
  (1 <= top)%nat →
  get_from top sc c = None →
  find_node ch sc = None.
Proof.
  intros Hs Hl. revert c. induction top as [|level IH]; intros c Hc Htop; [lia|].
  simpl.
  pose proof (seek_valid level sc ch c (fst c) (snd c) Hs (proj1 Hc) Hc) as Hc'.
  fold (seek_level level sc c) in Hc'. simpl in Hc'.
  destruct level as [|level].
  - pose proof (descend_splits 1 sc ch c Hs Hl Hc (le_n 1)) as Hsp. simpl in Hsp.
    rewrite (splits_find _ _ _ Hs Hsp).
    rewrite nexts_at_0 by (eapply valid_after_levels; [done|apply Hc']).
    destruct (snd (seek_level 0 sc c)) as [|x tl]; [done|]. simpl.
    by destruct (score x =? sc).
  - destruct (nexts_at (S level) _ _) as [[[b' n'] tl']|] eqn:E.
    + destruct (score n' =? sc); [done|]. apply IH; [done|lia].
    + apply IH; [done|lia].
Qed.

Lemma max_levels_0 ch :
  Forall (λ n, (1 <= levels n)%nat) ch → max_levels ch = O → ch = [].
Proof.
  destruct ch as [|n tl]; [done|]. intros H. apply Forall_cons in H as [H _].
  simpl. lia.
Qed.

Lemma wf_empty_chain ring : wf ring → root_levels ring = O → chain ring = [].
Proof.
  intros [] H0. apply max_levels_0; [done|congruence].
Qed.

Lemma wf_root_pos ring n :
  wf ring → n ∈ chain ring → (1 <= root_levels ring)%nat.
Proof.
  intros Hwf Hin. destruct (root_levels ring) eqn:E; [|lia].
  rewrite (wf_empty_chain _ Hwf E) in Hin. by apply elem_of_nil in Hin.
Qed.

(** [get] finds the slot stored at the score, with the chain around it. *)
Lemma get_spec ring sc :
  wf ring →
  match get ring sc with
  | Some (b, n, tl) =>
      chain ring = rev b ++ n :: tl ∧ score n = sc ∧
      find_node (chain ring) sc = Some n
  | None => find_node (chain ring) sc = None
  end.
Proof.
  intros Hwf. pose proof Hwf as [Hs Hl Hi Hr]. unfold get.
  destruct (get_from _ _ _) as [[[b n] tl]|] eqn:E.
  - apply (get_from_Some _ _ (chain ring)) in E as [E1 E2];
      [|done|apply at_root_valid].
    split; [done|]. split; [done|].
    apply find_node_Some; [done|]. split; [|done].
    rewrite <- E1. apply elem_of_app. right. left.
  - destruct (root_levels ring) as [|k] eqn:Ek.
    + by rewrite (wf_empty_chain _ Hwf Ek).
    + eapply get_from_None; [done|done|apply at_root_valid| |exact E]. lia.
Qed.

Lemma get_None ring sc :
  wf ring → get ring sc = None ↔ find_node (chain ring) sc = None.
Proof.
  intros Hwf. pose proof (get_spec ring sc Hwf) as H.
  destruct (get ring sc) as [[[b n] tl]|]; [|done].
  destruct H as (_ & _ & ->). done.
Qed.

(** [Node] returns the keys of the slot at the score, and fails when there
    is no such slot. *)
Lemma Node_spec ring sc :
  wf ring →
  Node ring sc =
    match find_node (chain ring) sc with
    | Some n => Ok (nodeIDs n)
    | None => Err ("score: " +:+ pretty sc +:+ " not exist")
    end.
Proof.
  intros Hwf. pose proof (get_spec ring sc Hwf) as H. unfold Node.
  destruct (get ring sc) as [[[b n] tl]|].
  - destruct H as (_ & _ & ->). done.
  - by rewrite H.
Qed.

(** *** Editing a sorted chain *)

Lemma find_node_app l1 l2 sc :
  find_node (l1 ++ l2) sc =
    match find_node l1 sc with
    | Some n => Some n
    | None => find_node l2 sc
    end.
Proof.
  induction l1 as [|x l1 IH]; simpl; [done|]. by destruct (score x =? sc).
Qed.

Lemma find_node_below l sc :
  Forall (λ n, score n < sc) l → find_node l sc = None.
Proof.
  intros H. apply find_node_None. intros n Hin.
  rewrite Forall_forall in H. specialize (H _ Hin). lia.
Qed.

Lemma find_node_above l sc :
  Forall (λ n, sc < score n) l → find_node l sc = None.
Proof.
  intros H. apply find_node_None. intros n Hin.
  rewrite Forall_forall in H. specialize (H _ Hin). lia.
Qed.

Lemma sorted_middle l1 n l2 :
  StronglySorted score_lt (l1 ++ n :: l2) →
  Forall (λ x, score x < score n) l1 ∧ Forall (λ x, score n < score x) l2.
Proof.
  intros Hs. split.
  - apply Forall_forall. intros x Hx.
    apply (StronglySorted_app_1_elem_of _ _ _ x n) in Hs; [done|done|left].
  - apply StronglySorted_app_1_r, StronglySorted_cons in Hs as [H _]. done.
Qed.

Lemma sorted_replace l1 n n' l2 :
  score n' = score n →
  StronglySorted score_lt (l1 ++ n :: l2) →
  StronglySorted score_lt (l1 ++ n' :: l2).
Proof.
  intros He. rewrite !StronglySorted_app, !StronglySorted_cons.
  intros (H1 & H2 & H3 & H4). split; [|split; [done|split; [|done]]].
  - intros x1 x2 Hx1 Hx2. apply elem_of_cons in Hx2 as [->|Hx2].
    + unfold score_lt. rewrite He. apply (H1 x1 n); [done|left].
    + apply H1; [done|by right].
  - eapply Forall_impl; [exact H3|]. unfold score_lt. intros; simpl in *. lia.
Qed.

Lemma sorted_delete l1 n l2 :
  StronglySorted score_lt (l1 ++ n :: l2) →
  StronglySorted score_lt (l1 ++ l2).
Proof.
  rewrite !StronglySorted_app, !StronglySorted_cons.
  intros (H1 & H2 & H3 & H4). split; [|done].
  intros x1 x2 Hx1 Hx2. apply H1; [done|]. by right.
Qed.

Lemma find_node_replace l1 n n' l2 sc :
  score n' = score n →
  StronglySorted score_lt (l1 ++ n :: l2) →
  find_node (l1 ++ n' :: l2) sc =
    if sc =? score n then Some n' else find_node (l1 ++ n :: l2) sc.
Proof.
  intros He Hs. apply sorted_middle in Hs as [Hb Ha].
  rewrite !find_node_app. simpl. rewrite He.
  destruct (Z.eqb_spec sc (score n)) as [->|Hne].
  - rewrite find_node_below by done. by rewrite Z.eqb_refl.
  - destruct (Z.eqb_spec (score n) sc); [lia|done].
Qed.

Lemma find_node_delete l1 n l2 sc :
  StronglySorted score_lt (l1 ++ n :: l2) →
  find_node (l1 ++ l2) sc =
    if sc =? score n then None else find_node (l1 ++ n :: l2) sc.
Proof.
  intros Hs. apply sorted_middle in Hs as [Hb Ha].
  rewrite !find_node_app. simpl.
  destruct (Z.eqb_spec sc (score n)) as [->|Hne].
  - rewrite find_node_below by done. by apply find_node_above.
  - destruct (Z.eqb_spec (score n) sc); [lia|done].
Qed.

Lemma splits_strict ch sc c :
  StronglySorted score_lt ch → splits ch sc c → find_node ch sc = None →
  Forall (λ n, sc < score n) (snd c).
Proof.
  intros Hs Hsp Hnone. apply Forall_forall. intros n Hin.
  pose proof (splits_after_ge _ _ _ _ Hs Hsp Hin).
  destruct Hsp as (Hch & _ & _).
  rewrite find_node_None in Hnone.
  assert (score n ≠ sc); [|lia].
  apply Hnone. rewrite <- Hch. apply elem_of_app. by right.
Qed.

Lemma sorted_insert ch sc c new :
  StronglySorted score_lt ch → splits ch sc c → find_node ch sc = None →
  score new = sc →
  StronglySorted score_lt (rev (fst c) ++ new :: snd c).
Proof.
  intros Hs Hsp Hnone He.
  pose proof (splits_strict _ _ _ Hs Hsp Hnone) as Ha.
  destruct Hsp as (Hch & Hb & _). rewrite <- Hch in Hs.
  apply StronglySorted_app in Hs as (H1 & H2 & H3).
  apply StronglySorted_app. split; [|split; [done|]].
  - intros x1 x2 Hx1 Hx2. apply elem_of_cons in Hx2 as [->|Hx2]; [|by apply H1].
    unfold score_lt. rewrite He.
    apply list_elem_of_In, in_rev, list_elem_of_In in Hx1.
    rewrite Forall_forall in Hb. by apply Hb.
  - apply StronglySorted_cons. split; [|done].
    eapply Forall_impl; [exact Ha|]. unfold score_lt. intros; simpl in *. lia.
Qed.

Lemma find_node_insert ch sc c new sc' :
  StronglySorted score_lt ch → splits ch sc c → find_node ch sc = None →
  score new = sc →
  find_node (rev (fst c) ++ new :: snd c) sc' =
    if sc' =? sc then Some new else find_node ch sc'.
Proof.
  intros Hs Hsp Hnone He.
  destruct Hsp as (Hch & Hb & _).
  rewrite <- Hch, !find_node_app. simpl. rewrite He.
  destruct (Z.eqb_spec sc' sc) as [->|Hne].
  - rewrite find_node_below; [by rewrite Z.eqb_refl|].
    apply Forall_forall. intros x Hx.
    apply list_elem_of_In, in_rev, list_elem_of_In in Hx.
    rewrite Forall_forall in Hb. by apply Hb.
  - destruct (Z.eqb_spec sc sc'); [lia|done].
Qed.

Lemma max_levels_app l1 l2 :
  max_levels (l1 ++ l2) = Nat.max (max_levels l1) (max_levels l2).
Proof. induction l1 as [|x l1 IH]; simpl; [done|]. rewrite IH. lia. Qed.

(** *** [Add] *)

Lemma Add_replicas sc v r ring :
  nodeToReplicas (Add sc v r ring) = nodeToReplicas ring.
Proof.
  unfold Add. destruct (get ring sc) as [[[b n] tl]|]; [|done].
  by destruct (bool_decide _).
Qed.

Lemma Add_dataKeys sc v r ring :
  nodeToDataKey (Add sc v r ring) = nodeToDataKey ring.
Proof.
  unfold Add. destruct (get ring sc) as [[[b n] tl]|]; [|done].
  by destruct (bool_decide _).
Qed.

Lemma Add_find ring sc v r sc' :
  wf ring →
  find_node (chain (Add sc v r ring)) sc' =
    if sc' =? sc then Some (add_slot sc v r (find_node (chain ring) sc))
    else find_node (chain ring) sc'.
Proof.
  intros Hwf. pose proof Hwf as [Hs Hl Hi Hr].
  pose proof (get_spec ring sc Hwf) as Hg. unfold Add.
  destruct (get ring sc) as [[[b n] tl]|].
  - destruct Hg as (Hch & Hsc & Hf). rewrite Hf. simpl.
    destruct (bool_decide (v ∈ nodeIDs n)).
    + destruct (Z.eqb_spec sc' sc) as [->|]; done.
    + simpl. rewrite rev_append_rev. rewrite Hch in Hs.
      rewrite (find_node_replace _ n) by done.
      by rewrite Hsc, Hch.
  - rewrite Hg. simpl. rewrite rev_append_rev.
    apply find_node_insert; [done| |done|done].
    apply descend_splits; [done|done|apply at_root_valid|lia].
Qed.

Lemma Add_wf ring sc v r : wf ring → wf (Add sc v r ring).
Proof.
  intros Hwf. pose proof Hwf as [Hs Hl Hi Hr].
  pose proof (get_spec ring sc Hwf) as Hg. unfold Add.
  destruct (get ring sc) as [[[b n] tl]|].
  - destruct Hg as (Hch & Hsc & Hf).
    destruct (bool_decide_reflect (v ∈ nodeIDs n)) as [Hin|Hnin]; [done|].
    rewrite Hch in Hs, Hl, Hi, Hr.
    apply Forall_app in Hl as [Hl1 Hl2]. apply Forall_cons in Hl2 as [Hn Hl2].
    apply Forall_app in Hi as [Hi1 Hi2]. apply Forall_cons in Hi2 as [[Hn1 Hn2] Hi2].
    constructor; simpl; rewrite rev_append_rev.
    + by apply (sorted_replace _ n).
    + apply Forall_app. split; [done|]. by constructor.
    + apply Forall_app. split; [done|]. constructor; [|done]. simpl. split.
      * by destruct (nodeIDs n).
      * apply NoDup_app. split; [done|]. split; [|apply NoDup_singleton].
        intros x Hx Hx'. apply list_elem_of_singleton in Hx'. by subst.
    + rewrite Hr, !max_levels_app. done.
  - set (c := descend (r + 1) sc (at_root ring)).
    assert (splits (chain ring) sc c) as Hsp
      by (apply descend_splits; [done|done|apply at_root_valid|lia]).
    pose proof Hsp as (Hch & _ & _).
    rewrite <- Hch in Hl, Hi, Hr.
    apply Forall_app in Hl as [Hl1 Hl2]. apply Forall_app in Hi as [Hi1 Hi2].
    constructor; simpl; rewrite rev_append_rev.
    + by apply (sorted_insert (chain ring) sc).
    + apply Forall_app. split; [done|]. constructor; [simpl; lia|done].
    + apply Forall_app. split; [done|]. constructor; [|done]. simpl.
      split; [done|apply NoDup_singleton].
    + rewrite max_levels_app in Hr. rewrite max_levels_app. simpl.
      destruct (Nat.ltb_spec (root_levels ring) (r + 1)); lia.
Qed.

(** *** [Rem] *)

Lemma index_of_spec v ids i :
  0 <= i →
  ((v ∉ ids) ∧ index_of v ids i = -1) ∨
  (v ∈ ids ∧ ∃ k : nat, index_of v ids i = i + Z.of_nat k ∧
                        remove_at k ids = remove_key v ids).
Proof.
  revert i. induction ids as [|x tl IH]; intros i Hi; simpl.
  - left. split; [apply not_elem_of_nil|done].
  - destruct (String.eqb_spec x v) as [->|Hne].
    + right. split; [left|]. exists O. split; [lia|done].
    + destruct (IH (i + 1)) as [[Hnin He]|[Hin (k & He & Hr)]]; [lia|..].
      * left. split; [|done]. intros H. apply elem_of_cons in H as [->|H]; done.
      * right. split; [by right|]. exists (S k). split; [lia|].
        unfold remove_at in *. simpl. by rewrite <- Hr.
Qed.

Lemma elem_of_remove_key v ids x :
  NoDup ids → x ∈ remove_key v ids ↔ x ∈ ids ∧ x ≠ v.
Proof.
  induction ids as [|y tl IH]; simpl; intros Hnd.
  - split; [intros H; by apply elem_of_nil in H|intros [H _]; by apply elem_of_nil in H].
  - apply NoDup_cons in Hnd as [Hy Hnd].
    destruct (String.eqb_spec y v) as [->|Hne].
    + split.
      * intros H. split; [by right|]. intros ->. done.
      * intros [H Hx]. apply elem_of_cons in H as [->|H]; done.
    + rewrite !elem_of_cons, (IH Hnd). split.
      * intros [->|[??]]; [split; [by left|done]|split; [by right|done]].
      * intros [[->|?] ?]; [by left|by right].
Qed.

Lemma NoDup_remove_key v ids : NoDup ids → NoDup (remove_key v ids).
Proof.
  induction ids as [|y tl IH]; simpl; intros Hnd; [done|].
  pose proof Hnd as Hnd'. apply NoDup_cons in Hnd as [Hy Hnd].
  destruct (String.eqb_spec y v); [done|].
  apply NoDup_cons. split; [|by apply IH].
  rewrite elem_of_remove_key by done. intros [? _]. done.
Qed.

Lemma length_remove_key v ids :
  v ∈ ids → S (length (remove_key v ids)) = length ids.
Proof.
  induction ids as [|y tl IH]; simpl; intros Hin; [by apply elem_of_nil in Hin|].
  destruct (String.eqb_spec y v) as [->|Hne]; [done|].
  apply elem_of_cons in Hin as [->|Hin]; [done|]. simpl. by rewrite IH.
Qed.

Lemma remove_key_notin v ids : v ∉ ids → remove_key v ids = ids.
Proof.
  induction ids as [|y tl IH]; simpl; intros Hnin; [done|].
  destruct (String.eqb_spec y v) as [->|Hne].
  - exfalso. apply Hnin. left.
  - rewrite IH; [done|]. intros H. apply Hnin. by right.
Qed.

Lemma nexts_at_None level passed ch :
  nexts_at level passed ch = None ↔ (max_levels ch <= level)%nat.
Proof.
  revert passed. induction ch as [|n tl IH]; intros passed; simpl.
  - split; [lia|done].
  - destruct (Nat.ltb_spec level (levels n)).
    + split; [done|lia].
    + rewrite IH. lia.
Qed.

Lemma first_vacant_spec remaining level ch :
  (level <= max_levels ch)%nat →
  (max_levels ch <= level + remaining)%nat →
  first_vacant remaining level ch =
    if (max_levels ch <? level + remaining)%nat then Some (max_levels ch) else None.
Proof.
  revert level. induction remaining as [|r IH]; intros level H1 H2; simpl.
  - destruct (Nat.ltb_spec (max_levels ch) (level + 0)); [lia|done].
  - destruct (nexts_at level [] ch) as [x|] eqn:E.
    + assert (¬ (max_levels ch <= level)%nat) as Hgt.
      { rewrite <- (nexts_at_None level []). by rewrite E. }
      rewrite IH by lia. by replace (S level + r)%nat with (level + S r)%nat by lia.
    + apply nexts_at_None in E.
      destruct (Nat.ltb_spec (max_levels ch) (level + S r)); [|lia].
      f_equal. lia.
Qed.

Lemma shrink_root_max top ch :
  (max_levels ch <= top)%nat → shrink_root top ch = max_levels ch.
Proof.
  intros H. unfold shrink_root.
  rewrite (first_vacant_spec top 0 ch) by lia. simpl.
  destruct (Nat.ltb_spec (max_levels ch) top); [done|lia].
Qed.

Lemma unlink_spec ring sc n :
  wf ring → find_node (chain ring) sc = Some n →
  ∃ l1 l2, chain ring = l1 ++ n :: l2 ∧
           unlink (root_levels ring) sc ring = l1 ++ l2.
Proof.
  intros Hwf Hf. pose proof Hwf as [Hs Hl Hi Hr].
  assert (n ∈ chain ring ∧ score n = sc) as [Hin Hsc] by (by apply find_node_Some).
  pose proof (wf_root_pos _ _ Hwf Hin) as Hpos.
  pose proof (descend_splits (root_levels ring) sc (chain ring) (at_root ring)
                Hs Hl (at_root_valid ring sc) Hpos) as Hsp.
  unfold unlink. set (c := descend _ _ _) in *.
  pose proof (splits_find _ _ _ Hs Hsp) as Hf'. rewrite Hf in Hf'.
  pose proof Hsp as (Hch & _ & _).
  rewrite nexts_at_0 by (eapply valid_after_levels; [exact Hl|exact Hch]).
  destruct (snd c) as [|x tl] eqn:E; [done|]. simpl in Hf'.
  destruct (Z.eqb_spec (score x) sc) as [Hx|]; [|done].
  injection Hf' as ->.
  destruct (Z.ltb_spec sc (score x)); [lia|].
  exists (rev (fst c)), tl. split; [done|]. apply rev_append_rev.
Qed.

Lemma Rem_no_score ring sc v :
  wf ring → find_node (chain ring) sc = None →
  Rem sc v ring = (ring, Some ("score: " +:+ pretty sc +:+ " not exist")).
Proof.
  intros Hwf Hf. unfold Rem. by rewrite (proj2 (get_None ring sc Hwf) Hf).
Qed.

Lemma Rem_no_key ring sc v n :
  wf ring → find_node (chain ring) sc = Some n → v ∉ nodeIDs n →
  Rem sc v ring =
    (ring, Some ("node: " +:+ v +:+ " not exist in score: " +:+ pretty sc)).
Proof.
  intros Hwf Hf Hnin. pose proof (get_spec ring sc Hwf) as Hg. unfold Rem.
  destruct (get ring sc) as [[[b n'] tl]|]; [|congruence].
  destruct Hg as (_ & _ & Hf'). rewrite Hf in Hf'. injection Hf' as <-.
  destruct (index_of_spec v (nodeIDs n) 0) as [[_ ->]|[Hin _]]; [lia|done|done].
Qed.

(** A successful [Rem]: the key is taken out of its slot, the slot goes when
    it was the last key, the entry stored under the key string in
    [nodeToDataKey] is deleted, and nothing else changes. *)
Lemma Rem_ok ring sc v n :
  wf ring → find_node (chain ring) sc = Some n → v ∈ nodeIDs n →
  ∃ ring', Rem sc v ring = (ring', None) ∧ wf ring' ∧
    nodeToReplicas ring' = nodeToReplicas ring ∧
    nodeToDataKey ring' = delete v (nodeToDataKey ring) ∧
    ∀ sc', find_node (chain ring') sc' =
             if sc' =? sc then rem_slot v n else find_node (chain ring) sc'.
Proof.
  intros Hwf Hf Hv. pose proof Hwf as [Hs Hl Hi Hr].
  pose proof (get_spec ring sc Hwf) as Hg. unfold Rem, rem_slot.
  destruct (get ring sc) as [[[b n'] tl]|]; [|congruence].
  destruct Hg as (Hch & Hsc & Hf'). rewrite Hf in Hf'. injection Hf' as <-.
  destruct (index_of_spec v (nodeIDs n) 0) as [[Hnin _]|[_ (k & -> & Hk)]]; [lia|done|].
  destruct (Z.eqb_spec (0 + Z.of_nat k) (-1)); [lia|].
  replace (Z.to_nat (0 + Z.of_nat k)) with k by lia. rewrite Hk.
  destruct (Nat.ltb_spec 1 (length (nodeIDs n))) as [Hlen|Hlen].
  - eexists. split; [done|]. simpl. rewrite rev_append_rev.
    rewrite Hch in Hs, Hl, Hi, Hr.
    apply Forall_app in Hl as [Hl1 Hl2]. apply Forall_cons in Hl2 as [Hn Hl2].
    apply Forall_app in Hi as [Hi1 Hi2]. apply Forall_cons in Hi2 as [[Hn1 Hn2] Hi2].
    split; [|split; [done|split; [done|]]].
    + constructor; simpl.
      * by apply (sorted_replace _ n).
      * apply Forall_app. split; [done|]. by constructor.
      * apply Forall_app. split; [done|]. constructor; [|done]. simpl. split.
        -- pose proof (length_remove_key v (nodeIDs n) Hv).
           destruct (remove_key v (nodeIDs n)); [simpl in *; lia|done].
        -- by apply NoDup_remove_key.
      * rewrite Hr, !max_levels_app. done.
    + intros sc'. rewrite (find_node_replace _ n) by done.
      by rewrite Hsc, Hch.
  - destruct (unlink_spec ring sc n Hwf Hf) as (l1 & l2 & Hch' & ->).
    eexists. split; [done|]. simpl.
    rewrite Hch' in Hs, Hl, Hi, Hr.
    apply Forall_app in Hl as [Hl1 Hl2]. apply Forall_cons in Hl2 as [Hn Hl2].
    apply Forall_app in Hi as [Hi1 Hi2]. apply Forall_cons in Hi2 as [Hn' Hi2].
    split; [|split; [done|split; [done|]]].
    + constructor; simpl.
      * by apply (sorted_delete _ n).
      * apply Forall_app. done.
      * apply Forall_app. done.
      * apply shrink_root_max. rewrite Hr, !max_levels_app. simpl. lia.
    + intros sc'. rewrite (find_node_delete _ n) by done.
      by rewrite Hsc, Hch'.
Qed.

(** *** [Ceiling] and [Floor] *)

Lemma elem_of_scores ring t :
  t ∈ scores ring ↔ ∃ n, n ∈ chain ring ∧ score n = t.
Proof.
  unfold scores. rewrite list_elem_of_fmap. split; intros (n & ? & ?); eauto.
Qed.

Lemma wf_chain_nonempty ring :
  wf ring → root_levels ring ≠ O → chain ring ≠ [].
Proof. intros [_ _ _ Hr] H0 He. rewrite He in Hr. simpl in Hr. done. Qed.

Lemma first_spec ring :
  wf ring →
  first ring =
    match chain ring with
    | [] => Ok (-1, false)
    | n :: _ => Ok (score n, true)
    end.
Proof.
  intros Hwf. pose proof Hwf as [Hs Hl Hi Hr]. unfold first.
  destruct (Nat.eqb_spec (root_levels ring) 0) as [H0|H0].
  - by rewrite (wf_empty_chain _ Hwf H0).
  - pose proof (wf_chain_nonempty _ Hwf H0).
    rewrite nexts_at_0 by done. by destruct (chain ring).
Qed.

Lemma sorted_head_min n tl u :
  StronglySorted score_lt (n :: tl) → u ∈ n :: tl → score n <= score u.
Proof.
  intros Hs Hu. apply StronglySorted_cons in Hs as [Hn _].
  apply elem_of_cons in Hu as [->|Hu]; [lia|].
  rewrite Forall_forall in Hn. specialize (Hn _ Hu). unfold score_lt in Hn. lia.
Qed.

(** The three outcomes of [Ceiling]. *)
Lemma Ceiling_cases ring sc :
  wf ring →
  (chain ring = [] ∧ Ceiling ring sc = Ok (-1)) ∨
  (∃ t, Ceiling ring sc = Ok t ∧ is_ceiling ring sc t) ∨
  (∃ t, Ceiling ring sc = Ok t ∧ chain ring ≠ [] ∧
        (∀ u, u ∈ scores ring → u < sc) ∧ is_min ring t).
Proof.
  intros Hwf. pose proof Hwf as [Hs Hl Hi Hr]. unfold Ceiling, ceiling.
  rewrite (first_spec _ Hwf).
  destruct (Nat.eqb_spec (root_levels ring) 0) as [H0|H0].
  { left. rewrite (wf_empty_chain _ Hwf H0). done. }
  assert (1 <= root_levels ring)%nat as Hpos by lia.
  pose proof (descend_splits (root_levels ring) sc (chain ring) (at_root ring)
                Hs Hl (at_root_valid ring sc) Hpos) as Hsp.
  set (c := descend _ _ _) in *. pose proof Hsp as (Hch & Hb & Hhd).
  rewrite nexts_at_0 by (eapply valid_after_levels; [exact Hl|exact Hch]).
  right. destruct (snd c) as [|n tl] eqn:E.
  - right. pose proof (wf_chain_nonempty _ Hwf H0) as Hne.
    destruct (chain ring) as [|m rest] eqn:Ec; [done|].
    exists (score m). split; [done|]. split; [done|]. split.
    + intros u Hu. apply elem_of_scores in Hu as (x & Hx & <-).
      rewrite Ec, <- Hch, app_nil_r in Hx.
      apply list_elem_of_In, in_rev, list_elem_of_In in Hx.
      rewrite Forall_forall in Hb. by apply Hb.
    + split.
      * apply elem_of_scores. exists m. split; [|done]. rewrite Ec. left.
      * intros u Hu. apply elem_of_scores in Hu as (x & Hx & <-).
        rewrite Ec in Hx. by apply (sorted_head_min m rest).
  - left. exists (score n). split; [done|]. split; [|split].
    + apply elem_of_scores. exists n. split; [|done].
      rewrite <- Hch. apply elem_of_app. right. left.
    + by apply Hhd.
    + intros u Hu Hge. apply elem_of_scores in Hu as (x & Hx & <-).
      rewrite <- Hch in Hx. apply elem_of_app in Hx as [Hx|Hx].
      * apply list_elem_of_In, in_rev, list_elem_of_In in Hx.
        rewrite Forall_forall in Hb. specialize (Hb _ Hx). simpl in Hb. lia.
      * rewrite <- Hch in Hs. apply StronglySorted_app_1_r in Hs.
        by apply (sorted_head_min n tl).
Qed.

Lemma Floor_slot ring sc :
  wf ring → sc ∈ scores ring → Floor ring sc = Ok sc.
Proof.
  intros Hwf Hin. pose proof Hwf as [Hs Hl Hi Hr].
  apply elem_of_scores in Hin as (n & Hn & Hsc).
  pose proof (wf_root_pos _ _ Hwf Hn) as Hpos.
  assert (find_node (chain ring) sc = Some n) as Hf by (by apply find_node_Some).
  unfold Floor, floor.
  destruct (Nat.eqb_spec (root_levels ring) 0) as [H0|H0]; [lia|].
  pose proof (descend_splits (root_levels ring) sc (chain ring) (at_root ring)
                Hs Hl (at_root_valid ring sc) Hpos) as Hsp.
  set (c := descend _ _ _) in *. pose proof Hsp as (Hch & Hb & Hhd).
  rewrite (splits_find _ _ _ Hs Hsp) in Hf.
  rewrite nexts_at_0 by (eapply valid_after_levels; [exact Hl|exact Hch]).
  destruct (snd c) as [|x tl]; [done|]. simpl in Hf.
  destruct (score x =? sc); [done|done].
Qed.

(** C5. On a well-formed skiplist ring, [Ceiling s] is the smallest slot
    score that is at least [s]; when every slot score is below [s] it wraps
    to the smallest slot score; on a ring without slots it is the sentinel
    -1; and when [s] is itself a slot score, [Ceiling s] and [Floor s] are
    both [s]. *)
Theorem Ceiling_Floor_spec ring sc :
  wf ring →
  (scores ring = [] → Ceiling ring sc = Ok (-1)) ∧
  ((∃ u, u ∈ scores ring ∧ sc <= u) →
     ∃ t, Ceiling ring sc = Ok t ∧ is_ceiling ring sc t) ∧
  (scores ring ≠ [] → (∀ u, u ∈ scores ring → u < sc) →
     ∃ t, Ceiling ring sc = Ok t ∧ is_min ring t) ∧
  (sc ∈ scores ring → Ceiling ring sc = Ok sc ∧ Floor ring sc = Ok sc).
Proof.
  intros Hwf. pose proof (Ceiling_cases ring sc Hwf) as Hc.
  split; [|split; [|split]].
  - intros He. destruct Hc as [[_ ?]|[(t & _ & Ht & _)|(t & _ & _ & _ & Ht & _)]];
      [done|rewrite He in Ht; by apply elem_of_nil in Ht..].
  - intros (u & Hu & Hge).
    destruct Hc as [[He _]|[(t & ? & ?)|(t & _ & _ & Hlt & _)]].
    + unfold scores in Hu. rewrite He in Hu. by apply elem_of_nil in Hu.
    + by exists t.
    + specialize (Hlt _ Hu). lia.
  - intros Hne Hlt.
    destruct Hc as [[He _]|[(t & _ & Ht & Hge & _)|(t & ? & _ & _ & ?)]].
    + unfold scores in Hne. by rewrite He in Hne.
    + specialize (Hlt _ Ht). lia.
    + by exists t.
  - intros Hin. split; [|by apply Floor_slot].
    destruct Hc as [[He _]|[(t & Hr & Ht & Hge & Hmin)|(t & _ & _ & Hlt & _)]].
    + unfold scores in Hin. rewrite He in Hin. by apply elem_of_nil in Hin.
    + rewrite Hr. f_equal. specialize (Hmin _ Hin). lia.
    + specialize (Hlt _ Hin). lia.
Qed.

Lemma ring3_wf : wf ring3.
Proof. by apply (bool_decide_unpack _). Qed.

Lemma Ceiling_Floor_spec_witness :
  wf ring3 ∧
  (scores ring3 = [] → Ceiling ring3 20 = Ok (-1)) ∧
  ((∃ u, u ∈ scores ring3 ∧ 20 <= u) →
     ∃ t, Ceiling ring3 20 = Ok t ∧ is_ceiling ring3 20 t) ∧
  (scores ring3 ≠ [] → (∀ u, u ∈ scores ring3 → u < 20) →
     ∃ t, Ceiling ring3 20 = Ok t ∧ is_min ring3 t) ∧
  (20 ∈ scores ring3 → Ceiling ring3 20 = Ok 20 ∧ Floor ring3 20 = Ok 20).
Proof.
  split; [by apply (bool_decide_unpack _)|].
  apply (Ceiling_Floor_spec ring3 20). by apply (bool_decide_unpack _).
Defined.

(** *** Membership in slots *)

Lemma Add_in_slot ring sc v r sc' v' :
  wf ring →
  in_slot (Add sc v r ring) sc' v' ↔ in_slot ring sc' v' ∨ (sc' = sc ∧ v' = v).
Proof.
  intros Hwf. unfold in_slot. rewrite (Add_find _ _ _ _ _ Hwf).
  destruct (Z.eqb_spec sc' sc) as [->|Hne].
  - unfold add_slot. destruct (find_node (chain ring) sc) as [n|] eqn:E.
    + destruct (bool_decide_reflect (v ∈ nodeIDs n)) as [Hin|Hnin].
      * split.
        -- intros (m & [= <-] & Hm). left. eauto.
        -- intros [(m & [= <-] & Hm)|[_ ->]]; eauto.
      * split.
        -- intros (m & [= <-] & Hm). simpl in Hm.
           apply elem_of_app in Hm as [Hm|Hm]; [left; eauto|].
           apply list_elem_of_singleton in Hm. by right.
        -- intros [(m & [= <-] & Hm)|[_ ->]]; eexists; (split; [done|]); simpl;
             apply elem_of_app; [by left|right; by apply list_elem_of_singleton].
    + split.
      * intros (m & [= <-] & Hm). simpl in Hm.
        apply list_elem_of_singleton in Hm. by right.
      * intros [(m & ? & _)|[_ ->]]; [done|].
        eexists. split; [done|]. simpl. by apply list_elem_of_singleton.
  - split; [by left|]. intros [?|[? _]]; done.
Qed.

Lemma Rem_inv ring ring' sc v :
  wf ring → Rem sc v ring = (ring', None) →
  ∃ n, find_node (chain ring) sc = Some n ∧ v ∈ nodeIDs n.
Proof.
  intros Hwf HR. destruct (find_node (chain ring) sc) as [n|] eqn:E.
  - exists n. split; [done|]. destruct (decide (v ∈ nodeIDs n)) as [|Hnin]; [done|].
    rewrite (Rem_no_key _ _ _ _ Hwf E Hnin) in HR. done.
  - rewrite (Rem_no_score _ _ _ Hwf E) in HR. done.
Qed.

Lemma Rem_in_slot ring ring' sc v sc' v' :
  wf ring → Rem sc v ring = (ring', None) →
  in_slot ring' sc' v' ↔ in_slot ring sc' v' ∧ ¬ (sc' = sc ∧ v' = v).
Proof.
  intros Hwf HR. destruct (Rem_inv _ _ _ _ Hwf HR) as (n & Hf & Hv).
  destruct (Rem_ok _ _ _ _ Hwf Hf Hv) as (ring'' & HR' & _ & _ & _ & Hfind).
  rewrite HR in HR'. injection HR' as <-.
  assert (NoDup (nodeIDs n)) as Hnd.
  { destruct Hwf as [Hs _ Hi _]. rewrite Forall_forall in Hi.
    apply (Hi n). by apply (find_node_Some _ sc). }
  unfold in_slot. rewrite Hfind.
  destruct (Z.eqb_spec sc' sc) as [->|Hne].
  - rewrite Hf. unfold rem_slot.
    destruct (Nat.ltb_spec 1 (length (nodeIDs n))) as [Hlen|Hlen].
    + split.
      * intros (m & [= <-] & Hm). simpl in Hm.
        apply elem_of_remove_key in Hm as [Hm Hne]; [|done].
        split; [eauto|]. intros [_ ?]. done.
      * intros [(m & [= <-] & Hm) Hne]. eexists. split; [done|]. simpl.
        apply elem_of_remove_key; [done|]. split; [done|]. intros ->. by apply Hne.
    + split; [intros (m & ? & _); done|].
      intros [(m & [= <-] & Hm) Hne]. exfalso. apply Hne. split; [done|].
      destruct (nodeIDs n) as [|x [|y l]]; simpl in *; [|by set_solver|lia].
      by apply elem_of_nil in Hv.
  - split; [|by intros [? _]]. intros H. split; [done|]. intros [? _]. done.
Qed.

(** *** Idempotence *)

Lemma AddNodeToDataKeys_present ring nodeID old dataKeys :
  nodeToDataKey ring !! nodeID = Some old → dataKeys ⊆ old →
  AddNodeToDataKeys nodeID dataKeys ring = ring.
Proof.
  intros Hl Hsub. unfold AddNodeToDataKeys, set_dataKeys. rewrite Hl.
  replace (old ∪ dataKeys) with old by set_solver.
  rewrite insert_id by done. by destruct ring.
Qed.

(** C7. On a well-formed ring, a second [Add] of the same key at the same
    score changes nothing, whatever [roll] would return; and
    [AddNodeToDataKeys] with keys the node already holds, in particular a
    second call with the same keys, changes nothing. *)
Theorem Add_idempotent ring sc v r1 r2 nodeID old dataKeys :
  wf ring →
  Add sc v r2 (Add sc v r1 ring) = Add sc v r1 ring ∧
  (nodeToDataKey ring !! nodeID = Some old → dataKeys ⊆ old →
     AddNodeToDataKeys nodeID dataKeys ring = ring) ∧
  AddNodeToDataKeys nodeID dataKeys (AddNodeToDataKeys nodeID dataKeys ring)
    = AddNodeToDataKeys nodeID dataKeys ring.
Proof.
  intros Hwf. split; [|split].
  - set (ring1 := Add sc v r1 ring).
    assert (wf ring1) as Hwf1 by (by apply Add_wf).
    assert (in_slot ring1 sc v) as (n & Hn & Hv)
      by (apply Add_in_slot; [done|by right]).
    pose proof (get_spec ring1 sc Hwf1) as Hg. unfold Add at 1.
    destruct (get ring1 sc) as [[[b m] tl]|]; [|congruence].
    destruct Hg as (_ & _ & Hf). rewrite Hn in Hf. injection Hf as <-.
    by rewrite bool_decide_eq_true_2.
  - apply AddNodeToDataKeys_present.
  - eapply AddNodeToDataKeys_present.
    + unfold AddNodeToDataKeys, set_dataKeys. simpl. apply lookup_insert_eq.
    + set_solver.
Qed.

Lemma Add_idempotent_witness :
  wf ring3 ∧
  Add 20 "C_0" 5 (Add 20 "C_0" 1 ring3) = Add 20 "C_0" 1 ring3 ∧
  (nodeToDataKey ring3 !! "A" = Some ∅ → {["d"]} ⊆ (∅ : gset string) →
     AddNodeToDataKeys "A" {["d"]} ring3 = ring3) ∧
  AddNodeToDataKeys "A" {["d"]} (AddNodeToDataKeys "A" {["d"]} ring3)
    = AddNodeToDataKeys "A" {["d"]} ring3.
Proof.
  assert (wf ring3) as Hwf by (by apply (bool_decide_unpack _)).
  split; [exact Hwf|].
  exact (Add_idempotent ring3 20 "C_0" 1%nat 5%nat "A" ∅ {["d"]} Hwf).
Defined.

(** *** The frame of [Rem] *)

(** C10. A successful [Rem score vkey] on a well-formed ring deletes the
    [nodeToDataKey] entry stored under the string [vkey] itself, leaves the
    entries under every other key and [nodeToReplicas] as they were, takes
    [vkey] out of the slot at [score] and nothing else out of any slot, and
    removes the slot when [vkey] was its only key. *)
Theorem Rem_frame ring ring' sc v :
  wf ring → Rem sc v ring = (ring', None) →
  nodeToDataKey ring' !! v = None ∧
  (∀ k, k ≠ v → nodeToDataKey ring' !! k = nodeToDataKey ring !! k) ∧
  nodeToReplicas ring' = nodeToReplicas ring ∧
  (∀ sc' v', in_slot ring' sc' v' ↔ in_slot ring sc' v' ∧ ¬ (sc' = sc ∧ v' = v)) ∧
  (∀ sc', sc' ≠ sc → find_node (chain ring') sc' = find_node (chain ring) sc') ∧
  (Node ring sc = Ok [v] → find_node (chain ring') sc = None).
Proof.
  intros Hwf HR. destruct (Rem_inv _ _ _ _ Hwf HR) as (n & Hf & Hv).
  destruct (Rem_ok _ _ _ _ Hwf Hf Hv) as (ring'' & HR' & _ & Hrep & Hdk & Hfind).
  rewrite HR in HR'. injection HR' as <-.
  split; [by rewrite Hdk, lookup_delete_eq|].
  split; [by intros k Hk; rewrite Hdk, lookup_delete_ne|].
  split; [done|].
  split; [by intros sc' v'; apply (Rem_in_slot ring ring' sc v)|].
  split.
  - intros sc' Hne. rewrite Hfind. by destruct (Z.eqb_spec sc' sc).
  - rewrite (Node_spec _ _ Hwf), Hf. intros [= Hids].
    rewrite Hfind, Z.eqb_refl. unfold rem_slot. by rewrite Hids.
Qed.

Lemma Rem_frame_witness :
  let ring' := fst (Rem 30 "B_0" ring3) in
  wf ring3 ∧ Rem 30 "B_0" ring3 = (ring', None) ∧
  nodeToDataKey ring' !! "B_0" = None ∧
  nodeToReplicas ring' = nodeToReplicas ring3 ∧
  find_node (chain ring') 30 = None.
Proof.
  assert (wf ring3) as Hwf by (by apply (bool_decide_unpack _)).
  assert (Rem 30 "B_0" ring3 = (fst (Rem 30 "B_0" ring3), None)) as HR
    by (by vm_compute).
  pose proof (Rem_frame ring3 _ 30 "B_0" Hwf HR) as (H1 & _ & H3 & _ & _ & H6).
  split; [done|]. split; [done|]. split; [done|]. split; [done|].
  apply H6. by vm_compute.
Defined.

End SkiplistFacts.

(** ** The self-expiring lock *)

Module LockFacts.
Import Skiplist.

Lemma token_nonempty pid goroutineID :
  GetCurrentProcessAndGogroutineIDStr pid goroutineID ≠ "".
Proof.
  unfold GetCurrentProcessAndGogroutineIDStr. by destruct (pretty pid).
Qed.

Lemma unlock_not_owner token ring :
  owner (lockEntity ring) ≠ token → unlock token ring = (ring, Err "not your lock").
Proof.
  intros Hne. unfold unlock.
  by destruct (String.eqb_spec (owner (lockEntity ring)) token).
Qed.

Lemma unlock_Ok_owner token ring ring' :
  unlock token ring = (ring', Ok tt) → owner (lockEntity ring') = "".
Proof.
  unfold unlock. destruct (String.eqb _ _); simpl; [|done].
  destruct (lock _); [|done]. by intros [= <-].
Qed.

(** C4, as the code has it. [Unlock] by a caller whose token is not the
    stored owner fails with "not your lock" and changes nothing.  A
    successful [Unlock] clears the owner, so that an [Unlock] after the lock
    was released, by whichever caller, by [Unlock] or by the expiry of the
    lock, fails with "not your lock" as well; no [Unlock] of the skiplist
    ring fails with "not locked". *)
Theorem Unlock_errors ring pid goroutineID :
  (owner (lockEntity ring) ≠ GetCurrentProcessAndGogroutineIDStr pid goroutineID →
     Unlock pid goroutineID ring = (ring, Err "not your lock")) ∧
  (∀ ring0 pid0 goroutineID0,
     Unlock pid0 goroutineID0 ring0 = (ring, Ok tt) →
     Unlock pid goroutineID ring = (ring, Err "not your lock")) ∧
  (∀ ring0 token,
     timer (lockEntity ring0) = Some token → owner (lockEntity ring0) = token →
     lock (lockEntity ring0) = true → expire ring0 = ring →
     lock (lockEntity ring) = false ∧
     Unlock pid goroutineID ring = (ring, Err "not your lock")) ∧
  snd (Unlock pid goroutineID ring) ≠ Err "not locked".
Proof.
  split; [|split; [|split]].
  - apply unlock_not_owner.
  - intros ring0 pid0 g0 H. apply unlock_not_owner.
    rewrite (unlock_Ok_owner _ _ _ H). intros He. symmetry in He.
    by apply token_nonempty in He.
  - intros ring0 token Ht Ho Hl <-.
    assert (expire ring0 = set_lock ring0 (MkLock false "" None)) as ->.
    { unfold expire, unlock. rewrite Ht, Ho, String.eqb_refl, Hl. done. }
    split; [done|]. apply unlock_not_owner. simpl.
    intros He. symmetry in He. by apply token_nonempty in He.
  - unfold Unlock, unlock. destruct (String.eqb _ _); simpl; [|done].
    by destruct (lock _).
Qed.

Lemma Unlock_errors_witness :
  owner (lockEntity ring_locked) ≠ GetCurrentProcessAndGogroutineIDStr 2 "9" ∧
  Unlock 2 "9" ring_locked = (ring_locked, Err "not your lock") ∧
  Unlock 1 "7" ring_locked = (ring_released, Ok tt) ∧
  Unlock 1 "7" ring_released = (ring_released, Err "not your lock") ∧
  expire ring_locked = ring_released.
Proof.
  assert (owner (lockEntity ring_locked) ≠ GetCurrentProcessAndGogroutineIDStr 2 "9")
    as Hne by (by vm_compute).
  assert (Unlock 1 "7" ring_locked = (ring_released, Ok tt)) as Hok by (by vm_compute).
  split; [done|]. split; [|split; [done|split; [|by vm_compute]]].
  - by apply (Unlock_errors ring_locked 2 "9").
  - by apply (proj1 (proj2 (Unlock_errors ring_released 1 "7")) ring_locked 1 "7").
Defined.

(** C4, as the specification has it, fails: after the owner has unlocked,
    a further [Unlock] does not fail with "not locked". *)
Lemma Unlock_released_not_locked :
  ¬ (∀ ring0 ring pid goroutineID,
       Unlock pid goroutineID ring0 = (ring, Ok tt) →
       snd (Unlock pid goroutineID ring) = Err "not locked").
Proof.
  intros H. specialize (H ring_locked ring_released 1 "7" eq_refl).
  vm_compute in H. discriminate.
Qed.

End LockFacts.

(** ** The placement engine *)

Module EngineFacts.
Import Skiplist ConsistentHashEngine SkiplistFacts KeyFacts.

(** *** Running a sequence of calls *)

Lemma bind_unfold {A B : Type} (m : M A) (k : A → M B) ring :
  (m ≫= k) ring =
    match m ring with
    | (ring', Ok a) => k a ring'
    | (ring', Err e) => (ring', Err e)
    | (ring', Panic) => (ring', Panic)
    | (ring', Hang) => (ring', Hang)
    end.
Proof. done. Qed.

Lemma bind_Ok {A B : Type} (m : M A) (k : A → M B) ring ring' b :
  (m ≫= k) ring = (ring', Ok b) →
  ∃ a ring1, m ring = (ring1, Ok a) ∧ k a ring1 = (ring', Ok b).
Proof.
  rewrite bind_unfold. destruct (m ring) as [ring1 [a|e| |]]; [eauto|done..].
Qed.

Global Instance same_slots_equiv : Equivalence same_slots.
Proof.
  split.
  - by intros r.
  - intros r1 r2 (?&?&?&?). by repeat split.
  - intros r1 r2 r3 (?&?&?&?) (?&?&?&?). repeat split; congruence.
Qed.

Global Instance same_lock_equiv : Equivalence same_lock.
Proof.
  split; [by intros r|by intros r1 r2 ?|]. intros r1 r2 r3 ??.
  unfold same_lock in *. congruence.
Qed.

Lemma same_slots_lock r r' : same_slots r r' → same_lock r r'.
Proof. by intros (? & _). Qed.

Section preserves.
Context (R : relation SkiplistHashRing) `{!PreOrder R}.

Lemma preserves_ret {A : Type} (a : A) : preserves R (mret a).
Proof. intros r. simpl. reflexivity. Qed.

Lemma preserves_fail {A : Type} e : preserves R (@fail A e).
Proof. intros r. simpl. reflexivity. Qed.

Lemma preserves_call {A : Type} (f : SkiplistHashRing → result A) :
  preserves R (call f).
Proof. intros r. simpl. reflexivity. Qed.

Lemma preserves_update f : (∀ r, R r (f r)) → preserves R (update f).
Proof. intros H r. apply H. Qed.

Lemma preserves_attempt f : (∀ r, R r (fst (f r))) → preserves R (attempt f).
Proof.
  intros H r. unfold attempt. specialize (H r).
  by destruct (f r) as [r' [e|]].
Qed.

Lemma preserves_bind {A B : Type} (m : M A) (k : A → M B) :
  preserves R m → (∀ a, preserves R (k a)) → preserves R (m ≫= k).
Proof.
  intros Hm Hk r. rewrite bind_unfold. specialize (Hm r).
  destruct (m r) as [r1 [a|e| |]]; simpl in *; [|done..].
  etrans; [done|]. apply Hk.
Qed.
End preserves.

Lemma preserves_weaken {A : Type} (R1 R2 : relation SkiplistHashRing) (m : M A) :
  (∀ r r', R1 r r' → R2 r r') → preserves R1 m → preserves R2 m.
Proof. intros H Hm r. apply H, Hm. Qed.

Lemma AddNodeToDataKeys_slots nodeID ks r :
  same_slots r (AddNodeToDataKeys nodeID ks r).
Proof. done. Qed.

Lemma DeleteNodeToDataKeys_slots nodeID ks r :
  same_slots r (DeleteNodeToDataKeys nodeID ks r).
Proof.
  unfold DeleteNodeToDataKeys. destruct (nodeToDataKey r !! nodeID); [|done].
  by destruct (size _ =? 0)%nat.
Qed.

Lemma Add_lock sc v rl r : same_lock r (Add sc v rl r).
Proof.
  unfold Add, same_lock. destruct (get r sc) as [[[b n] tl]|]; [|done].
  by destruct (bool_decide _).
Qed.

Lemma Rem_lock sc v r : same_lock r (fst (Rem sc v r)).
Proof.
  unfold Rem, same_lock. destruct (get r sc) as [[[b n] tl]|]; [|done].
  destruct (_ =? -1); [done|]. by destruct (1 <? _)%nat.
Qed.

(** The migrations only touch [nodeToDataKey]. *)
Lemma migrateIn_slots c vs nodeID : preserves same_slots (migrateIn c vs nodeID).
Proof.
  unfold migrateIn. destruct (negb (migrator c)); [apply preserves_ret; apply _|].
  apply preserves_bind; [apply _|apply preserves_call; apply _|intros nodes].
  destruct (1 <? length nodes)%nat; [apply preserves_ret; apply _|].
  apply preserves_bind; [apply _|apply preserves_call; apply _|intros lastScore].
  destruct (_ || _); [apply preserves_ret; apply _|].
  apply preserves_bind; [apply _|apply preserves_call; apply _|intros nextScore].
  destruct (_ || _); [apply preserves_ret; apply _|].
  apply preserves_bind; [apply _|apply preserves_call; apply _|intros nextNodes].
  destruct nextNodes as [|next0 rest]; [apply preserves_ret; apply _|].
  apply preserves_bind; [apply _|apply preserves_call; apply _|intros nextOwner].
  apply preserves_bind; [apply _|apply preserves_call; apply _|intros dataKeys].
  apply preserves_bind; [apply _| |intros _].
  { apply preserves_update. intros r. apply DeleteNodeToDataKeys_slots. }
  apply preserves_bind; [apply _| |intros _].
  { apply preserves_update. intros r. apply AddNodeToDataKeys_slots. }
  apply preserves_ret; apply _.
Qed.

Lemma migrateOut_slots c vs nodeID : preserves same_slots (migrateOut c vs nodeID).
Proof.
  unfold migrateOut. destruct (negb (migrator c)); [apply preserves_ret; apply _|].
  apply preserves_bind; [apply _|apply preserves_call; apply _|intros [[from to] datas]].
  destruct (_ || _); [apply preserves_ret; apply _|].
  apply preserves_bind; [apply _| |intros _].
  { apply preserves_update. intros r. apply DeleteNodeToDataKeys_slots. }
  apply preserves_bind; [apply _| |intros _].
  { apply preserves_update. intros r. apply AddNodeToDataKeys_slots. }
  apply preserves_ret; apply _.
Qed.

Lemma same_slots_wf r r' : same_slots r r' → wf r → wf r'.
Proof.
  intros (_ & Hr & Hc & _) [H1 H2 H3 H4].
  constructor; rewrite <- ?Hc, <- ?Hr; done.
Qed.

Lemma same_slots_in_slot r r' sc v :
  same_slots r r' → in_slot r sc v ↔ in_slot r' sc v.
Proof. intros (_ & _ & Hc & _). unfold in_slot. by rewrite Hc. Qed.

(** *** The loops of [AddNode] and [RemoveNode] *)

Lemma AddNode_loop_spec c nodeID rolls indices tasks r :
  wf r →
  let r' := fst (AddNode_loop c nodeID rolls indices tasks r) in
  wf r' ∧ nodeToReplicas r' = nodeToReplicas r ∧ same_lock r r' ∧
  (∀ sc v, in_slot r sc v → in_slot r' sc v) ∧
  (∀ sc v, in_slot r' sc v →
     in_slot r sc v ∨ ∃ i, i ∈ indices ∧ v = vkey nodeID i ∧ sc = encryptor c v).
Proof.
  revert tasks r. induction indices as [|i rest IH]; intros tasks r Hwf; simpl.
  { split; [done|]. split; [done|]. split; [done|]. split; [done|]. by left. }
  rewrite bind_unfold. simpl. rewrite bind_unfold.
  set (vk := getRawNodeKey nodeID (Z.of_nat i)).
  set (r1 := Add (encryptor c vk) vk (rolls i) r).
  assert (wf r1) as Hwf1 by (by apply Add_wf).
  pose proof (migrateIn_slots c (encryptor c vk) nodeID r1) as Hs.
  destruct (migrateIn c (encryptor c vk) nodeID r1) as [r2 res]. simpl in Hs.
  assert (wf r2) as Hwf2 by (by apply (same_slots_wf r1)).
  assert (wf r2 ∧ nodeToReplicas r2 = nodeToReplicas r ∧ same_lock r r2 ∧
          (∀ sc v, in_slot r sc v → in_slot r2 sc v) ∧
          (∀ sc v, in_slot r2 sc v →
             in_slot r sc v ∨ ∃ j, j ∈ i :: rest ∧ v = vkey nodeID j ∧
                                   sc = encryptor c v)) as Hstep.
  { split; [done|]. split.
    { destruct Hs as (_ & _ & _ & <-). apply Add_replicas. }
    split.
    { etrans; [apply (Add_lock (encryptor c vk) vk (rolls i))|].
      by apply same_slots_lock. }
    split.
    - intros sc v Hin. apply (same_slots_in_slot r1 r2); [done|].
      apply Add_in_slot; [done|]. by left.
    - intros sc v Hin. apply (same_slots_in_slot r1 r2) in Hin; [|done].
      apply (proj1 (Add_in_slot r _ _ _ sc v Hwf)) in Hin as [?|[-> ->]]; [by left|].
      right. exists i. split; [left|done]. }
  destruct res as [[[from to] datas]|e| |]; simpl; [|done..].
  assert (∀ ts, let r' := fst (AddNode_loop c nodeID rolls rest ts r2) in
    wf r' ∧ nodeToReplicas r' = nodeToReplicas r ∧ same_lock r r' ∧
    (∀ sc v, in_slot r sc v → in_slot r' sc v) ∧
    (∀ sc v, in_slot r' sc v →
       in_slot r sc v ∨ ∃ j, j ∈ i :: rest ∧ v = vkey nodeID j ∧
                             sc = encryptor c v)) as Hrest.
  { intros ts. destruct (IH ts r2 Hwf2) as (H1 & H2 & H3 & H4 & H5).
    destruct Hstep as (_ & G2 & G3 & G4 & G5).
    split; [done|]. split; [congruence|]. split; [by etrans|]. split.
    - intros sc v Hin. by apply H4, G4.
    - intros sc v Hin. apply H5 in Hin as [Hin|(j & Hj & -> & ->)].
      + by apply G5.
      + right. exists j. split; [by right|done]. }
  destruct (size datas =? 0)%nat; apply Hrest.
Qed.

Lemma AddNode_loop_Ok c nodeID rolls indices tasks r r' ts :
  wf r →
  AddNode_loop c nodeID rolls indices tasks r = (r', Ok ts) →
  ∀ i, i ∈ indices → in_slot r' (encryptor c (vkey nodeID i)) (vkey nodeID i).
Proof.
  revert tasks r. induction indices as [|i rest IH]; intros tasks r Hwf Hrun j Hj.
  { by apply elem_of_nil in Hj. }
  simpl in Hrun. apply bind_Ok in Hrun as ([] & r1 & Hadd & Hrun).
  injection Hadd as <-.
  apply bind_Ok in Hrun as ([[from to] datas] & r2 & Hmig & Hrun).
  set (vk := getRawNodeKey nodeID (Z.of_nat i)) in *.
  assert (wf (Add (encryptor c vk) vk (rolls i) r)) as Hwf1 by (by apply Add_wf).
  pose proof (migrateIn_slots c (encryptor c vk) nodeID
                (Add (encryptor c vk) vk (rolls i) r)) as Hs.
  rewrite Hmig in Hs. simpl in Hs.
  assert (wf r2) as Hwf2 by (by eapply same_slots_wf).
  apply elem_of_cons in Hj as [->|Hj].
  - assert (in_slot r2 (encryptor c vk) vk) as Hin.
    { apply (same_slots_in_slot _ r2 _ _ Hs). apply Add_in_slot; [done|]. by right. }
    destruct (size datas =? 0)%nat.
    + pose proof (AddNode_loop_spec c nodeID rolls rest tasks r2 Hwf2) as H.
      rewrite Hrun in H. by apply H.
    + pose proof (AddNode_loop_spec c nodeID rolls rest
                    (tasks ++ [Task from to datas]) r2 Hwf2) as H.
      rewrite Hrun in H. by apply H.
  - destruct (size datas =? 0)%nat; by eapply IH.
Qed.

Lemma attempt_Ok f r r' :
  attempt f r = (r', Ok tt) → f r = (r', None).
Proof. unfold attempt. destruct (f r) as [r1 [e|]]; [done|]. by intros [= <-]. Qed.

Lemma RemoveNode_loop_Ok c nodeID indices tasks r r' ts :
  wf r →
  RemoveNode_loop c nodeID indices tasks r = (r', Ok ts) →
  wf r' ∧ nodeToReplicas r' = nodeToReplicas r ∧
  (∀ sc v, in_slot r' sc v ↔
     in_slot r sc v ∧
     ¬ ∃ i, i ∈ indices ∧ v = vkey nodeID i ∧ sc = encryptor c v).
Proof.
  revert tasks r. induction indices as [|i rest IH]; intros tasks r Hwf Hrun.
  { injection Hrun as <- _. split; [done|]. split; [done|]. intros sc v.
    split; [|by intros [? _]]. intros Hin. split; [done|].
    intros (i & Hi & _). by apply elem_of_nil in Hi. }
  simpl in Hrun.
  apply bind_Ok in Hrun as ([[from to] datas] & r1 & Hmig & Hrun).
  apply bind_Ok in Hrun as ([] & r2 & Hrem & Hrun).
  apply attempt_Ok in Hrem.
  set (vk := getRawNodeKey nodeID (Z.of_nat i)) in *.
  pose proof (migrateOut_slots c (encryptor c vk) nodeID r) as Hs.
  rewrite Hmig in Hs. simpl in Hs.
  assert (wf r1) as Hwf1 by (by apply (same_slots_wf r)).
  destruct (Rem_inv _ _ _ _ Hwf1 Hrem) as (n & Hf & Hv).
  destruct (Rem_ok _ _ _ _ Hwf1 Hf Hv) as (r2' & Hrem' & Hwf2 & Hrep & _).
  rewrite Hrem in Hrem'. injection Hrem' as <-.
  assert (∃ ts', RemoveNode_loop c nodeID rest ts' r2 = (r', Ok ts)) as [ts' Hrun'].
  { destruct (size datas =? 0)%nat; eauto. }
  destruct (IH _ _ Hwf2 Hrun') as (H1 & H2 & H3).
  split; [done|]. split.
  { rewrite H2, Hrep. by destruct Hs as (_ & _ & _ & <-). }
  intros sc v. rewrite H3, (Rem_in_slot r1 r2 _ _ sc v Hwf1 Hrem).
  rewrite <- (same_slots_in_slot r r1 sc v Hs). split.
  - intros [[Hin Hne] Hrest]. split; [done|]. intros (j & Hj & -> & ->).
    apply elem_of_cons in Hj as [->|Hj]; [by apply Hne|].
    apply Hrest. eauto.
  - intros [Hin Hnot]. split; [split; [done|]|].
    + intros [-> ->]. apply Hnot. exists i. split; [left|done].
    + intros (j & Hj & -> & ->). apply Hnot. exists j. split; [by right|done].
Qed.

(** *** Taking and releasing the lock around an operation *)

Lemma same_data_wf r r' : same_data r r' → wf r → wf r'.
Proof.
  intros (Hr & Hc & _) [H1 H2 H3 H4].
  constructor; rewrite <- ?Hc, <- ?Hr; done.
Qed.

Lemma same_data_in_slot r r' sc v :
  same_data r r' → in_slot r sc v ↔ in_slot r' sc v.
Proof. intros (_ & Hc & _). unfold in_slot. by rewrite Hc. Qed.

Global Instance same_data_equiv : Equivalence same_data.
Proof.
  split.
  - by intros r.
  - intros r1 r2 (?&?&?&?). by repeat split.
  - intros r1 r2 r3 (?&?&?&?) (?&?&?&?). repeat split; congruence.
Qed.

Lemma locked_blocked {A : Type} c pid g (body : M A) r :
  lock (lockEntity r) = true → locked c pid g body r = (r, Hang).
Proof. intros H. unfold locked, Lock. by rewrite H. Qed.

Lemma locked_spec {A : Type} c pid g (body : M A) r :
  preserves same_lock body → lock (lockEntity r) = false →
  ∃ r1, same_data r r1 ∧
    locked c pid g body r =
      (set_lock (fst (body r1)) (MkLock false "" None), snd (body r1)).
Proof.
  intros Hb Hfree. unfold locked, Lock. rewrite Hfree.
  set (token := GetCurrentProcessAndGogroutineIDStr pid g).
  assert (∀ t, let r1 := set_lock r (MkLock true token t) in
            (let '(ring2, res) := body r1 in
             match unlock token ring2 with
             | (ring3, Panic) => (ring3, Panic)
             | (ring3, _) => (ring3, res)
             end) = (set_lock (fst (body r1)) (MkLock false "" None), snd (body r1)))
    as Hrun.
  { intros t r1. specialize (Hb r1). destruct (body r1) as [r2 res]. simpl in *.
    unfold unlock. rewrite <- Hb. simpl. by rewrite String.eqb_refl. }
  destruct (lockExpireSeconds (opts c) <=? 0); eexists; (split; [|apply Hrun]); done.
Qed.

(** The operations leave the lock to [Lock] and [Unlock]. *)
Lemma AddNode_loop_lock c nodeID rolls indices tasks :
  preserves same_lock (AddNode_loop c nodeID rolls indices tasks).
Proof.
  revert tasks. induction indices as [|i rest IH]; intros tasks; simpl.
  { apply preserves_ret; apply _. }
  apply preserves_bind; [apply _| |intros _].
  { apply preserves_update. intros r. apply Add_lock. }
  apply preserves_bind; [apply _| |intros [[from to] datas]].
  { eapply preserves_weaken; [apply same_slots_lock|apply migrateIn_slots]. }
  destruct (size datas =? 0)%nat; apply IH.
Qed.

Lemma AddNode_locked_lock c nodeID weight rolls :
  preserves same_lock (AddNode_locked c nodeID weight rolls).
Proof.
  unfold AddNode_locked.
  apply preserves_bind; [apply _|apply preserves_call; apply _|intros nodes].
  destruct (nodes !! nodeID); [apply preserves_fail; apply _|].
  apply preserves_bind; [apply _| |intros _].
  { by apply preserves_update. }
  apply AddNode_loop_lock.
Qed.

Lemma RemoveNode_loop_lock c nodeID indices tasks :
  preserves same_lock (RemoveNode_loop c nodeID indices tasks).
Proof.
  revert tasks. induction indices as [|i rest IH]; intros tasks; simpl.
  { apply preserves_ret; apply _. }
  apply preserves_bind; [apply _| |intros [[from to] datas]].
  { eapply preserves_weaken; [apply same_slots_lock|apply migrateOut_slots]. }
  apply preserves_bind; [apply _| |intros _].
  { apply preserves_attempt. intros r. apply Rem_lock. }
  destruct (size datas =? 0)%nat; apply IH.
Qed.

Lemma RemoveNode_locked_lock c nodeID :
  preserves same_lock (RemoveNode_locked c nodeID).
Proof.
  unfold RemoveNode_locked.
  apply preserves_bind; [apply _|apply preserves_call; apply _|intros nodes].
  destruct (nodes !! nodeID); [|apply preserves_fail; apply _].
  apply preserves_bind; [apply _| |intros _].
  { by apply preserves_update. }
  apply RemoveNode_loop_lock.
Qed.

Lemma GetNode_locked_slots c dataKey :
  preserves same_slots (GetNode_locked c dataKey).
Proof.
  unfold GetNode_locked.
  apply preserves_bind; [apply _|apply preserves_call; apply _|intros cs].
  destruct (cs =? -1); [apply preserves_fail; apply _|].
  apply preserves_bind; [apply _|apply preserves_call; apply _|intros nodes].
  destruct nodes as [|node0 rest]; [apply preserves_fail; apply _|].
  apply preserves_bind; [apply _|apply preserves_call; apply _|intros owner0].
  apply preserves_bind; [apply _| |intros _].
  { by apply preserves_update. }
  apply preserves_ret; apply _.
Qed.

(** An operation that returns ran its body on the ring it was given, up
    to the lock. *)
Lemma locked_cases {A : Type} c pid g (body : M A) r :
  preserves same_lock body →
  (lock (lockEntity r) = true ∧ locked c pid g body r = (r, Hang)) ∨
  (lock (lockEntity r) = false ∧
   ∃ r1, same_data r r1 ∧
     same_data (fst (body r1)) (fst (locked c pid g body r)) ∧
     lock (lockEntity (fst (locked c pid g body r))) = false ∧
     snd (locked c pid g body r) = snd (body r1)).
Proof.
  intros Hb. destruct (lock (lockEntity r)) eqn:E.
  - left. split; [done|]. by apply locked_blocked.
  - right. split; [done|].
    destruct (locked_spec c pid g body r Hb E) as (r1 & Hd & ->).
    exists r1. done.
Qed.

(** *** The invariants through the operations *)

Lemma same_data_sound c r r' : same_data r r' → vkeys_sound c r → vkeys_sound c r'.
Proof.
  intros Hd Hs sc v Hin. apply (same_data_in_slot r r' sc v Hd) in Hin.
  destruct Hd as (_ & _ & <- & _). by apply Hs.
Qed.

Lemma same_data_complete c r r' :
  same_data r r' → vkeys_complete c r → vkeys_complete c r'.
Proof.
  intros Hd Hc n R i Hn Hi. apply (same_data_in_slot r r' _ _ Hd).
  destruct Hd as (_ & _ & Hrep & _). rewrite <- Hrep in Hn. by eapply Hc.
Qed.

Lemma same_slots_data_sound c r r' :
  same_slots r r' → vkeys_sound c r → vkeys_sound c r'.
Proof.
  intros Hd Hs sc v Hin. apply (same_slots_in_slot r r' sc v Hd) in Hin.
  destruct Hd as (_ & _ & _ & <-). by apply Hs.
Qed.

Lemma same_slots_complete c r r' :
  same_slots r r' → vkeys_complete c r → vkeys_complete c r'.
Proof.
  intros Hd Hc n R i Hn Hi. apply (same_slots_in_slot r r' _ _ Hd).
  destruct Hd as (_ & _ & _ & Hrep). rewrite <- Hrep in Hn. by eapply Hc.
Qed.

Lemma New_wf : wf NewSkiplistHashRing.
Proof. constructor; simpl; [constructor|constructor|constructor|done]. Qed.

Lemma New_sound c : vkeys_sound c NewSkiplistHashRing.
Proof. intros sc v (n & Hn & _). done. Qed.

Lemma New_Inv c : Inv c NewSkiplistHashRing.
Proof.
  split; [apply New_wf|apply New_sound| |done].
  intros n R i Hn. done.
Qed.

Lemma AddNode_locked_sound c nodeID weight rolls r :
  wf r → vkeys_sound c r →
  let r' := fst (AddNode_locked c nodeID weight rolls r) in
  wf r' ∧ vkeys_sound c r'.
Proof.
  intros Hwf Hs. unfold AddNode_locked. rewrite bind_unfold. simpl.
  unfold Nodes. destruct (nodeToReplicas r !! nodeID) as [R0|] eqn:En; [done|].
  rewrite bind_unfold. simpl.
  set (R := wrap64 (getValidWeight weight * replicas (opts c))).
  set (r1 := AddNodeToReplica nodeID R r).
  assert (wf r1) as Hwf1 by (by destruct Hwf).
  destruct (AddNode_loop_spec c nodeID rolls (seq 0 (Z.to_nat R)) [] r1 Hwf1)
    as (H1 & H2 & _ & _ & H5).
  split; [done|]. intros sc v Hin. rewrite H2. simpl.
  apply H5 in Hin as [Hin|(i & Hi & -> & ->)].
  - destruct (Hs sc v Hin) as (n & i & Rn & -> & Hn & Hi & ->).
    exists n, i, Rn. split; [done|]. split; [|done].
    rewrite lookup_insert_ne; [done|]. intros <-. congruence.
  - exists nodeID, i, R. split; [done|]. split; [apply lookup_insert_eq|].
    split; [|done]. apply elem_of_seq in Hi. lia.
Qed.

Lemma AddNode_locked_Ok c nodeID weight rolls r r' ts :
  wf r → vkeys_complete c r →
  AddNode_locked c nodeID weight rolls r = (r', Ok ts) →
  vkeys_complete c r' ∧ nodeToReplicas r !! nodeID = None ∧
  nodeToReplicas r' =
    <[nodeID := wrap64 (getValidWeight weight * replicas (opts c))]>
      (nodeToReplicas r).
Proof.
  intros Hwf Hc. unfold AddNode_locked. rewrite bind_unfold. simpl.
  unfold Nodes. destruct (nodeToReplicas r !! nodeID) as [R0|] eqn:En; [done|].
  rewrite bind_unfold. simpl.
  set (R := wrap64 (getValidWeight weight * replicas (opts c))).
  set (r1 := AddNodeToReplica nodeID R r). intros Hrun.
  assert (wf r1) as Hwf1 by (by destruct Hwf).
  pose proof (AddNode_loop_spec c nodeID rolls (seq 0 (Z.to_nat R)) [] r1 Hwf1) as Hsp.
  rewrite Hrun in Hsp. simpl in Hsp. destruct Hsp as (H1 & H2 & _ & H4 & _).
  split; [|done]. intros n Rn i Hn Hi. rewrite H2 in Hn. simpl in Hn.
  destruct (decide (nodeID = n)) as [<-|Hne].
  - rewrite lookup_insert_eq in Hn. injection Hn as <-.
    eapply AddNode_loop_Ok; [exact Hwf1|exact Hrun|]. apply elem_of_seq. lia.
  - rewrite lookup_insert_ne in Hn by done. apply H4. by apply (Hc n Rn i).
Qed.

Lemma RemoveNode_locked_Ok c nodeID r r' ts :
  wf r → vkeys_sound c r →
  RemoveNode_locked c nodeID r = (r', Ok ts) →
  wf r' ∧ vkeys_sound c r' ∧ (vkeys_complete c r → vkeys_complete c r') ∧
  nodeToReplicas r' = delete nodeID (nodeToReplicas r).
Proof.
  intros Hwf Hs. unfold RemoveNode_locked. rewrite bind_unfold. simpl.
  unfold Nodes. destruct (nodeToReplicas r !! nodeID) as [R|] eqn:En; [|done].
  rewrite bind_unfold. simpl. intros Hrun.
  set (r1 := DeleteNodeToReplica nodeID r) in *.
  assert (wf r1) as Hwf1 by (by destruct Hwf).
  destruct (RemoveNode_loop_Ok _ _ _ _ _ _ _ Hwf1 Hrun) as (H1 & H2 & H3).
  split; [done|]. split; [|split; [|done]].
  - intros sc v Hin. apply H3 in Hin as [Hin Hnot].
    destruct (Hs sc v Hin) as (n & i & Rn & -> & Hn & Hi & ->).
    exists n, i, Rn. split; [done|]. split; [|done].
    rewrite H2. simpl. rewrite lookup_delete_ne; [done|]. intros <-.
    apply Hnot. exists i. split; [|done]. apply elem_of_seq.
    assert (R = Rn) by congruence. lia.
  - intros Hc n Rn i Hn Hi. rewrite H2 in Hn. simpl in Hn.
    apply lookup_delete_Some in Hn as [Hne Hn].
    apply H3. split; [by apply (Hc n Rn i)|].
    intros (j & _ & He & _). apply getRawNodeKey_inj in He as [? _]. done.
Qed.

Lemma AddNode_Inv c pid g nodeID weight rolls r r' ts :
  Inv c r → AddNode c pid g nodeID weight rolls r = (r', Ok ts) → Inv c r'.
Proof.
  intros [Hwf Hs Hc Hf] Hrun. unfold AddNode in Hrun.
  destruct (locked_cases c pid g (AddNode_locked c nodeID weight rolls) r
              (AddNode_locked_lock _ _ _ _))
    as [[_ Hb]|(_ & r1 & Hd & Hd' & Hfree & Hres)]; [congruence|].
  rewrite Hrun in Hd', Hfree, Hres. simpl in *.
  destruct (AddNode_locked c nodeID weight rolls r1) as [r2 res] eqn:E.
  simpl in *. subst res.
  pose proof (same_data_wf _ _ Hd Hwf) as Hwf1.
  pose proof (AddNode_locked_sound c nodeID weight rolls r1 Hwf1
                (same_data_sound _ _ _ Hd Hs)) as Hsp.
  rewrite E in Hsp. destruct Hsp as [Hwf2 Hs2].
  destruct (AddNode_locked_Ok _ _ _ _ _ _ _ Hwf1 (same_data_complete _ _ _ Hd Hc) E)
    as (Hc2 & _).
  split; [by eapply same_data_wf|by eapply same_data_sound|
          by eapply same_data_complete|done].
Qed.

Lemma RemoveNode_Inv c pid g nodeID r r' ts :
  Inv c r → RemoveNode c pid g nodeID r = (r', Ok ts) → Inv c r'.
Proof.
  intros [Hwf Hs Hc Hf] Hrun. unfold RemoveNode in Hrun.
  destruct (locked_cases c pid g (RemoveNode_locked c nodeID) r
              (RemoveNode_locked_lock _ _))
    as [[_ Hb]|(_ & r1 & Hd & Hd' & Hfree & Hres)]; [congruence|].
  rewrite Hrun in Hd', Hfree, Hres. simpl in *.
  destruct (RemoveNode_locked c nodeID r1) as [r2 res] eqn:E.
  simpl in *. subst res.
  pose proof (same_data_wf _ _ Hd Hwf) as Hwf1.
  destruct (RemoveNode_locked_Ok _ _ _ _ _ Hwf1 (same_data_sound _ _ _ Hd Hs) E)
    as (Hwf2 & Hs2 & Hc2 & _).
  split; [by eapply same_data_wf|by eapply same_data_sound| |done].
  eapply same_data_complete; [done|]. apply Hc2. by eapply same_data_complete.
Qed.

Lemma GetNode_Inv c pid g dataKey r :
  Inv c r → Inv c (fst (GetNode c pid g dataKey r)).
Proof.
  intros [Hwf Hs Hc Hf]. unfold GetNode.
  destruct (locked_cases c pid g (GetNode_locked c dataKey) r)
    as [[_ ->]|(_ & r1 & Hd & Hd' & Hfree & Hres)]; [|done|].
  { eapply preserves_weaken; [apply same_slots_lock|apply GetNode_locked_slots]. }
  pose proof (GetNode_locked_slots c dataKey r1) as Hsl.
  pose proof (same_data_wf _ _ Hd Hwf) as Hwf1.
  split; [|
    eapply same_data_sound; [done|]; eapply same_slots_data_sound; [done|];
      by eapply same_data_sound|
    eapply same_data_complete; [done|]; eapply same_slots_complete; [done|];
      by eapply same_data_complete|done].
  eapply same_data_wf; [done|]. by eapply same_slots_wf.
Qed.

(** *** C2: the keys in the slots decode to nodes of the ring *)

Lemma sound_decodes c r : vkeys_sound c r → decodes r.
Proof.
  intros Hs sc v Hin. destruct (Hs sc v Hin) as (n & i & R & -> & Hn & _).
  exists n. split; [apply getNodeID_getRawNodeKey|eauto].
Qed.

Lemma AddNode_sound c pid g nodeID weight rolls r :
  wf r → vkeys_sound c r →
  let r' := fst (AddNode c pid g nodeID weight rolls r) in
  wf r' ∧ vkeys_sound c r'.
Proof.
  intros Hwf Hs. unfold AddNode.
  destruct (locked_cases c pid g (AddNode_locked c nodeID weight rolls) r
              (AddNode_locked_lock _ _ _ _))
    as [[_ ->]|(_ & r1 & Hd & Hd' & _)]; [done|].
  pose proof (same_data_wf _ _ Hd Hwf) as Hwf1.
  destruct (AddNode_locked_sound c nodeID weight rolls r1 Hwf1
              (same_data_sound _ _ _ Hd Hs)) as [Hwf2 Hs2].
  split; [by eapply same_data_wf|by eapply same_data_sound].
Qed.

Lemma RemoveNode_sound c pid g nodeID r r' ts :
  wf r → vkeys_sound c r →
  RemoveNode c pid g nodeID r = (r', Ok ts) →
  wf r' ∧ vkeys_sound c r'.
Proof.
  intros Hwf Hs Hrun. unfold RemoveNode in Hrun.
  destruct (locked_cases c pid g (RemoveNode_locked c nodeID) r
              (RemoveNode_locked_lock _ _))
    as [[_ Hb]|(_ & r1 & Hd & Hd' & _ & Hres)]; [congruence|].
  rewrite Hrun in Hd', Hres. simpl in *.
  destruct (RemoveNode_locked c nodeID r1) as [r2 res] eqn:E.
  simpl in *. subst res.
  pose proof (same_data_wf _ _ Hd Hwf) as Hwf1.
  destruct (RemoveNode_locked_Ok _ _ _ _ _ Hwf1 (same_data_sound _ _ _ Hd Hs) E)
    as (Hwf2 & Hs2 & _).
  split; [by eapply same_data_wf|by eapply same_data_sound].
Qed.

Lemma RemoveNode_unknown c pid g nodeID r :
  nodeToReplicas r !! nodeID = None →
  same_data r (fst (RemoveNode c pid g nodeID r)).
Proof.
  intros Hn. unfold RemoveNode.
  destruct (locked_cases c pid g (RemoveNode_locked c nodeID) r
              (RemoveNode_locked_lock _ _))
    as [[_ ->]|(_ & r1 & Hd & Hd' & _)]; [done|].
  etrans; [exact Hd|]. etrans; [|exact Hd'].
  unfold RemoveNode_locked. rewrite bind_unfold. simpl. unfold Nodes.
  destruct Hd as (_ & _ & <- & _). by rewrite Hn.
Qed.

Lemma GetNode_data c pid g dataKey r :
  wf r → vkeys_sound c r →
  let r' := fst (GetNode c pid g dataKey r) in wf r' ∧ vkeys_sound c r'.
Proof.
  intros Hwf Hs. unfold GetNode.
  destruct (locked_cases c pid g (GetNode_locked c dataKey) r)
    as [[_ ->]|(_ & r1 & Hd & Hd' & _)]; [|done|].
  { eapply preserves_weaken; [apply same_slots_lock|apply GetNode_locked_slots]. }
  pose proof (GetNode_locked_slots c dataKey r1) as Hsl.
  split.
  - eapply same_data_wf; [done|]. eapply same_slots_wf; [done|].
    by eapply same_data_wf.
  - eapply same_data_sound; [done|]. eapply same_slots_data_sound; [done|].
    by eapply same_data_sound.
Qed.

Lemma reachable_sound c r : reachable c r → wf r ∧ vkeys_sound c r.
Proof.
  induction 1 as [|r r' pid g n w rolls ts _ [Hwf Hs] Hrun
                  |r r' pid g n w rolls e _ [Hwf Hs] Hrun
                  |r r' pid g n ts _ [Hwf Hs] Hrun
                  |r r' pid g n res _ [Hwf Hs] Hn Hrun
                  |r r' pid g k v _ [Hwf Hs] Hrun
                  |r r' pid g k e _ [Hwf Hs] Hrun].
  - split; [apply New_wf|apply New_sound].
  - pose proof (AddNode_sound c pid g n w rolls r Hwf Hs) as H.
    by rewrite Hrun in H.
  - pose proof (AddNode_sound c pid g n w rolls r Hwf Hs) as H.
    by rewrite Hrun in H.
  - by eapply RemoveNode_sound.
  - pose proof (RemoveNode_unknown c pid g n r Hn) as Hd.
    rewrite Hrun in Hd. simpl in Hd.
    split; [by eapply same_data_wf|by eapply same_data_sound].
  - pose proof (GetNode_data c pid g k r Hwf Hs) as H. by rewrite Hrun in H.
  - pose proof (GetNode_data c pid g k r Hwf Hs) as H. by rewrite Hrun in H.
Qed.

(** C2, as the code has it. Starting from a new ring, after every public
    operation that returned ([AddNode] and [GetNode] with or without an
    error, [RemoveNode] without an error or rejected because the node is
    unknown), every virtual-node key stored in a slot decodes to a node ID
    that is present in [nodeToReplicas]. *)
Theorem reachable_decodes c r : reachable c r → decodes r.
Proof. intros H. apply (sound_decodes c). by apply reachable_sound. Qed.

Lemma sole_ring_d_reachable : reachable wrap_engine sole_ring_d.
Proof.
  eapply (reach_GetNode _ sole_ring_A _ 1 "7" "d" "A_0").
  - eapply (reach_AddNode _ NewSkiplistHashRing _ 1 "7" "A" 1 no_rolls []).
    + apply reach_new.
    + by vm_compute.
  - by vm_compute.
Qed.

Lemma reachable_decodes_witness :
  reachable wrap_engine sole_ring_d ∧ decodes sole_ring_d.
Proof.
  split; [apply sole_ring_d_reachable|].
  apply (reachable_decodes wrap_engine sole_ring_d), sole_ring_d_reachable.
Defined.

(** C2, as the specification has it, fails: [RemoveNode] of the only node,
    which holds a data key, returns an error after it has deleted the node
    from [nodeToReplicas], and leaves the virtual-node key of the node in
    its slot. *)
Lemma RemoveNode_error_breaks_decodes :
  RemoveNode wrap_engine 1 "7" "A" sole_ring_d
    = (sole_ring_removed, Err "no other no") ∧
  reachable wrap_engine sole_ring_d ∧
  ¬ decodes sole_ring_removed.
Proof.
  split; [by vm_compute|]. split; [apply sole_ring_d_reachable|].
  intros H. destruct (H 10 "A_0") as (n & Hn & Hsome).
  - eexists. split; [by vm_compute|]. simpl. left.
  - vm_compute in Hn. injection Hn as <-.
    vm_compute in Hsome. by destruct Hsome.
Qed.

(** *** C8: what [GetNode] returns and what it registers *)

Lemma Ceiling_same_data r r' sc : same_data r r' → Ceiling r sc = Ceiling r' sc.
Proof.
  intros (Hr & Hc & _). unfold Ceiling, ceiling, first, at_root.
  by rewrite Hr, Hc.
Qed.

Lemma Floor_same_data r r' sc : same_data r r' → Floor r sc = Floor r' sc.
Proof.
  intros (Hr & Hc & _). unfold Floor, floor, last, at_root.
  by rewrite Hr, Hc.
Qed.

Lemma Node_same_data r r' sc : same_data r r' → Node r sc = Node r' sc.
Proof.
  intros (Hr & Hc & _). unfold Node, get, at_root. by rewrite Hr, Hc.
Qed.



(** *** C9: without a migrator *)

Lemma in_slot_chain r r' sc v :
  chain r = chain r' → in_slot r sc v ↔ in_slot r' sc v.
Proof. intros Hc. unfold in_slot. by rewrite Hc. Qed.

Lemma RemoveNode_loop_nil c nodeID indices tasks r :
  migrator c = false → wf r → NoDup indices →
  (∀ i, i ∈ indices → in_slot r (encryptor c (vkey nodeID i)) (vkey nodeID i)) →
  ∃ r', RemoveNode_loop c nodeID indices tasks r = (r', Ok tasks) ∧
    ∀ k, (∀ i, i ∈ indices → k ≠ vkey nodeID i) →
         nodeToDataKey r' !! k = nodeToDataKey r !! k.
Proof.
  intros Hnil. revert r.
  induction indices as [|i rest IH]; intros r Hwf Hnd Hin; simpl.
  { exists r. done. }
  apply NoDup_cons in Hnd as [Hi Hnd].
  unfold migrateOut. rewrite Hnil. simpl. rewrite bind_unfold. simpl.
  rewrite bind_unfold.
  destruct (Hin i) as (n & Hf & Hv); [left|].
  destruct (Rem_ok _ _ _ _ Hwf Hf Hv) as (r2 & HR & Hwf2 & _ & Hdk & _).
  unfold attempt. fold (vkey nodeID i). rewrite HR.
  destruct (IH r2 Hwf2 Hnd) as (r' & Hrun & Hkeys).
  { intros j Hj. apply (Rem_in_slot r r2 _ _ _ _ Hwf HR). split.
    - apply Hin. by right.
    - intros [_ He]. apply getRawNodeKey_inj in He as [_ ->]. done. }
  exists r'. split; [done|]. intros k Hk. rewrite Hkeys.
  - rewrite Hdk. apply lookup_delete_ne. intros <-. by apply (Hk i); [left|].
  - intros j Hj. apply Hk. by right.
Qed.

Lemma wf_no_slot_empty r :
  wf r → (∀ sc v, ¬ in_slot r sc v) → chain r = [].
Proof.
  intros [_ _ Hi _] Hno. destruct (chain r) as [|x tl] eqn:E; [done|].
  apply Forall_cons in Hi as [[Hne _] _].
  destruct (nodeIDs x) as [|v ids] eqn:Ev; [done|].
  exfalso. apply (Hno (score x) v). exists x. split.
  - rewrite E. simpl. by rewrite Z.eqb_refl.
  - rewrite Ev. left.
Qed.

(** C9. Without a migrator, [migrateIn] and [migrateOut] return at once:
    no migration set, no error, the ring untouched.  [RemoveNode] of a node
    of the ring then succeeds whatever data keys the node holds, hands no
    task to the migrator and leaves the node's data keys registered under
    its ID; when the node was the only one the ring is left without
    slots and without nodes. *)
Theorem RemoveNode_nil_migrator c :
  migrator c = false →
  (∀ vs nodeID r, migrateIn c vs nodeID r = (r, Ok ("", "", ∅))) ∧
  (∀ vs nodeID r, migrateOut c vs nodeID r = (r, Ok ("", "", ∅))) ∧
  (∀ pid g nodeID R r,
     Inv c r → nodeToReplicas r !! nodeID = Some R →
     ∃ r', RemoveNode c pid g nodeID r = (r', Ok []) ∧
       nodeToReplicas r' = delete nodeID (nodeToReplicas r) ∧
       nodeToDataKey r' !! nodeID = nodeToDataKey r !! nodeID ∧
       (nodeToReplicas r = {[nodeID := R]} →
          nodeToReplicas r' = ∅ ∧ chain r' = [])).
Proof.
  intros Hnil.
  split; [by intros vs n r; unfold migrateIn; rewrite Hnil|].
  split; [by intros vs n r; unfold migrateOut; rewrite Hnil|].
  intros pid g n R r HInv Hn. pose proof HInv as [Hwf Hs Hc Hfree].
  destruct (locked_spec c pid g (RemoveNode_locked c n) r
              (RemoveNode_locked_lock _ _) Hfree) as (r1 & Hd & Hrun).
  pose proof (same_data_wf _ _ Hd Hwf) as Hwf1.
  pose proof Hd as (_ & _ & Hrep & Hkeys).
  assert (∃ r2, RemoveNode_locked c n r1 = (r2, Ok []) ∧
                nodeToDataKey r2 !! n = nodeToDataKey r !! n) as (r2 & Hbody & Hk2).
  { unfold RemoveNode_locked. rewrite bind_unfold. simpl. unfold Nodes.
    rewrite <- Hrep, Hn. rewrite bind_unfold. simpl.
    destruct (RemoveNode_loop_nil c n (seq 0 (Z.to_nat R)) []
                (DeleteNodeToReplica n r1) Hnil) as (r2 & Hloop & Hkeys2).
    - by destruct Hwf1.
    - apply NoDup_seq.
    - intros i Hi. apply elem_of_seq in Hi.
      apply (in_slot_chain r (DeleteNodeToReplica n r1)); [apply Hd|].
      apply (Hc n R i Hn). lia.
    - exists r2. split; [done|]. rewrite Hkeys2; [simpl; by rewrite Hkeys|].
      intros i _ He. symmetry in He. by apply getRawNodeKey_ne in He. }
  unfold RemoveNode. rewrite Hrun, Hbody. simpl.
  eexists. split; [done|]. simpl.
  destruct (RemoveNode_locked_Ok _ _ _ _ _ Hwf1 (same_data_sound _ _ _ Hd Hs) Hbody)
    as (Hwf2 & Hs2 & _ & Hrep2).
  split; [by rewrite Hrep2, Hrep|]. split; [done|].
  intros Hsole. rewrite Hrep2, <- Hrep, Hsole.
  split; [apply delete_singleton_eq|].
  apply wf_no_slot_empty; [done|].
  intros sc v Hin. destruct (Hs2 sc v Hin) as (n' & i & R' & _ & Hn' & _).
  rewrite Hrep2, <- Hrep, Hsole, delete_singleton_eq in Hn'. done.
Qed.

Lemma plain_ring_d_Inv : Inv plain_engine plain_ring_d.
Proof.
  apply GetNode_Inv.
  eapply (AddNode_Inv _ 1 "7" "A" 1 no_rolls NewSkiplistHashRing _ []).
  - apply New_Inv.
  - by vm_compute.
Qed.

Lemma RemoveNode_nil_migrator_witness :
  migrator plain_engine = false ∧ Inv plain_engine plain_ring_d ∧
  nodeToReplicas plain_ring_d = {["A" := 5]} ∧
  DataKeys plain_ring_d "A" = Some {["d"]} ∧
  ∃ r', RemoveNode plain_engine 1 "7" "A" plain_ring_d = (r', Ok []) ∧
    nodeToReplicas r' = delete "A" (nodeToReplicas plain_ring_d) ∧
    nodeToDataKey r' !! "A" = nodeToDataKey plain_ring_d !! "A" ∧
    (nodeToReplicas plain_ring_d = {["A" := 5]} →
       nodeToReplicas r' = ∅ ∧ chain r' = []).
Proof.
  split; [done|]. split; [apply plain_ring_d_Inv|].
  assert (nodeToReplicas plain_ring_d !! "A" = Some 5) as Hn by (by vm_compute).
  split; [by vm_compute|]. split; [by vm_compute|].
  exact (proj2 (proj2 (RemoveNode_nil_migrator plain_engine eq_refl))
           1 "7" "A" 5 plain_ring_d plain_ring_d_Inv Hn).
Defined.

(** *** C1: the score-wrap scenario *)

(** C1, as the code has it. With [A_0] at 10, [B_0] at [M - 10] and the data
    key [d] at 5, [GetNode d] returns [A_0], the ceiling of 5, and registers
    [d] under [A].  When [AddNode] then inserts [X_0] at 3, [migrateIn]
    selects no key, since 5 does not lie in the arc that ends at 3: no
    migration task is made and [d] stays registered under [A].  Had the new
    virtual node been placed at 7, between [d] and [A_0], [d] would have
    moved from [A] to the new node. *)
Theorem score_wrap_scenario :
  wrap_hasher "A_0" = 10 ∧ wrap_hasher "B_0" = MaxInt32 - 10 ∧
  wrap_hasher "d" = 5 ∧ wrap_hasher "X_0" = 3 ∧ wrap_hasher "Y_0" = 7 ∧
  scores wrap_ring_AB = [10; MaxInt32 - 10] ∧
  Ceiling wrap_ring_AB 5 = Ok 10 ∧
  GetNode wrap_engine 1 "7" "d" wrap_ring_AB = (wrap_ring_d, Ok "A_0") ∧
  DataKeys wrap_ring_d "A" = Some {["d"]} ∧
  snd (migrateIn wrap_engine 3 "X" wrap_ring_X_added) = Ok ("A", "X", ∅) ∧
  AddNode wrap_engine 1 "7" "X" 1 no_rolls wrap_ring_d = (wrap_ring_X, Ok []) ∧
  scores wrap_ring_X = [3; 10; MaxInt32 - 10] ∧
  DataKeys wrap_ring_X "A" = Some {["d"]} ∧
  keys_of (DataKeys wrap_ring_X "X") = ∅ ∧
  AddNode wrap_engine 1 "7" "Y" 1 no_rolls wrap_ring_d
    = (wrap_ring_Y, Ok [Task "A" "Y" {["d"]}]) ∧
  DataKeys wrap_ring_Y "Y" = Some {["d"]} ∧
  DataKeys wrap_ring_Y "A" = None.
Proof. repeat apply conj; by vm_compute. Qed.

(** C1, as the specification has it, fails: inserting [X_0] at 3 moves
    nothing, [d] is not handed to the migrator and is not registered under
    [X]. *)
Lemma score_wrap_no_migration :
  ¬ (∃ r' tasks,
       AddNode wrap_engine 1 "7" "X" 1 no_rolls wrap_ring_d = (r', Ok tasks) ∧
       (Task "A" "X" {["d"]} ∈ tasks ∨ "d" ∈ keys_of (DataKeys r' "X"))).
Proof.
  intros (r' & tasks & Hrun & H).
  assert (r' = wrap_ring_X) as ->.
  { change r' with (fst (r', Ok tasks)). rewrite <- Hrun. by unfold wrap_ring_X. }
  assert (Ok tasks = Ok []) as Ht.
  { change (Ok tasks) with (snd (wrap_ring_X, Ok tasks)). rewrite <- Hrun.
    by vm_compute. }
  injection Ht as ->.
  destruct H as [H|H].
  - by apply elem_of_nil in H.
  - assert (keys_of (DataKeys wrap_ring_X "X") = ∅) as He by (by vm_compute).
    rewrite He in H. by apply not_elem_of_empty in H.
Qed.

(** *** C3: removing the only node while it holds data *)

(** C3 at its failing input. With one virtual node, [RemoveNode] of the only
    node, which holds a data key, fails in [migrateOut] with the message
    "no other no"; the message "no other node" is returned on the other
    path, when the node has further slots. *)
Theorem RemoveNode_sole_node_error :
  migrator wrap_engine = true ∧
  nodeToReplicas sole_ring_d = {["A" := 1]} ∧
  DataKeys sole_ring_d "A" = Some {["d"]} ∧
  snd (RemoveNode wrap_engine 1 "7" "A" sole_ring_d) = Err "no other no" ∧
  snd (RemoveNode wrap_engine 1 "7" "A" sole_ring_d) ≠ Err "no other node" ∧
  migrator spread_engine = true ∧
  nodeToReplicas spread_ring_d = {["A" := 5]} ∧
  DataKeys spread_ring_d "A" = Some {["d"]} ∧
  snd (RemoveNode spread_engine 1 "7" "A" spread_ring_d) = Err "no other node".
Proof. repeat apply conj; by vm_compute. Qed.

(** *** C6: [AddNode] followed by [RemoveNode] *)

(** A sorted chain is determined by the slots found in it. *)
Lemma chain_ext ch1 ch2 :
  StronglySorted score_lt ch1 → StronglySorted score_lt ch2 →
  (∀ sc, find_node ch1 sc = find_node ch2 sc) → ch1 = ch2.
Proof.
  intros Hs1. revert ch2. induction ch1 as [|x t1 IH]; intros ch2 Hs2 He.
  - destruct ch2 as [|y t2]; [done|].
    specialize (He (score y)). simpl in He. by rewrite Z.eqb_refl in He.
  - destruct ch2 as [|y t2].
    { specialize (He (score x)). simpl in He. by rewrite Z.eqb_refl in He. }
    pose proof Hs1 as Hs1'. pose proof Hs2 as Hs2'.
    apply StronglySorted_cons in Hs1 as [Hx Hs1].
    apply StronglySorted_cons in Hs2 as [Hy Hs2].
    assert (x = y) as ->.
    { pose proof (He (score x)) as H1. pose proof (He (score y)) as H2.
      simpl in H1, H2. rewrite Z.eqb_refl in H1, H2.
      destruct (Z.eqb_spec (score y) (score x)) as [Heq|Hne]; [congruence|].
      destruct (Z.eqb_spec (score x) (score y)) as [Heq|Hne']; [congruence|].
      symmetry in H1. apply (find_node_Some _ _ _ Hs2) in H1 as [H1 _].
      apply (find_node_Some _ _ _ Hs1) in H2 as [H2 _].
      rewrite Forall_forall in Hx, Hy.
      specialize (Hx _ H2). specialize (Hy _ H1). unfold score_lt in *. lia. }
    f_equal. apply IH; [done|done|]. intros sc. specialize (He sc). simpl in He.
    destruct (Z.eqb_spec (score y) sc) as [Heq|Hne]; [|done].
    rewrite <- Heq. by rewrite !find_node_above.
Qed.

Section slot.
Context (c : ConsistentHash) (nodeID : string) (rolls : nat → nat) (sc : Z).

Lemma pending_cons i rest :
  pending c nodeID sc (i :: rest) =
    if encryptor c (vkey nodeID i) =? sc
    then vkey nodeID i :: pending c nodeID sc rest
    else pending c nodeID sc rest.
Proof.
  unfold pending. rewrite filter_cons.
  destruct (Z.eqb_spec (encryptor c (vkey nodeID i)) sc);
    destruct (decide _); done.
Qed.

Lemma elem_of_pending v indices :
  v ∈ pending c nodeID sc indices → ∃ i, i ∈ indices ∧ v = vkey nodeID i.
Proof.
  unfold pending. intros H. apply list_elem_of_fmap in H as (i & -> & Hi).
  apply list_elem_of_filter in Hi as [_ Hi]. eauto.
Qed.

Lemma NoDup_pending indices : NoDup indices → NoDup (pending c nodeID sc indices).
Proof.
  intros Hnd. unfold pending. apply NoDup_fmap_2_strong.
  - intros i j _ _ He. by apply getRawNodeKey_inj in He as [_ ?].
  - by apply NoDup_filter.
Qed.

Lemma adds_some indices node :
  NoDup (nodeIDs node ++ pending c nodeID sc indices) →
  fold_left (add_step c nodeID rolls sc) indices (Some node) =
    Some (VirtualNode (score node)
            (nodeIDs node ++ pending c nodeID sc indices) (levels node)).
Proof.
  revert node. induction indices as [|i rest IH]; intros node Hnd; simpl.
  { unfold pending. simpl. rewrite app_nil_r. by destruct node. }
  rewrite pending_cons in Hnd |- *. unfold add_step at 2.
  destruct (encryptor c (vkey nodeID i) =? sc); [|by apply IH].
  simpl. rewrite bool_decide_eq_false_2.
  - rewrite IH; simpl; [by rewrite <- app_assoc|]. by rewrite <- app_assoc.
  - intros Hin. apply NoDup_app in Hnd as (_ & Hd & _).
    apply (Hd _ Hin). left.
Qed.

Lemma adds_none indices :
  NoDup (pending c nodeID sc indices) →
  fold_left (add_step c nodeID rolls sc) indices None =
    match pending c nodeID sc indices with
    | [] => None
    | _ :: _ =>
        Some (VirtualNode sc (pending c nodeID sc indices)
                (default O
                   (levels <$> fold_left (add_step c nodeID rolls sc) indices None)))
    end.
Proof.
  induction indices as [|i rest IH]; intros Hnd; simpl; [done|].
  rewrite pending_cons in Hnd |- *. unfold add_step at 2 4.
  destruct (encryptor c (vkey nodeID i) =? sc).
  - simpl. rewrite adds_some; simpl; [done|done].
  - by apply IH.
Qed.

Lemma rems_none indices :
  fold_left (rem_step c nodeID sc) indices None = None.
Proof.
  induction indices as [|i rest IH]; simpl; [done|].
  unfold rem_step at 2. by destruct (_ =? _).
Qed.

Lemma remove_key_middle v (ids rest : list string) :
  v ∉ ids → remove_key v (ids ++ v :: rest) = ids ++ rest.
Proof.
  induction ids as [|x ids IH]; simpl; intros Hnin.
  - by rewrite String.eqb_refl.
  - destruct (String.eqb_spec x v) as [->|Hne].
    + exfalso. apply Hnin. left.
    + rewrite IH; [done|]. intros H. apply Hnin. by right.
Qed.

Lemma rems_some indices s ids lv :
  NoDup (ids ++ pending c nodeID sc indices) →
  ids ++ pending c nodeID sc indices ≠ [] →
  fold_left (rem_step c nodeID sc) indices
    (Some (VirtualNode s (ids ++ pending c nodeID sc indices) lv)) =
    match ids with
    | [] => None
    | _ :: _ => Some (VirtualNode s ids lv)
    end.
Proof.
  induction indices as [|i rest IH]; intros Hnd Hne; simpl.
  { unfold pending in *. simpl in *. rewrite app_nil_r in *. by destruct ids. }
  rewrite pending_cons in Hnd, Hne |- *. unfold rem_step at 2.
  destruct (encryptor c (vkey nodeID i) =? sc); [|by apply IH].
  simpl. unfold rem_slot. simpl.
  assert (vkey nodeID i ∉ ids) as Hnin.
  { intros Hin. apply NoDup_app in Hnd as (_ & Hd & _). apply (Hd _ Hin). left. }
  rewrite remove_key_middle by done.
  assert (NoDup (ids ++ pending c nodeID sc rest)) as Hnd'.
  { apply NoDup_app in Hnd as (H1 & H2 & H3). apply NoDup_cons in H3 as [_ H3].
    apply NoDup_app. split; [done|]. split; [|done].
    intros x Hx Hx'. apply (H2 x Hx). by right. }
  destruct (Nat.ltb_spec 1 (length (ids ++ vkey nodeID i :: pending c nodeID sc rest)))
    as [Hlen|Hlen].
  - apply IH; [done|]. intros He. rewrite length_app in Hlen. simpl in Hlen.
    apply app_eq_nil in He as [-> He]. rewrite He in Hlen. simpl in Hlen. lia.
  - rewrite rems_none. rewrite length_app in Hlen. simpl in Hlen.
    destruct ids; [done|simpl in Hlen; lia].
Qed.

(** The keys of the node that [AddNode] put on a slot are taken off it by
    [RemoveNode], in the same order, and the slot is as it was. *)
Lemma slot_round_trip indices o :
  NoDup indices →
  match o with
  | None => True
  | Some node =>
      nodeIDs node ≠ [] ∧ NoDup (nodeIDs node) ∧
      ∀ i, vkey nodeID i ∉ nodeIDs node
  end →
  fold_left (rem_step c nodeID sc) indices
    (fold_left (add_step c nodeID rolls sc) indices o) = o.
Proof.
  intros Hnd Ho. pose proof (NoDup_pending indices Hnd) as Hp.
  destruct o as [node|].
  - destruct Ho as (Hne & Hids & Hfresh).
    assert (NoDup (nodeIDs node ++ pending c nodeID sc indices)) as Hall.
    { apply NoDup_app. split; [done|]. split; [|done].
      intros v Hv Hv'. apply elem_of_pending in Hv' as (i & _ & ->).
      by apply (Hfresh i). }
    rewrite adds_some by done. rewrite rems_some; [|done|].
    + destruct node as [s ids lv]. simpl in *. by destruct ids.
    + intros He. by apply app_eq_nil in He as [? _].
  - rewrite adds_none by done.
    destruct (pending c nodeID sc indices) as [|v l] eqn:E; [apply rems_none|].
    rewrite <- E. rewrite <- E in Hp.
    rewrite <- (app_nil_l (pending c nodeID sc indices)).
    rewrite rems_some; [done|done|]. simpl. by rewrite E.
Qed.

End slot.

Lemma AddNode_loop_find c nodeID rolls indices tasks r r' ts :
  wf r →
  AddNode_loop c nodeID rolls indices tasks r = (r', Ok ts) →
  ∀ sc, find_node (chain r') sc =
        fold_left (add_step c nodeID rolls sc) indices (find_node (chain r) sc).
Proof.
  revert tasks r. induction indices as [|i rest IH]; intros tasks r Hwf Hrun sc.
  { by injection Hrun as <- _. }
  simpl in Hrun. apply bind_Ok in Hrun as ([] & r1 & Hadd & Hrun).
  injection Hadd as <-.
  apply bind_Ok in Hrun as ([[from to] datas] & r2 & Hmig & Hrun).
  fold (vkey nodeID i) in *. set (vk := vkey nodeID i) in *.
  assert (wf (Add (encryptor c vk) vk (rolls i) r)) as Hwf1 by (by apply Add_wf).
  pose proof (migrateIn_slots c (encryptor c vk) nodeID
                (Add (encryptor c vk) vk (rolls i) r)) as Hs.
  rewrite Hmig in Hs. simpl in Hs.
  assert (wf r2) as Hwf2 by (by eapply same_slots_wf).
  assert (∃ ts', AddNode_loop c nodeID rolls rest ts' r2 = (r', Ok ts)) as [ts' Hrun'].
  { destruct (size datas =? 0)%nat; eauto. }
  rewrite (IH _ _ Hwf2 Hrun' sc). simpl. f_equal.
  destruct Hs as (_ & _ & <- & _). rewrite (Add_find _ _ _ _ _ Hwf).
  unfold add_step. fold vk.
  destruct (Z.eqb_spec sc (encryptor c vk)) as [->|Hne].
  - by rewrite Z.eqb_refl.
  - by destruct (Z.eqb_spec (encryptor c vk) sc).
Qed.

Lemma RemoveNode_loop_find c nodeID indices tasks r r' ts :
  wf r →
  RemoveNode_loop c nodeID indices tasks r = (r', Ok ts) →
  ∀ sc, find_node (chain r') sc =
        fold_left (rem_step c nodeID sc) indices (find_node (chain r) sc).
Proof.
  revert tasks r. induction indices as [|i rest IH]; intros tasks r Hwf Hrun sc.
  { by injection Hrun as <- _. }
  simpl in Hrun.
  apply bind_Ok in Hrun as ([[from to] datas] & r1 & Hmig & Hrun).
  apply bind_Ok in Hrun as ([] & r2 & Hrem & Hrun).
  apply attempt_Ok in Hrem.
  fold (vkey nodeID i) in *. set (vk := vkey nodeID i) in *.
  pose proof (migrateOut_slots c (encryptor c vk) nodeID r) as Hs.
  rewrite Hmig in Hs. simpl in Hs.
  assert (wf r1) as Hwf1 by (by apply (same_slots_wf r)).
  destruct (Rem_inv _ _ _ _ Hwf1 Hrem) as (n & Hf & Hv).
  destruct (Rem_ok _ _ _ _ Hwf1 Hf Hv) as (r2' & Hrem' & Hwf2 & _ & _ & Hfind).
  rewrite Hrem in Hrem'. injection Hrem' as <-.
  assert (∃ ts', RemoveNode_loop c nodeID rest ts' r2 = (r', Ok ts)) as [ts' Hrun'].
  { destruct (size datas =? 0)%nat; eauto. }
  rewrite (IH _ _ Hwf2 Hrun' sc). simpl. f_equal.
  rewrite Hfind. destruct Hs as (_ & _ & Hc & _). rewrite Hc.
  unfold rem_step. fold vk.
  destruct (Z.eqb_spec sc (encryptor c vk)) as [->|Hne].
  - by rewrite Z.eqb_refl, Hf.
  - by destruct (Z.eqb_spec (encryptor c vk) sc).
Qed.

(** What a successful [AddNode] ran. *)
Lemma AddNode_Ok_inv c pid g nodeID weight rolls r rA ts :
  AddNode c pid g nodeID weight rolls r = (rA, Ok ts) →
  let R := wrap64 (getValidWeight weight * replicas (opts c)) in
  ∃ r1 r2, same_data r r1 ∧ nodeToReplicas r !! nodeID = None ∧
    AddNode_loop c nodeID rolls (seq 0 (Z.to_nat R)) []
      (AddNodeToReplica nodeID R r1) = (r2, Ok ts) ∧
    same_data r2 rA ∧ lock (lockEntity rA) = false.
Proof.
  intros Hrun R. unfold AddNode in Hrun.
  destruct (locked_cases c pid g (AddNode_locked c nodeID weight rolls) r
              (AddNode_locked_lock _ _ _ _))
    as [[_ Hb]|(_ & r1 & Hd & Hd' & Hfree & Hres)]; [congruence|].
  rewrite Hrun in Hd', Hfree, Hres. simpl in *.
  destruct (AddNode_locked c nodeID weight rolls r1) as [r2 res] eqn:E.
  simpl in *. subst res. exists r1, r2. split; [done|].
  unfold AddNode_locked in E. rewrite bind_unfold in E. simpl in E.
  unfold Nodes in E. pose proof Hd as (_ & _ & Hrep & _). rewrite <- Hrep in E.
  destruct (nodeToReplicas r !! nodeID); [done|].
  rewrite bind_unfold in E. simpl in E. done.
Qed.

(** What a successful [RemoveNode] ran. *)
Lemma RemoveNode_Ok_inv c pid g nodeID r rB ts :
  RemoveNode c pid g nodeID r = (rB, Ok ts) →
  ∃ R r1 r2, same_data r r1 ∧ nodeToReplicas r !! nodeID = Some R ∧
    RemoveNode_loop c nodeID (seq 0 (Z.to_nat R)) []
      (DeleteNodeToReplica nodeID r1) = (r2, Ok ts) ∧
    same_data r2 rB ∧ lock (lockEntity rB) = false.
Proof.
  intros Hrun. unfold RemoveNode in Hrun.
  destruct (locked_cases c pid g (RemoveNode_locked c nodeID) r
              (RemoveNode_locked_lock _ _))
    as [[_ Hb]|(_ & r1 & Hd & Hd' & Hfree & Hres)]; [congruence|].
  rewrite Hrun in Hd', Hfree, Hres. simpl in *.
  destruct (RemoveNode_locked c nodeID r1) as [r2 res] eqn:E.
  simpl in *. subst res.
  unfold RemoveNode_locked in E. rewrite bind_unfold in E. simpl in E.
  unfold Nodes in E. pose proof Hd as (_ & _ & Hrep & _). rewrite <- Hrep in E.
  destruct (nodeToReplicas r !! nodeID) as [R|]; [|done].
  rewrite bind_unfold in E. simpl in E. exists R, r1, r2. done.
Qed.

(** The slots and the nodes after [AddNode] and a successful [RemoveNode]
    of the same node are those before. *)
Lemma round_trip_slots c pid g pid' g' nodeID weight rolls r rA tsA rB tsB :
  Inv c r →
  AddNode c pid g nodeID weight rolls r = (rA, Ok tsA) →
  RemoveNode c pid' g' nodeID rA = (rB, Ok tsB) →
  chain rB = chain r ∧ root_levels rB = root_levels r ∧
  nodeToReplicas rB = nodeToReplicas r.
Proof.
  intros HInv HA HB. pose proof HInv as [Hwf Hs Hc Hfree].
  pose proof (AddNode_Inv _ _ _ _ _ _ _ _ _ HInv HA) as HInvA.
  pose proof (RemoveNode_Inv _ _ _ _ _ _ _ HInvA HB) as [HwfB _ _ _].
  apply AddNode_Ok_inv in HA as (r1 & r2 & Hd1 & Hnone & HloopA & Hd2 & _).
  apply RemoveNode_Ok_inv in HB as (R' & r3 & r4 & Hd3 & HR' & HloopB & Hd4 & _).
  set (R := wrap64 (getValidWeight weight * replicas (opts c))) in *.
  pose proof (same_data_wf _ _ Hd1 Hwf) as Hwf1.
  assert (wf (AddNodeToReplica nodeID R r1)) as Hwf1' by (by destruct Hwf1).
  pose proof (AddNode_loop_spec c nodeID rolls (seq 0 (Z.to_nat R)) []
                (AddNodeToReplica nodeID R r1) Hwf1') as HspA.
  rewrite HloopA in HspA. simpl in HspA. destruct HspA as (Hwf2 & Hrep2 & _).
  assert (nodeToReplicas rA = <[nodeID := R]> (nodeToReplicas r)) as HrepA.
  { destruct Hd2 as (_ & _ & <- & _). rewrite Hrep2.
    by destruct Hd1 as (_ & _ & <- & _). }
  assert (R' = R) as ->.
  { rewrite HrepA, lookup_insert_eq in HR'. congruence. }
  pose proof (same_data_wf _ _ Hd2 Hwf2) as HwfA.
  pose proof (same_data_wf _ _ Hd3 HwfA) as Hwf3.
  assert (wf (DeleteNodeToReplica nodeID r3)) as Hwf3' by (by destruct Hwf3).
  destruct (RemoveNode_loop_Ok _ _ _ _ _ _ _ Hwf3' HloopB) as (Hwf4 & Hrep4 & _).
  assert (chain rB = chain r) as Hchain.
  { apply chain_ext; [apply HwfB|apply Hwf|]. intros sc.
    destruct Hd4 as (_ & <- & _).
    rewrite (RemoveNode_loop_find _ _ _ _ _ _ _ Hwf3' HloopB sc). simpl.
    destruct Hd3 as (_ & <- & _). destruct Hd2 as (_ & <- & _).
    rewrite (AddNode_loop_find _ _ _ _ _ _ _ _ Hwf1' HloopA sc). simpl.
    destruct Hd1 as (_ & <- & _).
    apply slot_round_trip; [apply NoDup_seq|].
    destruct (find_node (chain r) sc) as [node|] eqn:Ef; [|done].
    apply (find_node_Some _ _ _ (wf_sorted _ Hwf)) in Ef as [Hin Hsc].
    pose proof (wf_ids _ Hwf) as Hids. rewrite Forall_forall in Hids.
    destruct (Hids _ Hin) as [Hne Hnd]. split; [done|]. split; [done|].
    intros i Hi. destruct (Hs sc (vkey nodeID i)) as (n & j & Rn & He & Hn & _).
    { exists node. split; [|done]. by apply find_node_Some; [apply Hwf|]. }
    apply getRawNodeKey_inj in He as [<- _]. congruence. }
  split; [done|]. split.
  - rewrite (wf_root _ HwfB), (wf_root _ Hwf). by rewrite Hchain.
  - destruct Hd4 as (_ & _ & <- & _). rewrite Hrep4. simpl.
    destruct Hd3 as (_ & _ & <- & _). rewrite HrepA.
    rewrite delete_insert_eq. by apply delete_id.
Qed.

(** [migrateIn] either leaves the ring alone or moves some of the keys of
    one node to the new node. *)
Lemma bind_call {A B : Type} (f : SkiplistHashRing → result A) (k : A → M B) r :
  (call f ≫= k) r =
    match f r with
    | Ok a => k a r
    | Err e => (r, Err e)
    | Panic => (r, Panic)
    | Hang => (r, Hang)
    end.
Proof. rewrite bind_unfold. unfold call. by destruct (f r). Qed.

Lemma bind_update {B : Type} f (k : unit → M B) r :
  (update f ≫= k) r = k tt (f r).
Proof. by rewrite bind_unfold. Qed.

Lemma migrateIn_cases c vs nodeID r :
  fst (migrateIn c vs nodeID r) = r ∨
  ∃ owner datas, datas ⊆ keys_of (DataKeys r owner) ∧
    fst (migrateIn c vs nodeID r) =
      AddNodeToDataKeys nodeID datas (DeleteNodeToDataKeys owner datas r).
Proof.
  unfold migrateIn. destruct (negb (migrator c)); [by left|].
  rewrite bind_call.
  destruct (Node r vs) as [nodes|e| |]; [|by left..].
  destruct (1 <? length nodes)%nat; [by left|].
  rewrite bind_call.
  destruct (Floor r (decrScore vs)) as [lastScore|e| |]; [|by left..].
  destruct (_ || _); [by left|].
  rewrite bind_call.
  destruct (Ceiling r (incrScore vs)) as [nextScore|e| |]; [|by left..].
  destruct (_ || _); [by left|].
  rewrite bind_call.
  destruct (Node r nextScore) as [nextNodes|e| |]; [|by left..].
  destruct nextNodes as [|next0 rest]; [by left|].
  rewrite bind_call.
  destruct (getNodeID next0) as [owner|e| |]; [|by left..].
  rewrite bind_call, !bind_update.
  right. eexists owner, _. split; [|done].
  intros k Hk. by apply elem_of_filter in Hk as [_ Hk].
Qed.

Lemma DeleteNodeToDataKeys_no_keys owner datas r :
  no_keys r → no_keys (DeleteNodeToDataKeys owner datas r).
Proof.
  intros Hno k. specialize (Hno k). unfold DeleteNodeToDataKeys, DataKeys in *.
  destruct (nodeToDataKey r !! owner) as [old|] eqn:E; [|done].
  destruct (size (old ∖ datas) =? 0)%nat; simpl.
  - destruct (decide (owner = k)) as [->|Hne].
    + by rewrite lookup_delete_eq.
    + by rewrite lookup_delete_ne.
  - destruct (decide (owner = k)) as [->|Hne].
    + rewrite lookup_insert_eq. simpl. rewrite E in Hno. simpl in Hno.
      rewrite Hno. set_solver.
    + by rewrite lookup_insert_ne.
Qed.

Lemma AddNodeToDataKeys_no_keys nodeID r :
  no_keys r → no_keys (AddNodeToDataKeys nodeID ∅ r).
Proof.
  intros Hno k. pose proof (Hno nodeID) as Hn. specialize (Hno k).
  unfold AddNodeToDataKeys, DataKeys in *. simpl.
  destruct (decide (nodeID = k)) as [->|Hne].
  - rewrite lookup_insert_eq. simpl.
    destruct (nodeToDataKey r !! k) as [old|]; simpl in *; [|set_solver].
    rewrite Hn. set_solver.
  - by rewrite lookup_insert_ne.
Qed.

Lemma migrateIn_no_keys c vs nodeID r :
  no_keys r → no_keys (fst (migrateIn c vs nodeID r)).
Proof.
  intros Hno. destruct (migrateIn_cases c vs nodeID r)
    as [->|(owner & datas & Hsub & ->)]; [done|].
  assert (datas = ∅) as ->.
  { specialize (Hno owner). rewrite Hno in Hsub. set_solver. }
  by apply AddNodeToDataKeys_no_keys, DeleteNodeToDataKeys_no_keys.
Qed.

Lemma AddNode_loop_no_keys c nodeID rolls indices tasks r :
  no_keys r → no_keys (fst (AddNode_loop c nodeID rolls indices tasks r)).
Proof.
  revert tasks r. induction indices as [|i rest IH]; intros tasks r Hno; [done|].
  simpl. rewrite bind_unfold. simpl. rewrite bind_unfold.
  set (r1 := Add _ _ _ r).
  assert (no_keys r1) as Hno1.
  { intros k. unfold DataKeys, r1. rewrite Add_dataKeys. apply Hno. }
  pose proof (migrateIn_no_keys c (encryptor c (getRawNodeKey nodeID (Z.of_nat i)))
                nodeID r1 Hno1) as Hno2.
  destruct (migrateIn _ _ _ r1) as [r2 [[[from to] datas]|e| |]]; simpl in *;
    [|done..].
  destruct (size datas =? 0)%nat; by apply IH.
Qed.

Lemma AddNode_loop_dataKeys_nil c nodeID rolls indices tasks r :
  migrator c = false →
  nodeToDataKey (fst (AddNode_loop c nodeID rolls indices tasks r)) = nodeToDataKey r.
Proof.
  intros Hnil. revert tasks r.
  induction indices as [|i rest IH]; intros tasks r; [done|].
  simpl. rewrite bind_update.
  assert (∀ vs, migrateIn c vs nodeID = mret ("", "", ∅)) as ->
    by (by intros vs; unfold migrateIn; rewrite Hnil).
  rewrite bind_unfold. unfold mret at 1, M_ret at 1.
  rewrite size_empty. simpl. rewrite IH. apply Add_dataKeys.
Qed.

(** [migrateOut] moves nothing and fails with nothing when there is no
    migrator or the leaving node holds no data key. *)
Lemma migrateOut_quiet c vs nodeID r v :
  wf r → (∀ sc k, in_slot r sc k → ∃ n, getNodeID k = Ok n) →
  in_slot r vs v →
  migrator c = false ∨ keys_of (DataKeys r nodeID) = ∅ →
  ∃ from to, migrateOut c vs nodeID r = (r, Ok (from, to, ∅)).
Proof.
  intros Hwf Hdec (node & Hf & Hv) Hq. unfold migrateOut.
  destruct (migrator c) eqn:Em; simpl; [|by exists "", ""].
  destruct Hq as [?|Hq]; [done|].
  rewrite bind_unfold. unfold call. unfold migrateOut_body.
  rewrite (Node_spec _ _ Hwf), Hf. simpl.
  destruct (nodeIDs node) as [|node0 rest] eqn:Eids; [by apply elem_of_nil in Hv|].
  destruct (Hdec vs node0) as (n0 & Hn0).
  { exists node. split; [done|]. rewrite Eids. left. }
  rewrite Hn0. simpl.
  destruct (negb (String.eqb n0 nodeID)); simpl; [by exists nodeID, ""|].
  assert (len_keys (DataKeys r nodeID) = O) as ->.
  { unfold keys_of in Hq. destruct (DataKeys r nodeID) as [ks|]; simpl in *; [|done].
    rewrite Hq. apply size_empty. }
  simpl. by exists nodeID, "".
Qed.

Lemma RemoveNode_loop_quiet c nodeID indices tasks r :
  wf r → (∀ sc k, in_slot r sc k → ∃ n, getNodeID k = Ok n) →
  NoDup indices →
  (∀ i, i ∈ indices → in_slot r (encryptor c (vkey nodeID i)) (vkey nodeID i)) →
  migrator c = false ∨ keys_of (DataKeys r nodeID) = ∅ →
  ∃ r', RemoveNode_loop c nodeID indices tasks r = (r', Ok tasks) ∧
    (∀ k, nodeToDataKey r' !! k = nodeToDataKey r !! k ∨
          nodeToDataKey r' !! k = None) ∧
    (∀ k, (∀ i, i ∈ indices → k ≠ vkey nodeID i) →
          nodeToDataKey r' !! k = nodeToDataKey r !! k) ∧
    ((∀ i, i ∈ indices → nodeToDataKey r !! vkey nodeID i = None) →
       nodeToDataKey r' = nodeToDataKey r).
Proof.
  revert r. induction indices as [|i rest IH]; intros r Hwf Hdec Hnd Hin Hq; simpl.
  { exists r. split; [done|]. split; [by left|]. done. }
  apply NoDup_cons in Hnd as [Hi Hnd].
  fold (vkey nodeID i).
  destruct (migrateOut_quiet c (encryptor c (vkey nodeID i)) nodeID r
              (vkey nodeID i) Hwf Hdec)
    as (from & to & Hmig); [apply Hin; left|done|].
  rewrite bind_unfold, Hmig. rewrite bind_unfold.
  destruct (Hin i) as (n & Hf & Hv); [left|].
  destruct (Rem_ok _ _ _ _ Hwf Hf Hv) as (r2 & HR & Hwf2 & _ & Hdk & _).
  unfold attempt. rewrite HR. rewrite size_empty. simpl.
  destruct (IH r2 Hwf2) as (r' & Hrun & Hany & Hkeys & Habs).
  { intros sc k Hk. apply (Rem_in_slot r r2 _ _ _ _ Hwf HR) in Hk as [Hk _].
    by apply (Hdec sc k). }
  { done. }
  { intros j Hj. apply (Rem_in_slot r r2 _ _ _ _ Hwf HR). split.
    - apply Hin. by right.
    - intros [_ He]. apply getRawNodeKey_inj in He as [_ ->]. done. }
  { destruct Hq as [?|Hq]; [by left|]. right.
    unfold DataKeys in *. rewrite Hdk, lookup_delete_ne; [done|].
    apply getRawNodeKey_ne. }
  exists r'. split; [done|]. split; [|split].
  - intros k. destruct (Hany k) as [->| ->]; [|by right].
    rewrite Hdk. destruct (decide (vkey nodeID i = k)) as [->|Hne].
    + right. apply lookup_delete_eq.
    + left. by apply lookup_delete_ne.
  - intros k Hk. rewrite Hkeys.
    + rewrite Hdk. apply lookup_delete_ne. intros <-. by apply (Hk i); [left|].
    + intros j Hj. apply Hk. by right.
  - intros Hnone. rewrite Habs.
    + rewrite Hdk. apply delete_id. apply Hnone. left.
    + intros j Hj. rewrite Hdk, lookup_delete_ne.
      * apply Hnone. by right.
      * intros He. apply getRawNodeKey_inj in He as [_ ->]. done.
Qed.

(** [RemoveNode] succeeds, with no task for the migrator, when there is no
    migrator or the node holds no data key. *)
Lemma RemoveNode_quiet c pid g nodeID R r :
  Inv c r → nodeToReplicas r !! nodeID = Some R →
  migrator c = false ∨ keys_of (DataKeys r nodeID) = ∅ →
  ∃ rB, RemoveNode c pid g nodeID r = (rB, Ok []) ∧
    (∀ k, nodeToDataKey rB !! k = nodeToDataKey r !! k ∨
          nodeToDataKey rB !! k = None) ∧
    (∀ k, (∀ i, k ≠ vkey nodeID i) →
          nodeToDataKey rB !! k = nodeToDataKey r !! k) ∧
    ((∀ i, nodeToDataKey r !! vkey nodeID i = None) →
       nodeToDataKey rB = nodeToDataKey r).
Proof.
  intros HInv Hn Hq. pose proof HInv as [Hwf Hs Hc Hfree].
  destruct (locked_spec c pid g (RemoveNode_locked c nodeID) r
              (RemoveNode_locked_lock _ _) Hfree) as (r1 & Hd & Hrun).
  pose proof (same_data_wf _ _ Hd Hwf) as Hwf1.
  pose proof Hd as (_ & Hch & Hrep & Hkeys).
  destruct (RemoveNode_loop_quiet c nodeID (seq 0 (Z.to_nat R)) []
              (DeleteNodeToReplica nodeID r1))
    as (r2 & Hloop & Hany & Hother & Habs).
  - by destruct Hwf1.
  - intros sc k Hk. apply (in_slot_chain r (DeleteNodeToReplica nodeID r1)) in Hk;
      [|done].
    destruct (sound_decodes c r Hs sc k Hk) as (n & ? & _). eauto.
  - apply NoDup_seq.
  - intros i Hi. apply elem_of_seq in Hi.
    apply (in_slot_chain r (DeleteNodeToReplica nodeID r1)); [done|].
    apply (Hc nodeID R i Hn). lia.
  - destruct Hq as [?|Hq]; [by left|]. right. unfold DataKeys in *. simpl.
    by rewrite <- Hkeys.
  - assert (RemoveNode_locked c nodeID r1 = (r2, Ok [])) as Hbody.
    { unfold RemoveNode_locked. rewrite bind_unfold. simpl. unfold Nodes.
      rewrite <- Hrep, Hn. rewrite bind_unfold. simpl. done. }
    unfold RemoveNode. rewrite Hrun, Hbody. simpl.
    eexists. split; [done|]. simpl. simpl in Hany, Hother, Habs.
    rewrite <- Hkeys in Hany, Hother, Habs.
    split; [done|]. split.
    + intros k Hk. apply Hother. intros i _. apply Hk.
    + intros Hnone. apply Habs. intros i _. apply Hnone.
Qed.

End EngineFacts.

(** ** Further properties of the skiplist ring *)

Module SkiplistLaws.
Import Skiplist SkiplistFacts.

(** *** [Floor] *)

Lemma seek_end_decomp level c passed scan ch :
  rev passed ++ scan = ch → rev (fst c) ++ snd c = ch →
  let c' := seek_end level c passed scan in rev (fst c') ++ snd c' = ch.
Proof.
  revert c passed. induction scan as [|n tl IH]; intros c passed Hch Hc; simpl; [done|].
  destruct (level <? levels n)%nat.
  - apply IH; simpl; by rewrite <- app_assoc.
  - apply IH; [|done]. simpl. by rewrite <- app_assoc.
Qed.

Lemma seek_end_0 passed scan :
  Forall (λ n, (1 <= levels n)%nat) scan →
  seek_end 0 (passed, scan) passed scan = (rev scan ++ passed, []).
Proof.
  revert passed. induction scan as [|n tl IH]; intros passed Hl; simpl; [done|].
  apply Forall_cons in Hl as [Hn Hl].
  destruct (Nat.ltb_spec 0 (levels n)); [|lia].
  rewrite IH by done. simpl. by rewrite <- app_assoc.
Qed.

Lemma descend_end_all top ch c :
  Forall (λ n, (1 <= levels n)%nat) ch → rev (fst c) ++ snd c = ch →
  (1 <= top)%nat → descend_end top c = (rev ch, []).
Proof.
  intros Hl. revert c. induction top as [|level IH]; intros c Hc Htop; [lia|].
  simpl. destruct level as [|level].
  - simpl. destruct c as [b a]. simpl in *. rewrite seek_end_0.
    + by rewrite <- Hc, rev_app_distr, rev_involutive.
    + rewrite <- Hc in Hl. apply Forall_app in Hl. apply Hl.
  - apply IH; [|lia]. by apply seek_end_decomp.
Qed.

(** [last] is the score of the last node of the chain. *)
Lemma last_spec ring :
  wf ring →
  last ring =
    match rev (chain ring) with
    | [] => (-1, false)
    | n :: _ => (score n, true)
    end.
Proof.
  intros Hwf. pose proof Hwf as [Hs Hl Hi Hr]. unfold last.
  destruct (root_levels ring) as [|k] eqn:Ek.
  - by rewrite (wf_empty_chain _ Hwf Ek).
  - rewrite (descend_end_all (S k) (chain ring)); [done|done|done|lia].
Qed.

Lemma sorted_last_max (l : list virtualNode) n u :
  StronglySorted score_lt (l ++ [n]) → u ∈ l ++ [n] → score u <= score n.
Proof.
  intros Hs Hu. apply elem_of_app in Hu as [Hu|Hu].
  - apply (StronglySorted_app_1_elem_of _ _ _ u n) in Hs; [|done|left].
    unfold score_lt in Hs. lia.
  - apply list_elem_of_singleton in Hu. subst. lia.
Qed.

Lemma Floor_cases ring sc :
  wf ring →
  (scores ring = [] → Floor ring sc = Ok (-1)) ∧
  ((∃ u, u ∈ scores ring ∧ u <= sc) →
     ∃ t, Floor ring sc = Ok t ∧ is_floor ring sc t) ∧
  (scores ring ≠ [] → (∀ u, u ∈ scores ring → sc < u) →
     ∃ t, Floor ring sc = Ok t ∧ is_max ring t).
Proof.
  intros Hwf. pose proof Hwf as [Hs Hl Hi Hr].
  assert (Floor ring sc =
          if (root_levels ring =? 0)%nat then Ok (fst (last ring))
          else let c := descend (root_levels ring) sc (at_root ring) in
               match snd c with
               | n :: _ =>
                   if score n =? sc then Ok sc
                   else match fst c with
                        | [] => Ok (fst (last ring))
                        | move :: _ => Ok (score move)
                        end
               | [] => match fst c with
                       | [] => Ok (fst (last ring))
                       | move :: _ => Ok (score move)
                       end
               end) as HF.
  { unfold Floor, floor. destruct (root_levels ring =? 0)%nat eqn:E0; [done|].
    apply Nat.eqb_neq in E0.
    pose proof (descend_valid (root_levels ring) sc (chain ring) (at_root ring)
                  Hs (at_root_valid ring sc)) as [Hch _].
    simpl. rewrite nexts_at_0 by (eapply valid_after_levels; [exact Hl|exact Hch]).
    destruct (snd (descend (root_levels ring) sc (at_root ring))) as [|n tl].
    - by destruct (fst (descend (root_levels ring) sc (at_root ring))).
    - destruct (score n =? sc); [done|].
      by destruct (fst (descend (root_levels ring) sc (at_root ring))). }
  rewrite HF. clear HF. rewrite (last_spec _ Hwf).
  destruct (Nat.eqb_spec (root_levels ring) 0) as [H0|H0].
  { pose proof (wf_empty_chain _ Hwf H0) as He. unfold scores. rewrite He. simpl.
    split; [done|]. split.
    - intros (u & Hu & _). by apply elem_of_nil in Hu.
    - done. }
  assert (1 <= root_levels ring)%nat as Hpos by lia.
  pose proof (descend_splits (root_levels ring) sc (chain ring) (at_root ring)
                Hs Hl (at_root_valid ring sc) Hpos) as Hsp.
  simpl. set (c := descend _ _ _) in *. pose proof Hsp as (Hch & Hb & Hhd).
  assert (∀ u, u ∈ scores ring → u <= sc →
            (∃ x, x ∈ fst c ∧ score x = u) ∨ u = sc ∧ ∃ n, head (snd c) = Some n ∧ score n = sc)
    as Hbelow.
  { intros u Hu Hle. apply elem_of_scores in Hu as (x & Hx & <-).
    rewrite <- Hch in Hx. apply elem_of_app in Hx as [Hx|Hx].
    - left. exists x. split; [|done].
      by apply list_elem_of_In, in_rev, list_elem_of_In in Hx.
    - right. pose proof (splits_after_ge _ _ _ _ Hs Hsp Hx) as Hge.
      split; [lia|]. destruct (snd c) as [|n tl] eqn:E; [by apply elem_of_nil in Hx|].
      exists n. split; [done|]. specialize (Hhd n eq_refl).
      rewrite <- Hch in Hs. apply StronglySorted_app_1_r in Hs.
      pose proof (sorted_head_min n tl x Hs Hx). lia. }
  assert (∀ move rest, fst c = move :: rest →
            score move ∈ scores ring ∧ score move < sc ∧
            ∀ x, x ∈ fst c → score x <= score move) as Hmove.
  { intros move rest E. rewrite E in Hch, Hb. simpl in Hch.
    apply Forall_cons in Hb as [Hm Hb]. split; [|split; [done|]].
    - apply elem_of_scores. exists move. split; [|done]. rewrite <- Hch.
      apply elem_of_app. left. apply elem_of_app. right. left.
    - intros x Hx. rewrite E in Hx. rewrite <- Hch in Hs.
      apply StronglySorted_app_1_l in Hs.
      apply (sorted_last_max (rev rest) move x Hs).
      apply elem_of_cons in Hx as [->|Hx].
      + apply elem_of_app. right. left.
      + apply elem_of_app. left.
        by apply list_elem_of_In, in_rev; rewrite rev_involutive; apply list_elem_of_In. }
  assert (chain ring ≠ []) as Hne by (by apply wf_chain_nonempty).
  assert (∃ l n, chain ring = l ++ [n] ∧ rev (chain ring) = n :: rev l) as (l & lastn & El & Erev).
  { destruct (rev (chain ring)) as [|n rl] eqn:E.
    - apply (f_equal (@rev _)) in E. rewrite rev_involutive in E. done.
    - exists (rev rl), n. apply (f_equal (@rev _)) in E. rewrite rev_involutive in E.
      simpl in E. by rewrite rev_involutive. }
  assert (is_max ring (score lastn)) as Hmax.
  { split.
    - apply elem_of_scores. exists lastn. split; [|done]. rewrite El.
      apply elem_of_app. right. left.
    - intros u Hu. apply elem_of_scores in Hu as (x & Hx & <-).
      rewrite El in Hs, Hx. by apply (sorted_last_max l lastn x). }
  rewrite Erev. simpl.
  split; [|split].
  - intros He. unfold scores in He. by destruct (chain ring).
  - intros (u & Hu & Hle).
    destruct (snd c) as [|n tl] eqn:Esnd.
    + destruct (fst c) as [|move rest] eqn:Efst.
      * destruct (Hbelow u Hu Hle) as [(x & Hx & _)|(_ & n & Hn & _)];
          [by apply elem_of_nil in Hx|done].
      * destruct (Hmove move rest eq_refl) as (H1 & H2 & H3).
        exists (score move). split; [done|]. split; [done|]. split; [lia|].
        intros w Hw Hwle.
        destruct (Hbelow w Hw Hwle) as [(x & Hx & <-)|(_ & n & Hn & _)]; [|done].
        by apply H3.
    + destruct (Z.eqb_spec (score n) sc) as [He|Hn].
      * exists sc. split; [done|]. split; [|split; [lia|done]].
        apply elem_of_scores. exists n. split; [|done]. rewrite <- Hch.
        apply elem_of_app. right. left.
      * destruct (fst c) as [|move rest] eqn:Efst.
        -- destruct (Hbelow u Hu Hle) as [(x & Hx & _)|(_ & n' & Hn' & He)];
             [by apply elem_of_nil in Hx|].
           simpl in Hn'. injection Hn' as <-. done.
        -- destruct (Hmove move rest eq_refl) as (H1 & H2 & H3).
           exists (score move). split; [done|]. split; [done|]. split; [lia|].
           intros w Hw Hwle.
           destruct (Hbelow w Hw Hwle) as [(x & Hx & <-)|(_ & n' & Hn' & He)].
           ++ by apply H3.
           ++ simpl in Hn'. injection Hn' as <-. done.
  - intros _ Habove. exists (score lastn).
    assert (fst c = []) as ->.
    { destruct (fst c) as [|move rest] eqn:Efst; [done|].
      destruct (Hmove move rest eq_refl) as (H1 & H2 & _).
      specialize (Habove _ H1). lia. }
    split; [|done]. destruct (snd c) as [|n tl] eqn:Esnd; [done|].
    destruct (Z.eqb_spec (score n) sc) as [He|Hn]; [|done].
    exfalso. assert (score n ∈ scores ring) as Hin.
    { apply elem_of_scores. exists n. split; [|done]. rewrite <- Hch.
      apply elem_of_app. right. left. }
    specialize (Habove _ Hin). lia.
Qed.

(** X1. On a well-formed skiplist ring, [Floor s] is the largest slot score
    that is at most [s]; when every slot score is above [s] it wraps to the
    largest slot score; on a ring without slots it is -1. *)
Theorem Floor_spec ring sc :
  wf ring →
  (scores ring = [] → Floor ring sc = Ok (-1)) ∧
  ((∃ u, u ∈ scores ring ∧ u <= sc) →
     ∃ t, Floor ring sc = Ok t ∧ is_floor ring sc t) ∧
  (scores ring ≠ [] → (∀ u, u ∈ scores ring → sc < u) →
     ∃ t, Floor ring sc = Ok t ∧ is_max ring t).
Proof. apply Floor_cases. Qed.

Lemma Floor_spec_witness :
  wf ring3 ∧
  (∃ u, u ∈ scores ring3 ∧ u <= 25) ∧
  (∃ t, Floor ring3 25 = Ok t ∧ is_floor ring3 25 t) ∧
  scores ring3 ≠ [] ∧ (∀ u, u ∈ scores ring3 → 5 < u) ∧
  (∃ t, Floor ring3 5 = Ok t ∧ is_max ring3 t).
Proof.
  assert (wf ring3) as Hwf by (by apply (bool_decide_unpack _)).
  assert (scores ring3 = [10; 20; 30]) as Hsc by (by vm_compute).
  assert (∃ u, u ∈ scores ring3 ∧ u <= 25) as H1.
  { exists 10. rewrite Hsc. split; [left|lia]. }
  assert (∀ u, u ∈ scores ring3 → 5 < u) as H2.
  { intros u. rewrite Hsc. intros Hu.
    repeat (apply elem_of_cons in Hu as [->|Hu]; [lia|]). by apply elem_of_nil in Hu. }
  assert (scores ring3 ≠ []) as H3 by (by rewrite Hsc).
  split; [exact Hwf|]. split; [exact H1|].
  split; [exact (proj1 (proj2 (Floor_spec ring3 25 Hwf)) H1)|].
  split; [exact H3|]. split; [exact H2|].
  exact (proj2 (proj2 (Floor_spec ring3 5 Hwf)) H3 H2).
Defined.

(** *** [Rem] *)

Lemma not_in_scores ring sc :
  sc ∉ scores ring ↔ find_node (chain ring) sc = None.
Proof.
  rewrite find_node_None, elem_of_scores. split.
  - intros H n Hn He. apply H. by exists n.
  - intros H (n & Hn & He). by apply (H n).
Qed.

(** X2. On a well-formed ring, [Rem] fails with "score: .. not exist" when
    no slot carries the score and with "node: .. not exist in score: .."
    when the slot does not list the key, leaving the ring as it was in both
    cases; it succeeds exactly when the key is stored in the slot. *)
Theorem Rem_outcomes ring sc v :
  wf ring →
  (sc ∉ scores ring →
     Rem sc v ring = (ring, Some ("score: " +:+ pretty sc +:+ " not exist"))) ∧
  (sc ∈ scores ring → ¬ in_slot ring sc v →
     Rem sc v ring =
       (ring, Some ("node: " +:+ v +:+ " not exist in score: " +:+ pretty sc))) ∧
  (in_slot ring sc v ↔ snd (Rem sc v ring) = None).
Proof.
  intros Hwf. split; [|split].
  - intros H. apply Rem_no_score; [done|]. by apply not_in_scores.
  - intros Hin Hno. destruct (find_node (chain ring) sc) as [n|] eqn:E.
    + apply (Rem_no_key ring sc v n); [done|done|]. intros Hv. apply Hno. by exists n.
    + exfalso. by apply not_in_scores in E.
  - split.
    + intros (n & Hn & Hv). destruct (Rem_ok ring sc v n Hwf Hn Hv) as (ring' & -> & _). done.
    + destruct (Rem sc v ring) as [ring' o] eqn:E. simpl. intros ->.
      destruct (Rem_inv ring ring' sc v Hwf E) as (n & Hn & Hv). by exists n.
Qed.

Lemma Rem_outcomes_witness :
  wf ring3 ∧ 15 ∉ scores ring3 ∧
  Rem 15 "A_0" ring3 = (ring3, Some "score: 15 not exist") ∧
  snd (Rem 20 "C_0" ring3) = None.
Proof.
  assert (wf ring3) as Hwf by (by apply (bool_decide_unpack _)).
  assert (15 ∉ scores ring3) as Hno.
  { apply not_in_scores. by vm_compute. }
  assert (in_slot ring3 20 "C_0") as Hin.
  { exists (VirtualNode 20 ["C_0"; "D_0"] 3). split; [by vm_compute|left]. }
  split; [exact Hwf|]. split; [exact Hno|]. split.
  - exact (proj1 (Rem_outcomes ring3 15 "A_0" Hwf) Hno).
  - exact (proj1 (proj2 (proj2 (Rem_outcomes ring3 20 "C_0" Hwf))) Hin).
Defined.

(** *** [Add] and [Node] *)

(** X3. On a well-formed ring, after [Add s v] the slot at [s] lists the
    keys it listed before, in their order, followed by [v] unless [v] was
    already among them (a new slot lists [v] alone), and [Node] answers as
    before at every other score. *)
Theorem Node_after_Add ring sc v r sc' :
  wf ring →
  Node (Add sc v r ring) sc' =
    if sc' =? sc then
      match Node ring sc with
      | Ok ids => if bool_decide (v ∈ ids) then Ok ids else Ok (ids ++ [v])
      | _ => Ok [v]
      end
    else Node ring sc'.
Proof.
  intros Hwf. rewrite !Node_spec by (done || by apply Add_wf).
  rewrite Add_find by done. destruct (sc' =? sc); [|done].
  unfold add_slot. destruct (find_node (chain ring) sc) as [n|]; [|done].
  by case_bool_decide.
Qed.

Lemma Node_after_Add_witness :
  wf ring3 ∧ Node (Add 20 "E_0" 0 ring3) 20 = Ok ["C_0"; "D_0"; "E_0"].
Proof.
  assert (wf ring3) as Hwf by (by apply (bool_decide_unpack _)).
  split; [exact Hwf|].
  exact (Node_after_Add ring3 20 "E_0" 0 20 Hwf).
Defined.

(** *** The shape of the skiplist *)

Lemma wf_same ring ring' :
  chain ring' = chain ring → root_levels ring' = root_levels ring →
  wf ring → wf ring'.
Proof. intros Hc Hr [H1 H2 H3 H4]. split; rewrite ?Hc, ?Hr; done. Qed.

Lemma Rem_wf ring sc v : wf ring → wf (fst (Rem sc v ring)).
Proof.
  intros Hwf. destruct (find_node (chain ring) sc) as [n|] eqn:E.
  - destruct (decide (v ∈ nodeIDs n)) as [Hv|Hv].
    + by destruct (Rem_ok ring sc v n Hwf E Hv) as (ring' & -> & ? & _).
    + by rewrite (Rem_no_key ring sc v n Hwf E Hv).
  - by rewrite (Rem_no_score ring sc v Hwf E).
Qed.

(** X4. Every ring built from [NewSkiplistHashRing] by the operations of
    the skiplist ring keeps the shape of the skiplist: the slot scores
    strictly increase along the level-0 chain, every node is linked on
    level 0, no slot is empty or lists a key twice, and the root is exactly
    as tall as the tallest node. *)
Theorem built_wf ring : built ring → wf ring.
Proof.
  induction 1 as [|sc v r ring _ IH|sc v ring _ IH|n k ring _ IH|n ring _ IH
                  |n ks ring _ IH|n ks ring _ IH|tok e ring ring' _ IH HL
                  |tok ring _ IH|ring _ IH].
  - apply EngineFacts.New_wf.
  - by apply Add_wf.
  - by apply Rem_wf.
  - by apply (wf_same ring).
  - by apply (wf_same ring).
  - by apply (wf_same ring).
  - apply (wf_same ring); [| |done]; unfold DeleteNodeToDataKeys;
      destruct (nodeToDataKey ring !! n); try done;
      by destruct (size _ =? 0)%nat.
  - unfold Lock in HL. destruct (lock (lockEntity ring)); [done|].
    destruct (e <=? 0); injection HL as <-; by apply (wf_same ring).
  - apply (wf_same ring); [| |done]; unfold unlock;
      destruct (negb _); try done; by destruct (lock _).
  - apply (wf_same ring); [| |done]; unfold expire, unlock;
      destruct (timer _); try done; destruct (negb _); try done; by destruct (lock _).
Qed.

Lemma built_wf_witness :
  built ring3 ∧ wf ring3.
Proof.
  assert (built ring3) as Hb by (unfold ring3; repeat constructor).
  split; [exact Hb|]. exact (built_wf ring3 Hb).
Defined.

(** *** [Add] then [Rem] *)

(** X5. On a well-formed ring, adding a key that the slot does not hold and
    removing it again succeeds and restores the chain of slots and the
    height of the root, whatever tower height [Add] rolled; the replica
    counts are untouched and the only trace is that [Rem] has deleted the
    entry of the key from the data-key map. *)
Theorem Rem_Add_round_trip ring sc v r :
  wf ring → ¬ in_slot ring sc v →
  ∃ ring', Rem sc v (Add sc v r ring) = (ring', None) ∧
    chain ring' = chain ring ∧ root_levels ring' = root_levels ring ∧
    nodeToReplicas ring' = nodeToReplicas ring ∧
    nodeToDataKey ring' = delete v (nodeToDataKey ring).
Proof.
  intros Hwf Hno. pose proof (Add_wf ring sc v r Hwf) as Hwf1.
  pose proof (Add_find ring sc v r sc Hwf) as Hf. rewrite Z.eqb_refl in Hf.
  assert (v ∈ nodeIDs (add_slot sc v r (find_node (chain ring) sc))) as Hin.
  { unfold add_slot. destruct (find_node (chain ring) sc) as [n|] eqn:E.
    - case_bool_decide; [done|]. simpl. apply elem_of_app. right. left.
    - simpl. left. }
  destruct (Rem_ok _ sc v _ Hwf1 Hf Hin) as (ring' & HR & Hwf' & Hrep & Hdk & Hfind).
  exists ring'. split; [done|].
  assert (chain ring' = chain ring) as Hch.
  { apply EngineFacts.chain_ext; [apply Hwf'|apply Hwf|]. intros sc'. rewrite Hfind.
    destruct (Z.eqb_spec sc' sc) as [->|Hne].
    - unfold add_slot, rem_slot. destruct (find_node (chain ring) sc) as [n|] eqn:E.
      + case_bool_decide as Hv. { exfalso. apply Hno. by exists n. }
        simpl. rewrite length_app. simpl.
        assert (nodeIDs n ≠ []) as Hne.
        { apply find_node_Some in E as [Hn _]; [|apply Hwf].
          pose proof (wf_ids _ Hwf) as Hi. rewrite Forall_forall in Hi.
          by apply (Hi n). }
        destruct (Nat.ltb_spec 1 (length (nodeIDs n) + 1)) as [_|Hlen].
        * f_equal. rewrite (EngineFacts.remove_key_middle v (nodeIDs n) []) by done.
          rewrite app_nil_r. by destruct n.
        * destruct (nodeIDs n); [done|simpl in Hlen; lia].
      + done.
    - rewrite Add_find by done. by destruct (Z.eqb_spec sc' sc). }
  split; [done|]. split; [|split].
  - by rewrite (wf_root _ Hwf'), (wf_root _ Hwf), Hch.
  - by rewrite Hrep, Add_replicas.
  - by rewrite Hdk, Add_dataKeys.
Qed.

Lemma Rem_Add_round_trip_witness :
  wf ring3 ∧ ¬ in_slot ring3 25 "E_0" ∧
  ∃ ring', Rem 25 "E_0" (Add 25 "E_0" 7 ring3) = (ring', None) ∧
    chain ring' = chain ring3 ∧ root_levels ring' = root_levels ring3 ∧
    nodeToReplicas ring' = nodeToReplicas ring3 ∧
    nodeToDataKey ring' = delete "E_0" (nodeToDataKey ring3).
Proof.
  assert (wf ring3) as Hwf by (by apply (bool_decide_unpack _)).
  assert (¬ in_slot ring3 25 "E_0") as Hno.
  { intros (n & Hn & _). clear -Hn. vm_compute in Hn. discriminate Hn. }
  split; [exact Hwf|]. split; [exact Hno|].
  exact (Rem_Add_round_trip ring3 25 "E_0" 7 Hwf Hno).
Defined.

(** *** The data-key map *)

Lemma DataKeys_Add ring n ks m :
  DataKeys (AddNodeToDataKeys n ks ring) m =
    if decide (m = n) then Some (ConsistentHashEngine.keys_of (DataKeys ring n) ∪ ks)
    else DataKeys ring m.
Proof.
  unfold DataKeys, AddNodeToDataKeys, ConsistentHashEngine.keys_of. simpl.
  destruct (decide (m = n)) as [->|Hne].
  - rewrite lookup_insert_eq. by destruct (nodeToDataKey ring !! n).
  - by rewrite lookup_insert_ne.
Qed.

Lemma DataKeys_Delete ring n ks m :
  DataKeys (DeleteNodeToDataKeys n ks ring) m =
    if decide (m = n) then
      match DataKeys ring n with
      | Some old => if decide (old ∖ ks = ∅) then None else Some (old ∖ ks)
      | None => None
      end
    else DataKeys ring m.
Proof.
  unfold DataKeys, DeleteNodeToDataKeys.
  destruct (nodeToDataKey ring !! n) as [old|] eqn:E.
  - destruct (Nat.eqb_spec (size (old ∖ ks)) 0) as [H0|H0]; simpl.
    + apply size_empty_inv in H0. apply leibniz_equiv in H0.
      destruct (decide (m = n)) as [->|Hne].
      * rewrite lookup_delete_eq. by rewrite decide_True.
      * by rewrite lookup_delete_ne.
    + destruct (decide (m = n)) as [->|Hne].
      * rewrite lookup_insert_eq. rewrite decide_False; [done|].
        intros He. rewrite He, size_empty in H0. done.
      * by rewrite lookup_insert_ne.
  - destruct (decide (m = n)) as [->|Hne]; done.
Qed.

(** X6. [AddNodeToDataKeys] leaves under the node the union of its old keys
    and the new ones; [DeleteNodeToDataKeys] leaves the old keys without the
    deleted ones, never stores an empty set (the entry is dropped instead)
    and does nothing for a node without an entry; neither touches the entry
    of another node. *)
Theorem DataKeys_updates ring n ks :
  DataKeys (AddNodeToDataKeys n ks ring) n
    = Some (ConsistentHashEngine.keys_of (DataKeys ring n) ∪ ks) ∧
  ConsistentHashEngine.keys_of (DataKeys (DeleteNodeToDataKeys n ks ring) n)
    = ConsistentHashEngine.keys_of (DataKeys ring n) ∖ ks ∧
  DataKeys (DeleteNodeToDataKeys n ks ring) n ≠ Some ∅ ∧
  (DataKeys ring n = None → DeleteNodeToDataKeys n ks ring = ring) ∧
  (∀ m, m ≠ n →
     DataKeys (AddNodeToDataKeys n ks ring) m = DataKeys ring m ∧
     DataKeys (DeleteNodeToDataKeys n ks ring) m = DataKeys ring m).
Proof.
  split; [|split; [|split; [|split]]].
  - by rewrite DataKeys_Add, decide_True.
  - rewrite DataKeys_Delete, decide_True by done.
    destruct (DataKeys ring n) as [old|]; simpl; [|set_solver].
    by destruct (decide (old ∖ ks = ∅)) as [->|].
  - rewrite DataKeys_Delete, decide_True by done.
    destruct (DataKeys ring n) as [old|]; [|done].
    destruct (decide (old ∖ ks = ∅)); [done|]. congruence.
  - unfold DataKeys, DeleteNodeToDataKeys. by intros ->.
  - intros m Hne. by rewrite DataKeys_Add, DataKeys_Delete, !decide_False.
Qed.

Lemma DataKeys_updates_witness :
  DataKeys NewSkiplistHashRing "A" = None ∧
  DeleteNodeToDataKeys "A" {["d"]} NewSkiplistHashRing = NewSkiplistHashRing ∧
  DataKeys (AddNodeToDataKeys "A" {["d"]} NewSkiplistHashRing) "A"
    = Some (ConsistentHashEngine.keys_of (DataKeys NewSkiplistHashRing "A") ∪ {["d"]}).
Proof.
  split; [reflexivity|]. split.
  - exact (proj1 (proj2 (proj2 (proj2 (DataKeys_updates NewSkiplistHashRing "A" {["d"]}))))
             eq_refl).
  - exact (proj1 (DataKeys_updates NewSkiplistHashRing "A" {["d"]})).
Defined.

End SkiplistLaws.

(** ** Further properties of the lock *)

Module LockLaws.
Import Skiplist ConsistentHashEngine.



(** The state of the lock between two calls: a free lock has no owner and
    no guard, and a guard waits only for the lock of the owner that
    started it. *)
Lemma lock_state_unlock token l ring :
  lockEntity ring = l →
  let l' := lockEntity (fst (unlock token ring)) in
  ((lock l = false → owner l = "" ∧ timer l = None) ∧
   (∀ t, timer l = Some t → owner l = t ∧ lock l = true)) →
  (lock l' = false → owner l' = "" ∧ timer l' = None) ∧
  (∀ t, timer l' = Some t → owner l' = t ∧ lock l' = true).
Proof.
  intros <- l' H. subst l'. unfold unlock.
  destruct (negb _); [done|]. by destruct (lock _).
Qed.



End LockLaws.

(** ** The round trip of [AddNode] and [RemoveNode] *)

Module RoundTrip.
Import Skiplist ConsistentHashEngine KeyFacts SkiplistFacts EngineFacts SkiplistLaws.

(** *** The circle of scores *)

Ltac arcs :=
  unfold in_arc, on_way in *;
  repeat match goal with
         | H : context [?a <? ?b] |- _ => destruct (Z.ltb_spec a b)
         | |- context [?a <? ?b] => destruct (Z.ltb_spec a b)
         | H : context [?a <=? ?b] |- _ => destruct (Z.leb_spec a b)
         | |- context [?a <=? ?b] => destruct (Z.leb_spec a b)
         end; lia.

Lemma on_way_trans a b c o : on_way a c o → on_way a b o ∨ on_way b c o.
Proof. arcs. Qed.
Lemma arc_way last s h o : in_arc last s h → on_way h s o → in_arc last s o ∧ o ≠ s.
Proof. arcs. Qed.
Lemma not_arc_way last s h : last ≠ s → ¬ in_arc last s h → on_way h s last.
Proof. arcs. Qed.
Lemma way_sub x s l o : on_way x s l → on_way x l o → on_way x s o.
Proof. arcs. Qed.
Lemma home_unique h o o' : ¬ on_way h o' o → ¬ on_way h o o' → o = o'.
Proof. arcs. Qed.
Lemma way_back s0 sc next o1 :
  on_way s0 sc next → ¬ on_way s0 sc o1 → o1 ≠ sc → in_arc sc next o1 ∧ o1 ≠ next.
Proof. arcs. Qed.
Lemma way_next s0 sc next : ¬ on_way s0 sc next → next ≠ sc → on_way s0 next sc.
Proof. arcs. Qed.
Lemma way_arc sc next o : on_way sc next o → o = sc ∨ (in_arc sc next o ∧ o ≠ next).
Proof. arcs. Qed.
Lemma on_way_irrefl x s : ¬ on_way x s s.
Proof. arcs. Qed.
Lemma on_way_empty x o : ¬ on_way x x o.
Proof. arcs. Qed.

Lemma wrap32_small x : -2147483648 <= x < 2147483648 → wrap32 x = x.
Proof. intros H. unfold wrap32. rewrite Z.mod_small; lia. Qed.

Lemma moves_out_iff last s d :
  0 <= last < MaxInt32 → 0 <= s < MaxInt32 → 0 <= d < MaxInt32 → last ≠ s →
  moves_out (s <? last) (if s <? last then wrap32 (last - MaxInt32) else last) s d = true
  ↔ in_arc last s d.
Proof.
  intros Hl Hs Hd Hne. unfold moves_out, in_arc, MaxInt32 in *.
  destruct (Z.ltb_spec s last); cbn [andb].
  - rewrite (wrap32_small (last - _)) by lia.
    rewrite (wrap32_small (last - _ + _)) by lia.
    replace (last - 2147483647 + 2147483647) with last by lia.
    destruct (Z.ltb_spec last d).
    + rewrite wrap32_small by lia. destruct (Z.ltb_spec last s); [lia|].
      rewrite negb_true_iff, orb_false_iff, Z.leb_gt, Z.ltb_ge. lia.
    + destruct (Z.ltb_spec last s); [lia|].
      rewrite negb_true_iff, orb_false_iff, Z.leb_gt, Z.ltb_ge. lia.
  - destruct (Z.ltb_spec last s); [|lia].
    rewrite negb_true_iff, orb_false_iff, Z.leb_gt, Z.ltb_ge. lia.
Qed.

Lemma moves_in_sound last s next d :
  0 <= last < MaxInt32 → 0 <= s < MaxInt32 → 0 <= next < MaxInt32 →
  0 <= d < MaxInt32 → ¬ (s < last ∧ next < s) →
  moves_in (s <? last) (next <? s)
    (if next <? s
     then wrap32 ((if s <? last then wrap32 (last - MaxInt32) else last) - MaxInt32)
     else if s <? last then wrap32 (last - MaxInt32) else last)
    (if next <? s then wrap32 (s - MaxInt32) else s) d = true →
  in_arc last s d.
Proof.
  intros Hl Hs Hn Hd Hp.
  destruct (Z.ltb_spec s last) as [H1|H1]; destruct (Z.ltb_spec next s) as [H2|H2];
    [exfalso; lia| | |]; unfold moves_in, in_arc, MaxInt32 in *; cbn [andb].
  - rewrite (wrap32_small (last - _)) by lia.
    rewrite (wrap32_small (last - _ + _)) by lia.
    replace (last - 2147483647 + 2147483647) with last by lia.
    destruct (Z.ltb_spec last s); [lia|].
    destruct (Z.ltb_spec last d).
    + intros _. lia.
    + rewrite negb_true_iff, orb_false_iff, Z.leb_gt, Z.ltb_ge. lia.
  - rewrite !wrap32_small by lia.
    destruct (Z.ltb_spec last s); rewrite negb_true_iff, orb_false_iff, Z.leb_gt, Z.ltb_ge; lia.
  - destruct (Z.ltb_spec last s); rewrite negb_true_iff, orb_false_iff, Z.leb_gt, Z.ltb_ge; lia.
Qed.

Lemma incrScore_range s : 0 <= s < MaxInt32 →
  incrScore s = if s =? MaxInt32 - 1 then 0 else s + 1.
Proof.
  intros H. unfold incrScore, MaxInt32 in *. destruct (_ =? _); [done|].
  apply wrap32_small. lia.
Qed.

Lemma decrScore_range s : 0 <= s < MaxInt32 →
  decrScore s = if s =? 0 then MaxInt32 - 1 else s - 1.
Proof.
  intros H. unfold decrScore, MaxInt32 in *. destruct (_ =? _); [done|].
  apply wrap32_small. lia.
Qed.

Lemma scores_find ring sc :
  sc ∈ scores ring ↔ is_Some (find_node (chain ring) sc).
Proof.
  destruct (find_node (chain ring) sc) as [n|] eqn:E.
  - split; [by eexists|]. intros _. destruct (decide (sc ∈ scores ring)) as [|Hn]; [done|].
    apply not_in_scores in Hn. congruence.
  - split; [|by intros [? ?]]. intros Hin. by apply not_in_scores in E.
Qed.

(** The neighbours of a slot on the circle. *)
Lemma pred_spec ring s :
  wf ring → (∀ u, u ∈ scores ring → 0 <= u < MaxInt32) → s ∈ scores ring →
  ∃ last, Floor ring (decrScore s) = Ok last ∧ last ∈ scores ring ∧
    ∀ u, u ∈ scores ring → in_arc last s u → u = s.
Proof.
  intros Hwf Hr Hs. pose proof (Hr s Hs) as Hrs.
  destruct (Floor_cases ring (decrScore s) Hwf) as (_ & Hlow & Hwrap).
  rewrite decrScore_range in * by done.
  destruct (decide (Exists (λ u, u <= (if s =? 0 then MaxInt32 - 1 else s - 1))
                      (scores ring))) as [He|He].
  - apply Exists_exists in He. destruct (Hlow He) as (t & -> & Ht & Hle & Hmax).
    exists t. split; [done|]. split; [done|].
    intros u Hu Harc. pose proof (Hr u Hu). pose proof (Hr t Ht).
    pose proof (Hmax u Hu) as Hm.
    destruct (Z.eqb_spec s 0); unfold in_arc in Harc;
      destruct (Z.ltb_spec t s); lia.
  - assert (∀ u, u ∈ scores ring → (if s =? 0 then MaxInt32 - 1 else s - 1) < u) as Hall.
    { intros u Hu. destruct (decide ((if s =? 0 then MaxInt32 - 1 else s - 1) < u)); [done|].
      exfalso. apply He, Exists_exists. exists u. split; [done|lia]. }
    destruct Hwrap as (t & -> & Ht & Hmax); [by intros E; rewrite E in Hs; apply elem_of_nil in Hs|done|].
    exists t. split; [done|]. split; [done|].
    intros u Hu Harc. pose proof (Hr u Hu). pose proof (Hr t Ht).
    pose proof (Hmax u Hu). pose proof (Hall u Hu). pose proof (Hall s Hs).
    pose proof (Hmax s Hs).
    destruct (Z.eqb_spec s 0); unfold in_arc in Harc;
      destruct (Z.ltb_spec t s); lia.
Qed.

Lemma succ_spec ring s :
  wf ring → (∀ u, u ∈ scores ring → 0 <= u < MaxInt32) → s ∈ scores ring →
  ∃ next, Ceiling ring (incrScore s) = Ok next ∧ next ∈ scores ring ∧
    ∀ u, u ∈ scores ring → in_arc s next u → u = next.
Proof.
  intros Hwf Hr Hs. pose proof (Hr s Hs) as Hrs.
  destruct (Ceiling_cases ring (incrScore s) Hwf)
    as [[He _]|[(t & -> & Ht & Hle & Hmin)|(t & -> & _ & Hall & Ht & Hmin)]].
  - unfold scores in Hs. rewrite He in Hs. by apply elem_of_nil in Hs.
  - rewrite incrScore_range in * by done. exists t. split; [done|]. split; [done|].
    intros u Hu Harc. pose proof (Hr u Hu). pose proof (Hr t Ht).
    pose proof (Hmin u Hu) as Hm.
    destruct (Z.eqb_spec s (MaxInt32 - 1)); unfold in_arc in Harc;
      destruct (Z.ltb_spec s t); lia.
  - rewrite incrScore_range in * by done. exists t. split; [done|]. split; [done|].
    intros u Hu Harc. pose proof (Hr u Hu). pose proof (Hr t Ht).
    pose proof (Hmin u Hu). pose proof (Hall u Hu). pose proof (Hall s Hs).
    pose proof (Hmin s Hs).
    destruct (Z.eqb_spec s (MaxInt32 - 1)); unfold in_arc in Harc;
      destruct (Z.ltb_spec s t); lia.
Qed.

Lemma keys_Add ring b datas n :
  keys_of (DataKeys (AddNodeToDataKeys b datas ring) n) =
    if decide (n = b) then keys_of (DataKeys ring b) ∪ datas
    else keys_of (DataKeys ring n).
Proof. rewrite DataKeys_Add. by destruct (decide (n = b)). Qed.

Lemma keys_Delete ring a datas n :
  keys_of (DataKeys (DeleteNodeToDataKeys a datas ring) n) =
    if decide (n = a) then keys_of (DataKeys ring a) ∖ datas
    else keys_of (DataKeys ring n).
Proof.
  rewrite DataKeys_Delete. destruct (decide (n = a)) as [->|]; [|done].
  destruct (DataKeys ring a) as [old|]; simpl; [|set_solver].
  by destruct (decide (old ∖ datas = ∅)) as [->|].
Qed.

Lemma keys_move_self ring a datas n :
  datas ⊆ keys_of (DataKeys ring a) →
  keys_of (DataKeys (AddNodeToDataKeys a datas (DeleteNodeToDataKeys a datas ring)) n)
    = keys_of (DataKeys ring n).
Proof.
  intros Hsub. rewrite keys_Add. destruct (decide (n = a)) as [->|].
  - rewrite keys_Delete, decide_True by done.
    apply set_eq. intros k. rewrite elem_of_union, elem_of_difference.
    destruct (decide (k ∈ datas)); set_solver.
  - by rewrite keys_Delete, decide_False.
Qed.

Lemma migrateIn_inv c vs nodeID r :
  fst (migrateIn c vs nodeID r) = r ∨
  ∃ nodes last next next0 rest owner,
    migrator c = true ∧
    Node r vs = Ok nodes ∧ (length nodes <= 1)%nat ∧
    Floor r (decrScore vs) = Ok last ∧ last ≠ vs ∧
    Ceiling r (incrScore vs) = Ok next ∧ next ≠ vs ∧
    Node r next = Ok (next0 :: rest) ∧ getNodeID next0 = Ok owner ∧
    fst (migrateIn c vs nodeID r) =
      AddNodeToDataKeys nodeID
        (filter (λ k, moves_in (vs <? last) (next <? vs)
                   (if next <? vs
                    then wrap32 ((if vs <? last then wrap32 (last - MaxInt32) else last)
                                 - MaxInt32)
                    else if vs <? last then wrap32 (last - MaxInt32) else last)
                   (if next <? vs then wrap32 (vs - MaxInt32) else vs)
                   (encryptor c k))
           (keys_of (DataKeys r owner)))
        (DeleteNodeToDataKeys owner
           (filter (λ k, moves_in (vs <? last) (next <? vs)
                   (if next <? vs
                    then wrap32 ((if vs <? last then wrap32 (last - MaxInt32) else last)
                                 - MaxInt32)
                    else if vs <? last then wrap32 (last - MaxInt32) else last)
                   (if next <? vs then wrap32 (vs - MaxInt32) else vs)
                   (encryptor c k))
              (keys_of (DataKeys r owner))) r).
Proof.
  unfold migrateIn. destruct (migrator c) eqn:Em; [|by left]. cbn [negb].
  rewrite bind_call.
  destruct (Node r vs) as [nodes|e| |] eqn:En; [|by left..].
  destruct (Nat.ltb_spec 1 (length nodes)) as [|Hlen]; [by left|].
  rewrite bind_call.
  destruct (Floor r (decrScore vs)) as [lastScore|e| |] eqn:Ef; [|by left..].
  destruct (lastScore =? -1) eqn:E1; [by left|].
  destruct (Z.eqb_spec lastScore vs) as [|Hl]; [by left|]. cbn [orb].
  rewrite bind_call.
  destruct (Ceiling r (incrScore vs)) as [nextScore|e| |] eqn:Ec; [|by left..].
  destruct (nextScore =? -1) eqn:E2; [by left|].
  destruct (Z.eqb_spec nextScore vs) as [|Hn]; [by left|]. cbn [orb].
  rewrite bind_call.
  destruct (Node r nextScore) as [nextNodes|e| |] eqn:En2; [|by left..].
  destruct nextNodes as [|next0 rest]; [by left|].
  rewrite bind_call.
  destruct (getNodeID next0) as [owner|e| |] eqn:Eo; [|by left..].
  rewrite bind_call, !bind_update.
  right. exists nodes, lastScore, nextScore, next0, rest, owner.
  repeat (split; [done|]). done.
Qed.

Lemma size_list_to_set_le (l : list Z) :
  (size (list_to_set l : gset Z) <= length l)%nat.
Proof.
  induction l as [|x l IH].
  { change (list_to_set [] : gset Z) with (∅ : gset Z). by rewrite size_empty. }
  change (list_to_set (x :: l) : gset Z) with ({[x]} ∪ list_to_set l : gset Z).
  rewrite size_union_alt, size_singleton. simpl.
  pose proof (subseteq_size (list_to_set l ∖ {[x]}) (list_to_set l : gset Z)) as H.
  assert (list_to_set l ∖ {[x]} ⊆ (list_to_set l : gset Z)) as Hs by set_solver.
  specialize (H Hs). lia.
Qed.

Lemma getValidNextNode_S fuel ring sc nodeID ranged :
  getValidNextNode (S fuel) ring sc nodeID ranged =
    (nextScore ← Ceiling ring (incrScore sc);
     if nextScore =? -1 then Ok ""
     else if bool_decide (nextScore ∈ ranged) then Ok ""
     else
       nextNodes ← Node ring nextScore;
       match nextNodes with
       | [] => Err "next node empty"
       | next0 :: rest =>
           nextNode ← getNodeID next0;
           if negb (String.eqb nextNode nodeID) then Ok nextNode
           else
             match rest with
             | next1 :: _ => getNodeID next1
             | [] => getValidNextNode fuel ring nextScore nodeID ({[sc]} ∪ ranged)
             end
       end).
Proof. done. Qed.

Section round_trip.
Context (c : ConsistentHash) (nodeID : string) (r0 : SkiplistHashRing).
Hypothesis Hwf0 : wf r0.
Hypothesis Hsound0 : vkeys_sound c r0.
Hypothesis Hnew : nodeToReplicas r0 !! nodeID = None.
Hypothesis Hname : nodeID ≠ "".
Hypothesis Hnames : nodeToReplicas r0 !! "" = None.
Hypothesis Hrange : ∀ s, 0 <= encryptor c s < MaxInt32.

Lemma orig_head o node0 :
  find_node (chain r0) o = Some node0 →
  ∃ v0 rest n, nodeIDs node0 = v0 :: rest ∧ getNodeID v0 = Ok n ∧
    n ≠ nodeID ∧ n ≠ "" ∧ ∀ i, v0 ≠ vkey nodeID i.
Proof.
  intros Hf. pose proof Hf as Hin. apply find_node_Some in Hin as [Hin _]; [|apply Hwf0].
  pose proof (wf_ids _ Hwf0) as Hi. rewrite Forall_forall in Hi.
  destruct (Hi _ Hin) as [Hne _].
  destruct (nodeIDs node0) as [|v0 rest] eqn:E; [done|].
  destruct (Hsound0 o v0) as (n & j & R & -> & Hn & _ & _).
  { exists node0. split; [done|]. rewrite E. left. }
  exists (vkey n j), rest, n. split; [done|]. split; [apply getNodeID_getRawNodeKey|].
  split; [congruence|]. split; [congruence|].
  intros i He. apply getRawNodeKey_inj in He as [-> _]. congruence.
Qed.

Lemma slot_owner_fun ring o n n' : slot_owner ring o n → slot_owner ring o n' → n = n'.
Proof.
  intros (node & v & rest & Hf & Hi & Hg) (node' & v' & rest' & Hf' & Hi' & Hg').
  congruence.
Qed.

Lemma home_fun x o o' : home r0 x o → home r0 x o' → o = o'.
Proof.
  intros [Ho Hc] [Ho' Hc']. apply (home_unique x); [by apply Hc'|by apply Hc].
Qed.

Lemma during_ext ring ring' :
  chain ring' = chain ring → root_levels ring' = root_levels ring →
  (∀ n, keys_of (DataKeys ring' n) = keys_of (DataKeys ring n)) →
  during c nodeID r0 ring → during c nodeID r0 ring'.
Proof.
  intros Hc Hr Hk [H1 H2 H3 H4 H5 H6].
  assert (scores ring' = scores ring) as Hs by (unfold scores; by rewrite Hc).
  split.
  - by apply (wf_same ring).
  - by rewrite Hs.
  - by rewrite Hc.
  - by rewrite Hc.
  - intros n k Hn. rewrite !Hk. by apply H5.
  - intros k. rewrite Hk, Hs. apply H6.
Qed.

Lemma during_start :
  keys_of (DataKeys r0 nodeID) = ∅ → during c nodeID r0 r0.
Proof.
  intros Hk. split.
  - done.
  - intros sc Hsc. apply elem_of_scores in Hsc as (n & Hn & <-).
    pose proof (wf_ids _ Hwf0) as Hi. rewrite Forall_forall in Hi.
    destruct (Hi _ Hn) as [Hne _].
    destruct (nodeIDs n) as [|v rest] eqn:E; [done|].
    destruct (Hsound0 (score n) v) as (m & j & R & _ & _ & _ & ->); [|apply Hrange].
    exists n. split; [by apply find_node_Some; [apply Hwf0|]|]. rewrite E. left.
  - intros o node0 Hf. by exists node0.
  - intros sc node v Hn Hs. congruence.
  - intros n k Hn. rewrite Hk. set_solver.
  - intros k. rewrite Hk. set_solver.
Qed.

Lemma Add_during ring s i roll :
  0 <= s < MaxInt32 →
  during c nodeID r0 ring → ¬ in_slot ring s (vkey nodeID i) →
  during c nodeID r0 (Add s (vkey nodeID i) roll ring).
Proof.
  intros Hs [H1 H2 H3 H4 H5 H6] Hfresh.
  assert (∀ n, keys_of (DataKeys (Add s (vkey nodeID i) roll ring) n)
               = keys_of (DataKeys ring n)) as Hk.
  { intros n. unfold DataKeys. by rewrite Add_dataKeys. }
  split.
  - by apply Add_wf.
  - intros sc Hsc. apply scores_find in Hsc. rewrite Add_find in Hsc by done.
    destruct (Z.eqb_spec sc s) as [Heq|Hne]; [by rewrite Heq|].
    apply H2. by apply scores_find.
  - intros o node0 Hf. rewrite Add_find by done.
    destruct (H3 o node0 Hf) as (node & Hn & Hh).
    destruct (Z.eqb_spec o s) as [Heq|Hne]; [|by exists node].
    subst o. eexists. split; [done|]. rewrite Hn. unfold add_slot.
    case_bool_decide as Hv. { exfalso. apply Hfresh. by exists node. }
    simpl. rewrite <- Hh. destruct (nodeIDs node) as [|x tl] eqn:E; [|done].
    exfalso. destruct (orig_head s node0 Hf) as (v0 & rest & n & E0 & _).
    rewrite E0 in Hh. done.
  - intros sc node w Hn0. rewrite Add_find by done.
    destruct (Z.eqb_spec sc s) as [Heq|Hne].
    + subst sc. intros [= <-]. unfold add_slot.
      destruct (find_node (chain ring) s) as [n|] eqn:E.
      * case_bool_decide; [by apply (H4 s n w)|]. simpl.
        intros Hw. apply elem_of_app in Hw as [Hw|Hw]; [by apply (H4 s n w)|].
        apply list_elem_of_singleton in Hw. by exists i.
      * simpl. intros Hw. apply list_elem_of_singleton in Hw. by exists i.
    + apply H4. done.
  - intros n k Hn. rewrite !Hk. by apply H5.
  - intros k. rewrite Hk. intros Hin.
    destruct (H6 k Hin) as (Hm & Ho & s' & Hs' & Hn' & Hc).
    split; [done|]. split; [done|]. exists s'. split; [|done].
    apply scores_find. rewrite Add_find by done.
    destruct (Z.eqb_spec s' s); [by eexists|]. by apply scores_find.
Qed.

Lemma move_chain ring a b datas datas' :
  chain (AddNodeToDataKeys b datas (DeleteNodeToDataKeys a datas' ring)) = chain ring ∧
  root_levels (AddNodeToDataKeys b datas (DeleteNodeToDataKeys a datas' ring))
    = root_levels ring.
Proof.
  destruct (AddNodeToDataKeys_slots b datas (DeleteNodeToDataKeys a datas' ring))
    as (_ & H1 & H2 & _).
  destruct (DeleteNodeToDataKeys_slots a datas' ring) as (_ & H3 & H4 & _).
  split; congruence.
Qed.

Lemma orig_present ring o :
  during c nodeID r0 ring → o ∈ scores r0 → o ∈ scores ring.
Proof.
  intros Hd Ho. apply scores_find in Ho as [node0 Hf].
  destruct (d_orig _ _ _ _ Hd o node0 Hf) as (node & Hn & _).
  apply scores_find. by eexists.
Qed.

Lemma no_orig_on_way ring last s h :
  during c nodeID r0 ring →
  (∀ u, u ∈ scores ring → in_arc last s u → u = s) →
  in_arc last s h → ∀ o, o ∈ scores r0 → ¬ on_way h s o.
Proof.
  intros Hd Hpred Harc o Ho Hw.
  destruct (arc_way last s h o Harc Hw) as [Ha Hne].
  apply Hne, Hpred; [|done]. by apply (orig_present ring).
Qed.

Lemma no_orig_to_next ring h s next :
  during c nodeID r0 ring →
  (∀ u, u ∈ scores ring → in_arc s next u → u = next) →
  s ∉ scores r0 →
  (∀ o, o ∈ scores r0 → ¬ on_way h s o) →
  ∀ o, o ∈ scores r0 → ¬ on_way h next o.
Proof.
  intros Hd Hsucc Hs Hc o Ho Hw.
  destruct (on_way_trans h s next o Hw) as [Hw1|Hw2]; [by apply (Hc o)|].
  destruct (way_arc s next o Hw2) as [->|[Ha Hne]]; [done|].
  apply Hne, Hsucc; [|done]. by apply (orig_present ring).
Qed.

Lemma migrateIn_during ring s i :
  during c nodeID r0 ring → in_slot ring s (vkey nodeID i) →
  during c nodeID r0 (fst (migrateIn c s nodeID ring)).
Proof.
  intros Hd Hin. pose proof Hd as [H1 H2 H3 H4 H5 H6].
  destruct (migrateIn_inv c s nodeID ring)
    as [->|(nodes & last & next & next0 & rest & owner & Hm & Hnodes & Hlen & Hfl
            & Hls & Hce & Hns & Hnn & Ho & ->)]; [done|].
  destruct Hin as (node & Hf & Hv).
  assert (s ∈ scores ring) as Hs by (apply scores_find; eauto).
  rewrite (Node_spec _ _ H1), Hf in Hnodes. injection Hnodes as <-.
  assert (find_node (chain r0) s = None) as Hs0.
  { destruct (find_node (chain r0) s) as [node0|] eqn:E; [|done]. exfalso.
    destruct (H3 s node0 E) as (node' & Hf' & Hh). rewrite Hf in Hf'. injection Hf' as <-.
    destruct (orig_head s node0 E) as (v0 & rest0 & n & E0 & _ & _ & _ & Hv0).
    rewrite E0 in Hh. destruct (nodeIDs node) as [|x [|y tl]]; simpl in *; [done| |lia].
    injection Hh as ->. apply list_elem_of_singleton in Hv. by apply (Hv0 i). }
  assert (s ∉ scores r0) as Hs0' by (by apply not_in_scores).
  destruct (pred_spec ring s H1 H2 Hs) as (last' & Hfl' & Hlast & Hpred).
  rewrite Hfl in Hfl'. injection Hfl' as <-.
  destruct (succ_spec ring s H1 H2 Hs) as (next' & Hce' & Hnext & Hsucc).
  rewrite Hce in Hce'. injection Hce' as <-.
  pose proof Hnext as Hnx. apply scores_find in Hnx as [nnode Hnf].
  rewrite (Node_spec _ _ H1), Hnf in Hnn. injection Hnn as Hids.
  match goal with |- during _ _ _ (AddNodeToDataKeys _ ?d _) => set (datas := d) end.
  destruct (move_chain ring owner nodeID datas datas) as [Hch Hrt].
  assert (∀ k, k ∈ datas →
            k ∈ keys_of (DataKeys ring owner) ∧ in_arc last s (encryptor c k)) as Hdatas.
  { intros k Hk. apply elem_of_filter in Hk as [Hmv Hk]. split; [done|].
    apply Is_true_true in Hmv.
    apply (moves_in_sound last s next); try done; try (by apply H2).
    intros [Hp1 Hp2]. apply Hns. apply Hpred; [done|]. unfold in_arc.
    destruct (Z.ltb_spec last s); lia. }
  destruct (find_node (chain r0) next) as [node0|] eqn:En0.
  - destruct (H3 next node0 En0) as (node' & Hf' & Hh).
    rewrite Hnf in Hf'. injection Hf' as <-.
    destruct (orig_head next node0 En0) as (v0 & rest0 & n & E0 & Hg & Hnn' & Hne & Hv0).
    rewrite E0, Hids in Hh. simpl in Hh. injection Hh as ->.
    rewrite Hg in Ho. injection Ho as <-.
    assert (slot_owner r0 next n) as Hown by (by exists node0, v0, rest0).
    assert (next ∈ scores r0) as Hn0 by (apply scores_find; eauto).
    assert (∀ k, k ∈ datas → home r0 (encryptor c k) next) as Hhome.
    { intros k Hk. split; [done|].
      apply (no_orig_to_next ring _ s); [done|done|done|].
      apply (no_orig_on_way ring last); [done|done|]. by apply Hdatas. }
    assert (∀ m, keys_of (DataKeys (AddNodeToDataKeys nodeID datas
                                     (DeleteNodeToDataKeys n datas ring)) m) =
                 if decide (m = nodeID) then keys_of (DataKeys ring nodeID) ∪ datas
                 else if decide (m = n) then keys_of (DataKeys ring n) ∖ datas
                 else keys_of (DataKeys ring m)) as Hk.
    { intros m. rewrite keys_Add. destruct (decide (m = nodeID)) as [->|].
      - by rewrite keys_Delete, decide_False.
      - by rewrite keys_Delete. }
    split.
    + by apply (wf_same ring).
    + unfold scores. rewrite Hch. apply H2.
    + by rewrite Hch.
    + by rewrite Hch.
    + intros m k Hmn. rewrite (Hk m), (Hk nodeID).
      destruct (decide (m = nodeID)) as [|_]; [done|].
      destruct (decide (nodeID = nodeID)) as [_|]; [|done].
      rewrite (H5 m k Hmn). destruct (decide (m = n)) as [->|Hmn'].
      * rewrite elem_of_difference, elem_of_union. split.
        -- intros [Hkn|[HkN Hho]]; [|by right; split; [left|]].
           destruct (decide (k ∈ datas)) as [Hkd|Hkd]; [|by left].
           right. split; [by right|]. exists next. split; [by apply Hhome|done].
        -- intros [[Hkn _]|[[HkN|Hkd] Hho]]; [by left|by right|].
           left. by apply Hdatas.
      * rewrite elem_of_union. split.
        -- intros [Hkn|[HkN Hho]]; [by left|by right; split; [left|]].
        -- intros [Hkn|[[HkN|Hkd] Hho]]; [by left|by right|].
           exfalso. destruct Hho as (o & Hho & Hso).
           pose proof (home_fun _ _ _ Hho (Hhome k Hkd)) as ->.
           apply Hmn'. by apply (slot_owner_fun r0 next).
    + intros k. rewrite (Hk nodeID).
      destruct (decide (nodeID = nodeID)) as [_|]; [|done]. rewrite elem_of_union.
      unfold scores. rewrite Hch. fold (scores ring).
      intros [HkN|Hkd]; [by apply H6|].
      split; [done|]. split; [by exists next|]. exists s. split; [done|]. split; [done|].
      apply (no_orig_on_way ring last); [done|done|]. by apply Hdatas.
  - assert (next0 ∈ nodeIDs nnode) as Hn0 by (rewrite Hids; left).
    destruct (H4 next nnode next0 En0 Hnf Hn0) as (j & ->).
    unfold vkey in Ho. rewrite getNodeID_getRawNodeKey in Ho. injection Ho as <-.
    apply (during_ext ring); [done|done| |done].
    intros m. apply keys_move_self. intros k Hk. by apply Hdatas.
Qed.

Lemma AddNode_loop_during rolls indices tasks ring :
  during c nodeID r0 ring → NoDup indices →
  (∀ i, i ∈ indices → ¬ in_slot ring (encryptor c (vkey nodeID i)) (vkey nodeID i)) →
  during c nodeID r0 (fst (AddNode_loop c nodeID rolls indices tasks ring)).
Proof.
  revert tasks ring. induction indices as [|i rest IH]; intros tasks ring Hd Hnd Hfresh;
    [done|].
  apply NoDup_cons in Hnd as [Hi Hnd].
  simpl. rewrite bind_unfold. simpl. rewrite bind_unfold.
  fold (vkey nodeID i).
  set (r1 := Add (encryptor c (vkey nodeID i)) (vkey nodeID i) (rolls i) ring).
  assert (during c nodeID r0 r1) as Hd1.
  { apply Add_during; [apply Hrange|done|]. apply Hfresh. left. }
  assert (in_slot r1 (encryptor c (vkey nodeID i)) (vkey nodeID i)) as Hin1.
  { apply Add_in_slot; [apply Hd|]. by right. }
  pose proof (migrateIn_during r1 _ i Hd1 Hin1) as Hd2.
  pose proof (migrateIn_slots c (encryptor c (vkey nodeID i)) nodeID r1) as Hs.
  destruct (migrateIn c (encryptor c (vkey nodeID i)) nodeID r1) as [r2 res].
  simpl in Hd2, Hs.
  destruct res as [[[from to] datas]|e| |]; [|done..].
  assert (∀ j, j ∈ rest →
            ¬ in_slot r2 (encryptor c (vkey nodeID j)) (vkey nodeID j)) as Hfresh2.
  { intros j Hj Hin. apply (same_slots_in_slot r1 r2) in Hin; [|done].
    apply (proj1 (Add_in_slot ring _ _ _ _ _ (d_wf _ _ _ _ Hd))) in Hin as [Hin|[_ He]].
    - apply (Hfresh j); [by right|done].
    - apply getRawNodeKey_inj in He as [_ ->]. done. }
  destruct (size datas =? 0)%nat; by apply IH.
Qed.

Lemma walk ring s0 o1 :
  during c nodeID r0 ring → o1 ∈ scores r0 →
  ∀ fuel sc ranged,
    sc ∈ scores ring → sc ∉ scores r0 →
    sc = s0 ∨ s0 ∈ ranged →
    (∀ o, o ∈ scores r0 → ¬ on_way s0 sc o) →
    (∀ u, u ∈ ranged → u ∈ scores ring ∧ on_way s0 sc u) →
    (length (chain ring) + 2 <= size ranged + fuel)%nat →
    ∃ t, getValidNextNode fuel ring sc nodeID ranged = Ok t ∧
      ((t = nodeID ∧
        ∃ s', s' ∈ scores ring ∧ (s' ∉ scores r0) ∧ s' ≠ s0 ∧
              ∀ o, o ∈ scores r0 → ¬ on_way s0 s' o) ∨
       (∃ o', o' ∈ scores r0 ∧ slot_owner r0 o' t ∧ t ≠ nodeID ∧ t ≠ "" ∧
              ∀ o, o ∈ scores r0 → ¬ on_way s0 o' o)).
Proof.
  intros Hd Ho1. pose proof Hd as [H1 H2 H3 H4 H5 H6].
  assert (∀ ranged : gset Z, (∀ u, u ∈ ranged → u ∈ scores ring) →
            (size ranged <= length (chain ring))%nat) as Hsize.
  { intros ranged Hr.
    pose proof (subseteq_size ranged (list_to_set (scores ring))) as Hle.
    pose proof (size_list_to_set_le (scores ring)) as Hle'.
    unfold scores in Hle' at 2. rewrite length_fmap in Hle'.
    assert (ranged ⊆ list_to_set (scores ring)) as Hsub.
    { intros u Hu. apply elem_of_list_to_set. by apply Hr. }
    specialize (Hle Hsub). lia. }
  induction fuel as [|fuel IH]; intros sc ranged Hsc Hsc0 Hs0 Hclear Hranged Hfuel.
  { exfalso. specialize (Hsize ranged (λ u Hu, proj1 (Hranged u Hu))). lia. }
  rewrite getValidNextNode_S.
  destruct (succ_spec ring sc H1 H2 Hsc) as (next & Hce & Hnext & Hsucc).
  rewrite Hce. simpl.
  pose proof (orig_present ring o1 Hd Ho1) as Ho1'.
  assert (o1 ≠ sc) as Hne1 by (intros ->; done).
  assert (¬ on_way s0 sc next) as Hnb.
  { intros Hw. destruct (way_back s0 sc next o1 Hw (Hclear o1 Ho1) Hne1) as [Ha Hn].
    apply Hn. by apply Hsucc. }
  assert (next ≠ sc) as Hnsc.
  { intros ->. apply Hne1. apply Hsucc; [done|]. unfold in_arc.
    destruct (Z.ltb_spec sc sc); lia. }
  assert (next ∉ ranged) as Hnr.
  { intros Hin. by apply Hnb, Hranged. }
  assert (∀ o, o ∈ scores r0 → ¬ on_way s0 next o) as Hclear'.
  { by apply (no_orig_to_next ring s0 sc next). }
  pose proof (H2 next Hnext) as Hrn.
  destruct (Z.eqb_spec next (-1)) as [|_]; [lia|].
  rewrite bool_decide_eq_false_2 by done.
  pose proof Hnext as Hnx. apply scores_find in Hnx as [nnode Hnf].
  rewrite (Node_spec _ _ H1), Hnf. simpl.
  destruct (find_node (chain r0) next) as [node0|] eqn:En0.
  - destruct (H3 next node0 En0) as (node' & Hf' & Hh).
    rewrite Hnf in Hf'. injection Hf' as <-.
    destruct (orig_head next node0 En0) as (v0 & rest0 & n & E0 & Hg & Hnn & Hne & Hv0).
    rewrite E0 in Hh. destruct (nodeIDs nnode) as [|x rest'] eqn:Eids; [done|].
    simpl in Hh. injection Hh as ->. rewrite Hg. simpl.
    destruct (String.eqb_spec n nodeID) as [|_]; [done|]. simpl.
    exists n. split; [done|]. right. exists next.
    split; [apply scores_find; eauto|]. split; [by exists node0, v0, rest0|].
    done.
  - assert (next ∉ scores r0) as Hn0 by (by apply not_in_scores).
    pose proof (wf_ids _ H1) as Hi. rewrite Forall_forall in Hi.
    assert (nnode ∈ chain ring) as Hnin.
    { apply find_node_Some in Hnf as [? _]; [done|apply H1]. }
    destruct (Hi _ Hnin) as [Hne _].
    destruct (nodeIDs nnode) as [|x rest'] eqn:Eids; [done|].
    destruct (H4 next nnode x En0 Hnf) as (j & ->); [rewrite Eids; left|].
    unfold vkey. rewrite getNodeID_getRawNodeKey. simpl.
    rewrite String.eqb_refl. simpl.
    destruct rest' as [|y rest''].
    + apply IH; [done|done| |done| |].
      * destruct Hs0 as [->|Hs0]; right; set_solver.
      * intros u Hu. apply elem_of_union in Hu as [Hu|Hu].
        -- apply elem_of_singleton in Hu as ->. split; [done|].
           by apply way_next.
        -- destruct (Hranged u Hu) as [Hu1 Hu2]. split; [done|].
           apply (way_sub s0 next sc); [by apply way_next|done].
      * rewrite size_union, size_singleton.
        -- lia.
        -- apply disjoint_singleton_l. intros Hin.
           destruct (Hranged sc Hin) as [_ Hw]. by apply on_way_irrefl in Hw.
    + destruct (H4 next nnode y En0 Hnf) as (j' & ->); [rewrite Eids; right; left|].
      unfold vkey. rewrite getNodeID_getRawNodeKey.
      exists nodeID. split; [done|]. left. split; [done|]. exists next.
      split; [done|]. split; [done|]. split; [|done].
      destruct Hs0 as [<-|Hs0]; [done|]. intros ->. done.
Qed.

Lemma Rem_during ring s i :
  during c nodeID r0 ring → in_slot ring s (vkey nodeID i) →
  keys_of (DataKeys r0 (vkey nodeID i)) = ∅ →
  (∀ node, find_node (chain ring) s = Some node → nodeIDs node = [vkey nodeID i] →
     ∀ k, k ∈ keys_of (DataKeys ring nodeID) →
       ∃ s', s' ∈ scores ring ∧ s' ≠ s ∧ (s' ∉ scores r0) ∧
             ∀ o, o ∈ scores r0 → ¬ on_way (encryptor c k) s' o) →
  ∃ ring2, Rem s (vkey nodeID i) ring = (ring2, None) ∧ during c nodeID r0 ring2.
Proof.
  intros Hd (node & Hf & Hv) Hvk Hcover. pose proof Hd as [H1 H2 H3 H4 H5 H6].
  destruct (Rem_ok ring s _ node H1 Hf Hv) as (ring2 & HR & Hwf2 & Hrep & Hdk & Hfind).
  exists ring2. split; [done|].
  assert (node ∈ chain ring) as Hnin.
  { apply find_node_Some in Hf as [? _]; [done|apply H1]. }
  pose proof (wf_ids _ H1) as Hi. rewrite Forall_forall in Hi.
  destruct (Hi _ Hnin) as [Hne Hnd].
  assert (∀ m, keys_of (DataKeys ring2 m) =
               if decide (m = vkey nodeID i) then ∅ else keys_of (DataKeys ring m)) as Hk.
  { intros m. unfold DataKeys. rewrite Hdk. destruct (decide (m = vkey nodeID i)) as [->|].
    - by rewrite lookup_delete_eq.
    - by rewrite lookup_delete_ne. }
  assert (vkey nodeID i ≠ nodeID) as HvN by apply getRawNodeKey_ne.
  assert (∀ sc, sc ∈ scores ring2 → sc ∈ scores ring) as Hsub.
  { intros sc Hsc. apply scores_find in Hsc. rewrite Hfind in Hsc. apply scores_find.
    destruct (Z.eqb_spec sc s) as [Heq|]; [|done]. subst sc. by eexists. }
  split.
  - done.
  - intros sc Hsc. by apply H2, Hsub.
  - intros o node0 Hf0. rewrite Hfind.
    destruct (H3 o node0 Hf0) as (node' & Hn' & Hh).
    destruct (Z.eqb_spec o s) as [Heq|]; [|by exists node'].
    subst o. rewrite Hf in Hn'. injection Hn' as <-.
    destruct (orig_head s node0 Hf0) as (v0 & rest0 & n & E0 & _ & _ & _ & Hv0).
    rewrite E0 in Hh. unfold rem_slot.
    destruct (nodeIDs node) as [|x tl] eqn:Eids; [done|].
    simpl in Hh. injection Hh as ->.
    apply elem_of_cons in Hv as [Hv|Hv]; [by symmetry in Hv; apply Hv0 in Hv|].
    destruct tl as [|y tl]; [by apply elem_of_nil in Hv|].
    simpl. eexists. split; [done|]. simpl.
    rewrite E0. destruct (String.eqb_spec v0 (vkey nodeID i)) as [He|_]; [|done].
    by apply Hv0 in He.
  - intros sc node' w Hn0. rewrite Hfind.
    destruct (Z.eqb_spec sc s) as [Heq|]; [|by apply H4].
    subst sc. unfold rem_slot. destruct (1 <? length (nodeIDs node))%nat; [|done].
    intros [= <-]. simpl. intros Hw. apply elem_of_remove_key in Hw as [Hw _]; [|done].
    by apply (H4 s node w).
  - intros m k Hm. rewrite (Hk m), (Hk nodeID).
    destruct (decide (nodeID = vkey nodeID i)) as [|_]; [done|].
    destruct (decide (m = vkey nodeID i)) as [->|]; [|by apply H5].
    rewrite Hvk. pose proof (H5 (vkey nodeID i) k Hm) as Hold. rewrite Hvk in Hold.
    split; [set_solver|]. intros [Hk'|Hk']; [set_solver|].
    apply Hold. by right.
  - intros k. rewrite (Hk nodeID).
    destruct (decide (nodeID = vkey nodeID i)) as [|_]; [done|].
    intros Hin. destruct (H6 k Hin) as (Hm & Ho & s' & Hs' & Hn' & Hc).
    split; [done|]. split; [done|].
    destruct (decide (s' = s)) as [->|Hss].
    + unfold rem_slot in Hfind.
      destruct (Nat.ltb_spec 1 (length (nodeIDs node))) as [Hlen|Hlen].
      * exists s. split; [|done]. apply scores_find. rewrite Hfind, Z.eqb_refl. by eexists.
      * assert (nodeIDs node = [vkey nodeID i]) as Hone.
        { destruct (nodeIDs node) as [|x [|y tl]]; simpl in Hlen; [done| |lia].
          apply list_elem_of_singleton in Hv. by rewrite Hv. }
        destruct (Hcover node Hf Hone k Hin) as (s'' & Hs1 & Hs2 & Hs3 & Hs4).
        exists s''. split; [|done]. apply scores_find. rewrite Hfind.
        destruct (Z.eqb_spec s'' s); [done|]. by apply scores_find.
    + exists s'. split; [|done]. apply scores_find. rewrite Hfind.
      destruct (Z.eqb_spec s' s); [done|]. by apply scores_find.
Qed.

Lemma out_deferred to datas ring :
  to ≠ "" →
  ∃ ring1,
    (if String.eqb to "" || (size datas =? 0)%nat
     then mret (nodeID, to, datas)
     else update (DeleteNodeToDataKeys nodeID datas)
          ≫= λ _ : (), update (AddNodeToDataKeys to datas)
          ≫= λ _ : (), mret (nodeID, to, datas)) ring
      = (ring1, Ok (nodeID, to, datas)) ∧
    chain ring1 = chain ring ∧ root_levels ring1 = root_levels ring ∧
    ∀ m, keys_of (DataKeys ring1 m) =
         keys_of (DataKeys (AddNodeToDataKeys to datas
                              (DeleteNodeToDataKeys nodeID datas ring)) m).
Proof.
  intros Hto. destruct (String.eqb_spec to "") as [|_]; [done|]. cbn [orb].
  destruct (Nat.eqb_spec (size datas) 0) as [H0|H0].
  - exists ring. split; [done|]. split; [done|]. split; [done|].
    apply size_empty_inv in H0. apply leibniz_equiv in H0. subst datas.
    intros m. rewrite keys_Add. destruct (decide (m = to)) as [->|].
    + rewrite keys_Delete. destruct (decide (to = nodeID)); set_solver.
    + rewrite keys_Delete. destruct (decide (m = nodeID)) as [->|]; set_solver.
  - rewrite !bind_update. eexists. split; [done|].
    destruct (move_chain ring nodeID to datas datas) as [-> ->]. done.
Qed.

Lemma migrateOut_during ring s i :
  during c nodeID r0 ring → in_slot ring s (vkey nodeID i) →
  ∃ from to datas ring1,
    migrateOut c s nodeID ring = (ring1, Ok (from, to, datas)) ∧
    chain ring1 = chain ring ∧
    during c nodeID r0 ring1 ∧
    (∀ node, find_node (chain ring) s = Some node → nodeIDs node = [vkey nodeID i] →
     ∀ k, k ∈ keys_of (DataKeys ring1 nodeID) →
       ∃ s', s' ∈ scores ring ∧ s' ≠ s ∧ (s' ∉ scores r0) ∧
             ∀ o, o ∈ scores r0 → ¬ on_way (encryptor c k) s' o).
Proof.
  intros Hd (node & Hf & Hv). pose proof Hd as [H1 H2 H3 H4 H5 H6].
  assert (s ∈ scores ring) as Hs by (apply scores_find; eauto).
  unfold migrateOut. destruct (migrator c) eqn:Em; cbn [negb].
  2:{ exists "", "", ∅, ring. split; [done|]. split; [done|]. split; [done|].
      intros _ _ _ k Hk. destruct (H6 k Hk) as [? _]. congruence. }
  rewrite bind_call. unfold migrateOut_body.
  remember (getValidNextNode (walk_fuel ring) ring s nodeID ∅) as w eqn:Ew.
  rewrite (Node_spec _ _ H1), Hf. simpl.
  destruct (nodeIDs node) as [|node0 rest] eqn:Eids; [by apply elem_of_nil in Hv|].
  destruct (find_node (chain r0) s) as [n0|] eqn:Es0.
  { destruct (H3 s n0 Es0) as (node' & Hf' & Hh).
    rewrite Hf in Hf'. injection Hf' as <-.
    destruct (orig_head s n0 Es0) as (v0 & rest0 & n & E0 & Hg & Hnn & Hne & Hv0).
    rewrite E0, Eids in Hh. simpl in Hh. injection Hh as ->. rewrite Hg. simpl.
    destruct (String.eqb_spec n nodeID) as [|_]; [done|]. simpl.
    exists nodeID, "", ∅, ring. split; [done|]. split; [done|]. split; [done|].
    intros node' [= <-] Hone.
    rewrite Eids in Hone. injection Hone as He _. by apply Hv0 in He. }
  assert (s ∉ scores r0) as Hs0 by (by apply not_in_scores).
  destruct (H4 s node node0 Es0 Hf) as (j & ->); [rewrite Eids; left|].
  assert (∀ j', getNodeID (vkey nodeID j') = Ok nodeID) as Hgj
    by (intros j'; apply getNodeID_getRawNodeKey).
  rewrite Hgj. simpl. rewrite String.eqb_refl. simpl.
  destruct (Nat.eqb_spec (len_keys (DataKeys ring nodeID)) 0) as [Hlen|Hlen].
  { exists nodeID, "", ∅, ring. split; [done|]. split; [done|]. split; [done|].
    intros _ _ _ k Hk. exfalso. unfold len_keys, keys_of in *.
    destruct (DataKeys ring nodeID) as [ks|]; simpl in *; [|set_solver].
    apply size_empty_inv in Hlen. set_solver. }
  assert (∃ k0, k0 ∈ keys_of (DataKeys ring nodeID)) as [k0 Hk0].
  { unfold len_keys, keys_of in *.
    destruct (DataKeys ring nodeID) as [ks|]; simpl in *; [|done].
    apply size_pos_elem_of. lia. }
  destruct (H6 k0 Hk0) as (_ & [o1 Ho1] & _).
  pose proof (orig_present ring o1 Hd Ho1) as Ho1'.
  destruct (pred_spec ring s H1 H2 Hs) as (last & Hfl & Hlast & Hpred).
  rewrite Hfl. simpl.
  assert (last ≠ s) as Hls.
  { intros ->. apply Hs0. rewrite <- (Hpred o1 Ho1'); [done|].
    unfold in_arc. destruct (Z.ltb_spec s s); lia. }
  pose proof (H2 last Hlast) as Hrl. pose proof (H2 s Hs) as Hrs.
  destruct (Z.eqb_spec last (-1)) as [|_]; [lia|].
  destruct (Z.eqb_spec last s) as [|_]; [done|]. simpl.
  match goal with |- context [filter ?P ?X] => set (datas := filter P X) end.
  assert (∀ k, k ∈ datas ↔
            k ∈ keys_of (DataKeys ring nodeID) ∧ in_arc last s (encryptor c k)) as Hdatas.
  { intros k. unfold datas. rewrite elem_of_filter, Is_true_true.
    rewrite moves_out_iff by (done || apply Hrange). tauto. }
  assert (∀ k, in_arc last s (encryptor c k) →
            ∀ o, o ∈ scores r0 → ¬ on_way (encryptor c k) s o) as Hin_arc.
  { intros k Hk. by apply (no_orig_on_way ring last). }
  assert (∀ k, k ∈ keys_of (DataKeys ring nodeID) → k ∉ datas →
            ∃ s', s' ∈ scores ring ∧ s' ≠ s ∧ (s' ∉ scores r0) ∧
                  ∀ o, o ∈ scores r0 → ¬ on_way (encryptor c k) s' o) as Hstay.
  { intros k Hk Hkd. destruct (H6 k Hk) as (_ & _ & s1 & Hs1 & Hs1' & Hc1).
    destruct (decide (s1 = s)) as [->|]; [|by exists s1].
    assert (¬ in_arc last s (encryptor c k)) as Hna.
    { intros Ha. apply Hkd, Hdatas. done. }
    pose proof (not_arc_way last s _ Hls Hna) as Hw.
    exists last. split; [done|]. split; [done|]. split.
    - intros Hl0. by apply (Hc1 last).
    - intros o Ho Hwo. apply (Hc1 o Ho). by apply (way_sub _ s last). }
  destruct rest as [|node1 rest'].
  - destruct (walk ring s o1 Hd Ho1 (walk_fuel ring) s ∅) as (t & Hw & Hcases).
    + done.
    + done.
    + by left.
    + intros o Ho Hwo. by apply on_way_empty in Hwo.
    + intros u Hu. by apply elem_of_empty in Hu.
    + unfold walk_fuel. rewrite size_empty. lia.
    + rewrite Ew, Hw. destruct Hcases as [[-> (s' & Hs' & Hs0' & Hss & Hc')]
                                        |(o' & Ho' & Hown & HtN & Ht & Hc')].
      * destruct (String.eqb_spec nodeID "") as [|_]; [done|].
        destruct (out_deferred nodeID datas ring Hname) as (ring1 & -> & Hch & Hrt & Hk).
        exists nodeID, nodeID, datas, ring1. split; [done|]. split; [done|].
        assert (∀ m, keys_of (DataKeys ring1 m) = keys_of (DataKeys ring m)) as Hk'.
        { intros m. rewrite Hk. apply keys_move_self. intros k Hkd. by apply Hdatas. }
        split; [by apply (during_ext ring)|].
        intros _ _ _ k. rewrite Hk'. intros Hkin.
        destruct (H6 k Hkin) as (_ & _ & s1 & Hs1 & Hs1' & Hc1).
        destruct (decide (s1 = s)) as [->|]; [|by exists s1].
        exists s'. split; [done|]. split; [done|]. split; [done|].
        intros o Ho Hwo. destruct (on_way_trans _ s _ _ Hwo) as [Hw1|Hw2].
        -- by apply (Hc1 o).
        -- by apply (Hc' o).
      * destruct (String.eqb_spec t "") as [|_]; [done|].
        destruct (out_deferred t datas ring Ht) as (ring1 & -> & Hch & Hrt & Hk).
        exists nodeID, t, datas, ring1. split; [done|]. split; [done|].
        assert (∀ m, keys_of (DataKeys ring1 m) =
                     if decide (m = t) then keys_of (DataKeys ring t) ∪ datas
                     else if decide (m = nodeID)
                          then keys_of (DataKeys ring nodeID) ∖ datas
                          else keys_of (DataKeys ring m)) as Hk'.
        { intros m. rewrite Hk, keys_Add. destruct (decide (m = t)) as [->|].
          - by rewrite keys_Delete, decide_False.
          - by rewrite keys_Delete. }
        assert (∀ k, k ∈ datas → home r0 (encryptor c k) o') as Hhome.
        { intros k Hkd. apply Hdatas in Hkd as [_ Ha]. split; [done|].
          intros o Ho Hwo. destruct (on_way_trans _ s _ _ Hwo) as [Hw1|Hw2].
          - by apply (Hin_arc k Ha o).
          - by apply (Hc' o). }
        split.
        { split.
          - by apply (wf_same ring).
          - unfold scores. rewrite Hch. apply H2.
          - by rewrite Hch.
          - by rewrite Hch.
          - intros m k Hm. rewrite (Hk' m), (Hk' nodeID).
            destruct (decide (nodeID = t)) as [|_]; [done|].
            destruct (decide (nodeID = nodeID)) as [_|]; [|done].
            rewrite (H5 m k Hm), elem_of_difference.
            destruct (decide (m = t)) as [->|Hmt].
            + rewrite elem_of_union. split.
              * intros [Hkt|[HkN Hho]]; [by left; left|].
                destruct (decide (k ∈ datas)); [by left; right|by right].
              * intros [[Hkt|Hkd]|[[HkN _] Hho]]; [by left| |by right].
                right. split; [by apply Hdatas in Hkd as [? _]|].
                exists o'. split; [by apply Hhome|done].
            + destruct (decide (m = nodeID)) as [|_]; [done|]. split.
              * intros [Hkm|[HkN Hho]]; [by left|].
                destruct (decide (k ∈ datas)) as [Hkd|]; [|by right].
                exfalso. destruct Hho as (o & Hho & Hso).
                pose proof (home_fun _ _ _ Hho (Hhome k Hkd)) as ->.
                apply Hmt. by apply (slot_owner_fun r0 o').
              * intros [Hkm|[[HkN _] Hho]]; [by left|by right].
          - intros k. rewrite (Hk' nodeID).
            destruct (decide (nodeID = t)) as [|_]; [done|].
            destruct (decide (nodeID = nodeID)) as [_|]; [|done].
            rewrite elem_of_difference.
            assert (scores ring1 = scores ring) as -> by (unfold scores; by rewrite Hch).
            intros [HkN _]. destruct (H6 k HkN) as (_ & ? & ?). done. }
        intros _ _ _ k. rewrite (Hk' nodeID).
        destruct (decide (nodeID = t)) as [|_]; [done|].
        destruct (decide (nodeID = nodeID)) as [_|]; [|done].
        rewrite elem_of_difference. intros [HkN Hkd]. by apply Hstay.
  - destruct (H4 s node node1 Es0 Hf) as (j' & ->); [rewrite Eids; right; left|].
    rewrite Hgj. simpl.
    destruct (out_deferred nodeID datas ring Hname) as (ring1 & -> & Hch & Hrt & Hk).
    exists nodeID, nodeID, datas, ring1. split; [done|]. split; [done|].
    assert (∀ m, keys_of (DataKeys ring1 m) = keys_of (DataKeys ring m)) as Hk'.
    { intros m. rewrite Hk. apply keys_move_self. intros k Hkd. by apply Hdatas. }
    split; [by apply (during_ext ring)|].
    intros node' [= <-] Hone. rewrite Eids in Hone. done.
Qed.

Lemma RemoveNode_loop_during indices tasks ring :
  during c nodeID r0 ring → NoDup indices →
  (∀ i, i ∈ indices → keys_of (DataKeys r0 (vkey nodeID i)) = ∅) →
  (∀ i, i ∈ indices → in_slot ring (encryptor c (vkey nodeID i)) (vkey nodeID i)) →
  ∃ ring' ts, RemoveNode_loop c nodeID indices tasks ring = (ring', Ok ts) ∧
    during c nodeID r0 ring'.
Proof.
  revert tasks ring. induction indices as [|i rest IH]; intros tasks ring Hd Hnd Hvk Hin.
  { by exists ring, tasks. }
  apply NoDup_cons in Hnd as [Hi Hnd].
  assert (in_slot ring (encryptor c (vkey nodeID i)) (vkey nodeID i)) as Hini
    by (apply Hin; left).
  destruct (migrateOut_during ring _ i Hd Hini)
    as (from & to & datas & ring1 & Hmig & Hch & Hd1 & Hcover).
  assert (scores ring1 = scores ring) as Hsc by (unfold scores; by rewrite Hch).
  destruct (Rem_during ring1 (encryptor c (vkey nodeID i)) i Hd1) as (ring2 & HR & Hd2).
  { by apply (in_slot_chain ring ring1). }
  { apply Hvk. left. }
  { rewrite Hch, Hsc. done. }
  assert (∀ j, j ∈ rest →
            in_slot ring2 (encryptor c (vkey nodeID j)) (vkey nodeID j)) as Hin2.
  { intros j Hj.
    apply (Rem_in_slot ring1 ring2 _ _ _ _ (d_wf _ _ _ _ Hd1) HR). split.
    - apply (in_slot_chain ring ring1); [done|]. apply Hin. by right.
    - intros [_ He]. apply getRawNodeKey_inj in He as [_ ->]. done. }
  assert (∀ ts', ∃ ring' ts,
            RemoveNode_loop c nodeID rest ts' ring2 = (ring', Ok ts) ∧
            during c nodeID r0 ring') as Hrest.
  { intros ts'. apply IH; [done|done| |done]. intros j Hj. apply Hvk. by right. }
  simpl. rewrite bind_unfold. fold (vkey nodeID i). rewrite Hmig. simpl.
  rewrite bind_unfold. unfold attempt at 1. rewrite HR.
  destruct (size datas =? 0)%nat; apply Hrest.
Qed.

Lemma round_trip_during pid g pid' g' weight rolls rA tsA :
  Inv c r0 →
  keys_of (DataKeys r0 nodeID) = ∅ →
  (∀ i, (i < Z.to_nat (wrap64 (getValidWeight weight * replicas (opts c))))%nat →
        keys_of (DataKeys r0 (vkey nodeID i)) = ∅) →
  AddNode c pid g nodeID weight rolls r0 = (rA, Ok tsA) →
  ∃ rB tsB, RemoveNode c pid' g' nodeID rA = (rB, Ok tsB) ∧
    during c nodeID r0 rB.
Proof.
  intros HInv HkN Hvk HA.
  pose proof (AddNode_Inv _ _ _ _ _ _ _ _ _ HInv HA) as HInvA.
  destruct (AddNode_Ok_inv _ _ _ _ _ _ _ _ _ HA)
    as (r1 & r2 & Hd01 & _ & Hloop & Hd2A & HfreeA).
  set (R := wrap64 (getValidWeight weight * replicas (opts c))) in *.
  pose proof Hd01 as (Hrt01 & Hch01 & Hrep01 & Hdk01).
  assert (during c nodeID r0 (AddNodeToReplica nodeID R r1)) as Hstart.
  { apply (during_ext r0); [done|done| |by apply during_start].
    intros n. unfold DataKeys. simpl. by rewrite Hdk01. }
  assert (during c nodeID r0 r2) as Hdur2.
  { pose proof (AddNode_loop_during rolls (seq 0 (Z.to_nat R)) []
                  (AddNodeToReplica nodeID R r1) Hstart (NoDup_seq _ _)) as H.
    rewrite Hloop in H. apply H. intros i _ Hin.
    apply (in_slot_chain r0) in Hin; [|done].
    destruct (Hsound0 _ _ Hin) as (n & j & R' & He & Hn & _).
    apply getRawNodeKey_inj in He as [<- _]. congruence. }
  pose proof Hd2A as (Hrt2A & Hch2A & Hrep2A & Hdk2A).
  assert (during c nodeID r0 rA) as HdurA.
  { apply (during_ext r2); [done|done| |done].
    intros n. unfold DataKeys. by rewrite Hdk2A. }
  assert (nodeToReplicas rA !! nodeID = Some R) as HRA.
  { rewrite <- Hrep2A.
    destruct (AddNode_loop_spec c nodeID rolls (seq 0 (Z.to_nat R)) []
                (AddNodeToReplica nodeID R r1)) as (_ & Hrep & _).
    { apply Hstart. }
    rewrite Hloop in Hrep. simpl in Hrep. rewrite Hrep. apply lookup_insert_eq. }
  destruct (locked_spec c pid' g' (RemoveNode_locked c nodeID) rA
              (RemoveNode_locked_lock _ _) HfreeA) as (r3 & HdA3 & Hrun).
  pose proof HdA3 as (HrtA3 & HchA3 & HrepA3 & HdkA3).
  assert (during c nodeID r0 (DeleteNodeToReplica nodeID r3)) as Hdur3.
  { apply (during_ext rA); [done|done| |done].
    intros n. unfold DataKeys. simpl. by rewrite HdkA3. }
  destruct (RemoveNode_loop_during (seq 0 (Z.to_nat R)) []
              (DeleteNodeToReplica nodeID r3) Hdur3 (NoDup_seq _ _))
    as (r4 & ts & Hloop4 & Hdur4).
  { intros i Hi. apply Hvk. apply elem_of_seq in Hi. lia. }
  { intros i Hi. apply elem_of_seq in Hi.
    apply (in_slot_chain rA); [done|].
    apply (inv_complete _ _ HInvA nodeID R i HRA). lia. }
  assert (RemoveNode_locked c nodeID r3 = (r4, Ok ts)) as Hbody.
  { unfold RemoveNode_locked. rewrite bind_unfold. simpl. unfold Nodes.
    rewrite <- HrepA3, HRA. rewrite bind_unfold. simpl. done. }
  unfold RemoveNode. rewrite Hrun, Hbody. simpl.
  eexists _, ts. split; [done|].
  apply (during_ext r4); done.
Qed.

End round_trip.

Lemma round_trip_keys c pid g pid' g' nodeID weight rolls r rA tsA :
  Inv c r →
  AddNode c pid g nodeID weight rolls r = (rA, Ok tsA) →
  (∀ s, 0 <= encryptor c s < MaxInt32) →
  nodeID ≠ "" → nodeToReplicas r !! "" = None →
  keys_of (DataKeys r nodeID) = ∅ →
  (∀ i, (i < Z.to_nat (wrap64 (getValidWeight weight * replicas (opts c))))%nat →
        keys_of (DataKeys r (vkey nodeID i)) = ∅) →
  ∃ rB tsB, RemoveNode c pid' g' nodeID rA = (rB, Ok tsB) ∧
    chain rB = chain r ∧ root_levels rB = root_levels r ∧
    nodeToReplicas rB = nodeToReplicas r ∧
    ∀ n, keys_of (DataKeys rB n) = keys_of (DataKeys r n).
Proof.
  intros HInv HA Hrange Hname Hnames HkN Hvk.
  pose proof HA as HA'.
  apply AddNode_Ok_inv in HA' as (_ & _ & _ & Hnone & _).
  destruct (round_trip_during c nodeID r (inv_wf _ _ HInv) (inv_sound _ _ HInv)
              Hnone Hname Hnames Hrange pid g pid' g' weight rolls rA tsA
              HInv HkN Hvk HA) as (rB & tsB & HB & [H1 H2 H3 H4 H5 H6]).
  exists rB, tsB. split; [done|].
  destruct (round_trip_slots c pid g pid' g' nodeID weight rolls r rA tsA rB tsB
              HInv HA HB) as (Hch & Hrt & Hrep).
  split; [done|]. split; [done|]. split; [done|].
  assert (keys_of (DataKeys rB nodeID) = ∅) as HNB.
  { apply set_eq. intros k. split; [|set_solver]. intros Hk. exfalso.
    destruct (H6 k Hk) as (_ & _ & s & Hs & Hs0 & _). apply Hs0.
    unfold scores in *. by rewrite <- Hch. }
  intros n. destruct (decide (n = nodeID)) as [->|Hn]; [by rewrite HNB, HkN|].
  apply set_eq. intros k. rewrite (H5 n k Hn), HNB. set_solver.
Qed.

(** *** The round trip *)


Lemma wrap_hasher_range s : 0 <= wrap_hasher s < MaxInt32.
Proof.
  unfold wrap_hasher, MaxInt32. repeat destruct (String.eqb s _); lia.
Qed.

Lemma wrap_ring_d_Inv : Inv wrap_engine wrap_ring_d.
Proof.
  apply GetNode_Inv.
  apply (AddNode_Inv _ 1 "7" "B" 1 no_rolls sole_ring_A wrap_ring_AB []).
  - apply (AddNode_Inv _ 1 "7" "A" 1 no_rolls NewSkiplistHashRing sole_ring_A []).
    + apply New_Inv.
    + by vm_compute.
  - by vm_compute.
Qed.


Lemma Inv_encryptor c c' r : encryptor c = encryptor c' → Inv c r → Inv c' r.
Proof.
  intros He [H1 H2 H3 H4]. split; [done| | |done].
  - intros sc v Hin. destruct (H2 sc v Hin) as (n & i & R & ? & ? & ? & ?).
    exists n, i, R. by rewrite <- He.
  - intros n R i Hn Hi. rewrite <- He. by apply (H3 n R i).
Qed.

Lemma anon_ring_Inv : Inv wrap_engine anon_ring.
Proof.
  apply GetNode_Inv.
  apply (AddNode_Inv _ 1 "7" "" 1 no_rolls NewSkiplistHashRing
           (fst (AddNode wrap_engine 1 "7" "" 1 no_rolls NewSkiplistHashRing)) []).
  - apply New_Inv.
  - by vm_compute.
Qed.

Lemma stale_ring_Inv : Inv wrap_engine stale_ring.
Proof.
  assert (Inv bare_engine bare_ring_A) as HA.
  { apply (AddNode_Inv _ 1 "7" "A" 1 no_rolls NewSkiplistHashRing bare_ring_A []).
    - apply New_Inv.
    - by vm_compute. }
  assert (Inv bare_engine bare_ring_AY) as HAY.
  { apply (AddNode_Inv _ 1 "7" "Y" 1 no_rolls bare_ring_A bare_ring_AY []).
    - exact HA.
    - by vm_compute. }
  assert (Inv bare_engine bare_ring_d) as Hd.
  { exact (GetNode_Inv bare_engine 1 "7" "d" bare_ring_AY HAY). }
  apply (Inv_encryptor bare_engine); [reflexivity|].
  apply (RemoveNode_Inv _ 1 "7" "Y" bare_ring_d stale_ring []).
  - exact Hd.
  - by vm_compute.
Qed.

Lemma low_ring_Inv : Inv low_engine low_ring.
Proof.
  apply GetNode_Inv.
  apply (AddNode_Inv _ 1 "7" "A" 1 no_rolls NewSkiplistHashRing
           (fst (AddNode low_engine 1 "7" "A" 1 no_rolls NewSkiplistHashRing)) []).
  - apply New_Inv.
  - by vm_compute.
Qed.


End RoundTrip.

(** ** Further properties of the placement engine *)

Module EngineLaws.
Import Skiplist ConsistentHashEngine KeyFacts SkiplistFacts LockFacts EngineFacts
  SkiplistLaws RoundTrip.

(** *** Scores *)

(** X9. On the scores of the circle, from 0 to [MaxInt32 - 1], [incrScore]
    and [decrScore] stay on the circle, wrap around at its ends and undo
    each other. *)
Theorem incrScore_decrScore s :
  0 <= s < MaxInt32 →
  0 <= incrScore s < MaxInt32 ∧ 0 <= decrScore s < MaxInt32 ∧
  incrScore (MaxInt32 - 1) = 0 ∧ decrScore 0 = MaxInt32 - 1 ∧
  decrScore (incrScore s) = s ∧ incrScore (decrScore s) = s.
Proof.
  intros Hs.
  assert (0 <= incrScore s < MaxInt32) as Hi.
  { rewrite incrScore_range by done. unfold MaxInt32 in *.
    destruct (Z.eqb_spec s (2147483647 - 1)); lia. }
  assert (0 <= decrScore s < MaxInt32) as Hd.
  { rewrite decrScore_range by done. unfold MaxInt32 in *.
    destruct (Z.eqb_spec s 0); lia. }
  split; [done|]. split; [done|]. split; [done|]. split; [done|]. split.
  - rewrite decrScore_range by done. rewrite incrScore_range in * by done.
    unfold MaxInt32 in *.
    destruct (Z.eqb_spec s (2147483647 - 1)); simpl; [lia|].
    destruct (Z.eqb_spec (s + 1) 0); lia.
  - rewrite incrScore_range by done. rewrite decrScore_range in * by done.
    unfold MaxInt32 in *.
    destruct (Z.eqb_spec s 0); simpl; [lia|].
    destruct (Z.eqb_spec (s - 1) (2147483647 - 1)); lia.
Qed.

Lemma incrScore_decrScore_witness :
  0 <= 0 < MaxInt32 ∧ decrScore 0 = MaxInt32 - 1 ∧ incrScore (decrScore 0) = 0.
Proof.
  assert (0 <= 0 < MaxInt32) as H by (unfold MaxInt32; lia).
  split; [exact H|]. split.
  - exact (proj1 (proj2 (proj2 (proj2 (incrScore_decrScore 0 H))))).
  - exact (proj2 (proj2 (proj2 (proj2 (proj2 (incrScore_decrScore 0 H)))))).
Defined.

Lemma moves_in_complete last s next d :
  0 <= last < MaxInt32 → 0 <= s < MaxInt32 → 0 <= next < MaxInt32 →
  0 <= d < MaxInt32 → ¬ (s < last ∧ next < s) → last ≠ s →
  in_arc last s d →
  moves_in (s <? last) (next <? s)
    (if next <? s
     then wrap32 ((if s <? last then wrap32 (last - MaxInt32) else last) - MaxInt32)
     else if s <? last then wrap32 (last - MaxInt32) else last)
    (if next <? s then wrap32 (s - MaxInt32) else s) d = true.
Proof.
  intros Hl Hs Hn Hd Hp Hne.
  destruct (Z.ltb_spec s last) as [H1|H1]; destruct (Z.ltb_spec next s) as [H2|H2];
    [exfalso; lia| | |]; unfold moves_in, in_arc, MaxInt32 in *; cbn [andb].
  - rewrite (wrap32_small (last - _)) by lia.
    rewrite (wrap32_small (last - _ + _)) by lia.
    replace (last - 2147483647 + 2147483647) with last by lia.
    destruct (Z.ltb_spec last s); [lia|].
    destruct (Z.ltb_spec last d).
    + rewrite wrap32_small by lia. intros _.
      rewrite negb_true_iff, orb_false_iff, Z.leb_gt, Z.ltb_ge. lia.
    + rewrite negb_true_iff, orb_false_iff, Z.leb_gt, Z.ltb_ge. lia.
  - rewrite !wrap32_small by lia.
    destruct (Z.ltb_spec last s); rewrite negb_true_iff, orb_false_iff, Z.leb_gt, Z.ltb_ge; lia.
  - destruct (Z.ltb_spec last s); rewrite negb_true_iff, orb_false_iff, Z.leb_gt, Z.ltb_ge; lia.
Qed.

(** X10. For scores on the circle, the tests of the loops of [migrateIn]
    and [migrateOut], with [lastScore] and [virtualScore] shifted by
    [MaxInt32] as the code shifts them, pick exactly the data keys whose
    score lies on the arc from the previous slot (excluded) clockwise to the
    slot of the virtual node (included), whether or not the arc passes the
    end of the range. *)
Theorem migration_tests_pick_the_arc last s next d :
  0 <= last < MaxInt32 → 0 <= s < MaxInt32 → 0 <= next < MaxInt32 →
  0 <= d < MaxInt32 → last ≠ s → ¬ (s < last ∧ next < s) →
  (moves_in (s <? last) (next <? s)
     (if next <? s
      then wrap32 ((if s <? last then wrap32 (last - MaxInt32) else last) - MaxInt32)
      else if s <? last then wrap32 (last - MaxInt32) else last)
     (if next <? s then wrap32 (s - MaxInt32) else s) d = true
   ↔ in_arc last s d) ∧
  (moves_out (s <? last) (if s <? last then wrap32 (last - MaxInt32) else last) s d
     = true
   ↔ in_arc last s d).
Proof.
  intros Hl Hs Hn Hd Hne Hp. split.
  - split; [by apply moves_in_sound|by apply moves_in_complete].
  - by apply moves_out_iff.
Qed.

Lemma migration_tests_pick_the_arc_witness :
  moves_in (3 <? MaxInt32 - 10) (10 <? 3)
    (if 10 <? 3
     then wrap32 ((if 3 <? MaxInt32 - 10 then wrap32 (MaxInt32 - 10 - MaxInt32)
                   else MaxInt32 - 10) - MaxInt32)
     else if 3 <? MaxInt32 - 10 then wrap32 (MaxInt32 - 10 - MaxInt32)
          else MaxInt32 - 10)
    (if 10 <? 3 then wrap32 (3 - MaxInt32) else 3) 1 = true
  ↔ in_arc (MaxInt32 - 10) 3 1.
Proof.
  apply (migration_tests_pick_the_arc (MaxInt32 - 10) 3 10 1); unfold MaxInt32; lia.
Defined.

(** *** Neighbours on the circle *)

(** X11. On a well-formed ring whose slot scores lie on the circle,
    [Floor (decrScore s)] and [Ceiling (incrScore s)] of a slot score [s]
    are the neighbours of the slot: they are slot scores, no other slot
    score lies between the one and [s], or between [s] and the other, going
    clockwise, and they are [s] itself exactly when the ring has no other
    slot. *)
Theorem slot_neighbours ring s :
  wf ring → (∀ u, u ∈ scores ring → 0 <= u < MaxInt32) → s ∈ scores ring →
  ∃ last next,
    Floor ring (decrScore s) = Ok last ∧ Ceiling ring (incrScore s) = Ok next ∧
    last ∈ scores ring ∧ next ∈ scores ring ∧
    (∀ u, u ∈ scores ring → in_arc last s u → u = s) ∧
    (∀ u, u ∈ scores ring → in_arc s next u → u = next) ∧
    (last = s ↔ ∀ u, u ∈ scores ring → u = s) ∧
    (next = s ↔ ∀ u, u ∈ scores ring → u = s).
Proof.
  intros Hwf Hr Hs.
  destruct (pred_spec ring s Hwf Hr Hs) as (last & Hf & Hl & Hpred).
  destruct (succ_spec ring s Hwf Hr Hs) as (next & Hc & Hn & Hsucc).
  exists last, next. repeat (split; [done|]). split.
  - split.
    + intros -> u Hu. apply Hpred; [done|]. unfold in_arc.
      destruct (Z.ltb_spec s s); lia.
    + intros Hall. by apply Hall.
  - split.
    + intros -> u Hu. apply Hsucc; [done|]. unfold in_arc.
      destruct (Z.ltb_spec s s); lia.
    + intros Hall. by apply Hall.
Qed.

Lemma slot_neighbours_witness :
  wf ring3 ∧ (∀ u, u ∈ scores ring3 → 0 <= u < MaxInt32) ∧ 30 ∈ scores ring3 ∧
  ∃ last next,
    Floor ring3 (decrScore 30) = Ok last ∧ Ceiling ring3 (incrScore 30) = Ok next ∧
    last ∈ scores ring3 ∧ next ∈ scores ring3 ∧
    (∀ u, u ∈ scores ring3 → in_arc last 30 u → u = 30) ∧
    (∀ u, u ∈ scores ring3 → in_arc 30 next u → u = next) ∧
    (last = 30 ↔ ∀ u, u ∈ scores ring3 → u = 30) ∧
    (next = 30 ↔ ∀ u, u ∈ scores ring3 → u = 30).
Proof.
  assert (wf ring3) as Hwf by (by apply (bool_decide_unpack _)).
  assert (scores ring3 = [10; 20; 30]) as Hsc by (by vm_compute).
  assert (∀ u, u ∈ scores ring3 → 0 <= u < MaxInt32) as Hr.
  { intros u. rewrite Hsc. intros Hu. unfold MaxInt32.
    repeat (apply elem_of_cons in Hu as [->|Hu]; [lia|]). by apply elem_of_nil in Hu. }
  assert (30 ∈ scores ring3) as Hs.
  { rewrite Hsc. right. right. left. }
  split; [exact Hwf|]. split; [exact Hr|]. split; [exact Hs|].
  exact (slot_neighbours ring3 30 Hwf Hr Hs).
Defined.

(** *** Requests that are turned down *)

Lemma Ceiling_slots r r' sc : same_slots r r' → Ceiling r sc = Ceiling r' sc.
Proof.
  intros (_ & Hr & Hc & _). unfold Ceiling, ceiling, first, at_root.
  by rewrite Hr, Hc.
Qed.

Lemma Node_slots r r' sc : same_slots r r' → Node r sc = Node r' sc.
Proof.
  intros (_ & Hr & Hc & _). unfold Node, get, at_root. by rewrite Hr, Hc.
Qed.

(** X12. On a ring whose lock is free, [AddNode] of a node that is already
    in [nodeToReplicas] fails with "repeat node" and [RemoveNode] of a node
    that is not fails with "invalid node id"; neither changes the slots, the
    replica counts or the data keys, and both leave the lock free. *)
Theorem membership_is_checked_first c pid g nodeID weight rolls r :
  lock (lockEntity r) = false →
  (is_Some (nodeToReplicas r !! nodeID) →
     snd (AddNode c pid g nodeID weight rolls r) = Err "repeat node" ∧
     same_data r (fst (AddNode c pid g nodeID weight rolls r)) ∧
     lock (lockEntity (fst (AddNode c pid g nodeID weight rolls r))) = false) ∧
  (nodeToReplicas r !! nodeID = None →
     snd (RemoveNode c pid g nodeID r) = Err "invalid node id" ∧
     same_data r (fst (RemoveNode c pid g nodeID r)) ∧
     lock (lockEntity (fst (RemoveNode c pid g nodeID r))) = false).
Proof.
  intros Hfree. split.
  - intros [R HR]. unfold AddNode.
    destruct (locked_spec c pid g (AddNode_locked c nodeID weight rolls) r
                (AddNode_locked_lock _ _ _ _) Hfree) as (r1 & Hd & ->).
    assert (AddNode_locked c nodeID weight rolls r1 = (r1, Err "repeat node")) as ->.
    { unfold AddNode_locked. rewrite bind_call. unfold Nodes.
      destruct Hd as (_ & _ & <- & _). by rewrite HR. }
    simpl. split; [done|]. split; [|done]. by destruct Hd as (? & ? & ? & ?).
  - intros HN. unfold RemoveNode.
    destruct (locked_spec c pid g (RemoveNode_locked c nodeID) r
                (RemoveNode_locked_lock _ _) Hfree) as (r1 & Hd & ->).
    assert (RemoveNode_locked c nodeID r1 = (r1, Err "invalid node id")) as ->.
    { unfold RemoveNode_locked. rewrite bind_call. unfold Nodes.
      destruct Hd as (_ & _ & <- & _). by rewrite HN. }
    simpl. split; [done|]. split; [|done]. by destruct Hd as (? & ? & ? & ?).
Qed.

Lemma membership_is_checked_first_witness :
  lock (lockEntity wrap_ring_d) = false ∧
  is_Some (nodeToReplicas wrap_ring_d !! "A") ∧
  snd (AddNode wrap_engine 1 "7" "A" 1 no_rolls wrap_ring_d) = Err "repeat node" ∧
  nodeToReplicas wrap_ring_d !! "Z" = None ∧
  snd (RemoveNode wrap_engine 1 "7" "Z" wrap_ring_d) = Err "invalid node id".
Proof.
  assert (lock (lockEntity wrap_ring_d) = false) as Hf by (by vm_compute).
  assert (is_Some (nodeToReplicas wrap_ring_d !! "A")) as HA.
  { exists 1. by vm_compute. }
  assert (nodeToReplicas wrap_ring_d !! "Z" = None) as HZ by (by vm_compute).
  split; [exact Hf|]. split; [exact HA|]. split.
  - exact (proj1 (proj1 (membership_is_checked_first wrap_engine 1 "7" "A" 1 no_rolls
                           wrap_ring_d Hf) HA)).
  - split; [exact HZ|].
    exact (proj1 (proj2 (membership_is_checked_first wrap_engine 1 "7" "Z" 1 no_rolls
                           wrap_ring_d Hf) HZ)).
Defined.

(** X13. [GetNode] on a well-formed ring without slots, with the lock
    free, fails with "no node available" and registers nothing. *)
Theorem GetNode_without_slots c pid g dataKey r :
  wf r → lock (lockEntity r) = false → chain r = [] →
  snd (GetNode c pid g dataKey r) = Err "no node available" ∧
  same_data r (fst (GetNode c pid g dataKey r)).
Proof.
  intros Hwf Hfree Hch. unfold GetNode.
  destruct (locked_spec c pid g (GetNode_locked c dataKey) r) as (r1 & Hd & ->);
    [|done|].
  { eapply preserves_weaken; [apply same_slots_lock|apply GetNode_locked_slots]. }
  assert (GetNode_locked c dataKey r1 = (r1, Err "no node available")) as ->.
  { unfold GetNode_locked. rewrite bind_call.
    rewrite <- (Ceiling_same_data r r1) by done.
    destruct (Ceiling_cases r (encryptor c dataKey) Hwf)
      as [[_ ->]|[(t & _ & Ht & _)|(t & _ & Hne & _)]]; [done| |done].
    unfold scores in Ht. rewrite Hch in Ht. by apply elem_of_nil in Ht. }
  simpl. split; [done|]. by destruct Hd as (? & ? & ? & ?).
Qed.

Lemma GetNode_without_slots_witness :
  wf NewSkiplistHashRing ∧ lock (lockEntity NewSkiplistHashRing) = false ∧
  chain NewSkiplistHashRing = [] ∧
  snd (GetNode wrap_engine 1 "7" "d" NewSkiplistHashRing) = Err "no node available".
Proof.
  split; [exact New_wf|]. split; [reflexivity|]. split; [reflexivity|].
  exact (proj1 (GetNode_without_slots wrap_engine 1 "7" "d" NewSkiplistHashRing
                  New_wf eq_refl eq_refl)).
Defined.

(** *** [GetNode] twice *)

(** X14. When [GetNode] has returned a virtual-node key for a data key, a
    second [GetNode] for the same data key, by any caller, returns the same
    key and changes nothing but the lock. *)
Theorem GetNode_again c pid g pid' g' dataKey r r1 v :
  GetNode c pid g dataKey r = (r1, Ok v) →
  ∃ r2, GetNode c pid' g' dataKey r1 = (r2, Ok v) ∧ same_data r1 r2.
Proof.
  intros Hrun. unfold GetNode in Hrun.
  assert (preserves same_lock (GetNode_locked c dataKey)) as Hp.
  { eapply preserves_weaken; [apply same_slots_lock|apply GetNode_locked_slots]. }
  destruct (locked_cases c pid g (GetNode_locked c dataKey) r Hp)
    as [[_ Hb]|(_ & ra & Hd & Hd' & Hfree & Hres)]; [congruence|].
  rewrite Hrun in Hd', Hres, Hfree. simpl in *.
  destruct (GetNode_locked c dataKey ra) as [rb res] eqn:E. simpl in *. subst res.
  unfold GetNode_locked in E.
  apply bind_Ok in E as (cs & r1a & Hc & E). injection Hc as <- Hc.
  destruct (cs =? -1) eqn:Ecs; [done|].
  apply bind_Ok in E as (nodes & r1b & Hn & E). injection Hn as <- Hn.
  destruct nodes as [|node0 rest]; [done|].
  apply bind_Ok in E as (nodeID & r1c & Hid & E). injection Hid as <- Hid.
  apply bind_Ok in E as ([] & r1d & Hadd & E). injection Hadd as <-.
  injection E as <- <-.
  unfold GetNode.
  destruct (locked_spec c pid' g' (GetNode_locked c dataKey) r1 Hp Hfree)
    as (rc & Hdc & ->).
  assert (same_slots ra (AddNodeToDataKeys nodeID {[dataKey]} ra)) as Hsl
    by apply AddNodeToDataKeys_slots.
  assert (GetNode_locked c dataKey rc = (rc, Ok node0)) as ->.
  { unfold GetNode_locked. rewrite bind_call.
    rewrite <- (Ceiling_same_data r1 rc) by done.
    rewrite <- (Ceiling_same_data _ r1 _ Hd').
    rewrite <- (Ceiling_slots ra _ _ Hsl), Hc, Ecs.
    rewrite bind_call.
    rewrite <- (Node_same_data r1 rc) by done.
    rewrite <- (Node_same_data _ r1 _ Hd').
    rewrite <- (Node_slots ra _ _ Hsl), Hn.
    rewrite bind_call, Hid, bind_update.
    rewrite (AddNodeToDataKeys_present rc nodeID
               (keys_of (DataKeys ra nodeID) ∪ {[dataKey]})); [done| |set_solver].
    destruct Hdc as (_ & _ & _ & <-). destruct Hd' as (_ & _ & _ & <-).
    unfold AddNodeToDataKeys, DataKeys, keys_of. simpl. rewrite lookup_insert_eq.
    by destruct (nodeToDataKey ra !! nodeID). }
  simpl. eexists. split; [done|]. by destruct Hdc as (? & ? & ? & ?).
Qed.

Lemma GetNode_again_witness :
  GetNode wrap_engine 1 "7" "d" wrap_ring_AB = (wrap_ring_d, Ok "A_0") ∧
  ∃ r2, GetNode wrap_engine 2 "9" "d" wrap_ring_d = (r2, Ok "A_0") ∧
        same_data wrap_ring_d r2.
Proof.
  assert (GetNode wrap_engine 1 "7" "d" wrap_ring_AB = (wrap_ring_d, Ok "A_0")) as H
    by (by vm_compute).
  split; [exact H|].
  exact (GetNode_again wrap_engine 1 "7" 2 "9" "d" wrap_ring_AB wrap_ring_d "A_0" H).
Defined.

(** *** The invariant of the ring *)

(** X15. The ring between two operations: a new ring is well formed, holds
    in its slots exactly the virtual-node keys of the nodes of
    [nodeToReplicas], each at its score, and is unlocked; a successful
    [AddNode], a successful [RemoveNode] and every [GetNode] keep it so. *)
Theorem Inv_is_kept c pid g nodeID weight rolls dataKey r :
  Inv c NewSkiplistHashRing ∧
  (Inv c r →
     (∀ r' ts, AddNode c pid g nodeID weight rolls r = (r', Ok ts) → Inv c r') ∧
     (∀ r' ts, RemoveNode c pid g nodeID r = (r', Ok ts) → Inv c r') ∧
     Inv c (fst (GetNode c pid g dataKey r))).
Proof.
  split; [apply New_Inv|]. intros HInv. split; [|split].
  - intros r' ts H. by apply (AddNode_Inv c pid g nodeID weight rolls r r' ts).
  - intros r' ts H. by apply (RemoveNode_Inv c pid g nodeID r r' ts).
  - by apply GetNode_Inv.
Qed.

(** *** Virtual-node keys *)

(** X16. [getNodeID] recovers the node ID from every virtual-node key that
    [getRawNodeKey] builds from it, also when the ID itself holds
    underscores; different nodes or indices give different keys, no key
    equals its node ID, and [getNodeID] of a string without an underscore
    panics. *)
Theorem virtual_node_keys nodeID (i : nat) :
  getNodeID (getRawNodeKey nodeID (Z.of_nat i)) = Ok nodeID ∧
  (∀ nodeID' (i' : nat),
     getRawNodeKey nodeID (Z.of_nat i) = getRawNodeKey nodeID' (Z.of_nat i') →
     nodeID = nodeID' ∧ i = i') ∧
  getRawNodeKey nodeID (Z.of_nat i) ≠ nodeID ∧
  (∀ s, no_underscore s = true → getNodeID s = Panic).
Proof.
  split; [apply getNodeID_getRawNodeKey|]. split.
  - intros n' i'. apply getRawNodeKey_inj.
  - split; [apply getRawNodeKey_ne|].
    intros s Hs. unfold getNodeID, LastIndex_underscore.
    by rewrite LastIndex_from_no_underscore.
Qed.

(** *** The hasher *)

(** X17. [MurmurHasher.Encrypt] returns a score of the circle, from 0 to
    [MaxInt32 - 1], whatever the 32-bit sum of the string. *)
Theorem MurmurHasher_Encrypt_range sum32 origin :
  0 <= sum32 origin < 4294967296 →
  0 <= MurmurHasher_Encrypt sum32 origin < MaxInt32.
Proof.
  intros H. unfold MurmurHasher_Encrypt.
  pose proof (Z.mod_pos_bound (sum32 origin) MaxInt32) as Hm.
  unfold MaxInt32 in *. rewrite wrap32_small; lia.
Qed.

Lemma MurmurHasher_Encrypt_range_witness :
  0 <= 4294967295 < 4294967296 ∧
  0 <= MurmurHasher_Encrypt (λ _, 4294967295) "A_0" < MaxInt32.
Proof.
  assert (0 <= 4294967295 < 4294967296) as H by lia.
  split; [exact H|].
  exact (MurmurHasher_Encrypt_range (λ _, 4294967295) "A_0" H).
Defined.

(** *** Data keys through the migrations *)

Lemma migrateOut_body_datas c vs nodeID r from to datas :
  migrateOut_body c vs nodeID r = Ok (from, to, datas) →
  datas ⊆ keys_of (DataKeys r nodeID).
Proof.
  unfold migrateOut_body.
  remember (getValidNextNode (walk_fuel r) r vs nodeID ∅) as w eqn:Ew.
  destruct (Node r vs) as [nodes|e| |]; simpl; [|done..].
  destruct nodes as [|node0 rest]; [intros [= _ _ <-]; set_solver|].
  destruct (getNodeID node0) as [owner0|e| |]; simpl; [|done..].
  destruct (negb _); [intros [= _ _ <-]; set_solver|].
  destruct (len_keys _ =? 0)%nat; [intros [= _ _ <-]; set_solver|].
  destruct (Floor r (decrScore vs)) as [lastScore|e| |]; simpl; [|done..].
  destruct (_ && _); [done|].
  destruct rest as [|node1 rest'].
  - destruct w as [to'|e| |]; [|intros [= _ _ <-]|done|done].
    + destruct (String.eqb to' ""); [done|]. intros [= _ _ <-].
      intros k Hk. by apply elem_of_filter in Hk as [_ Hk].
    + intros k Hk. by apply elem_of_filter in Hk as [_ Hk].
  - destruct (getNodeID node1) as [to'|e| |]; simpl; [|done..].
    intros [= _ _ <-]. intros k Hk. by apply elem_of_filter in Hk as [_ Hk].
Qed.

Lemma migrateOut_cases c vs nodeID r :
  fst (migrateOut c vs nodeID r) = r ∨
  ∃ to datas, datas ⊆ keys_of (DataKeys r nodeID) ∧
    fst (migrateOut c vs nodeID r) =
      AddNodeToDataKeys to datas (DeleteNodeToDataKeys nodeID datas r).
Proof.
  unfold migrateOut. destruct (negb (migrator c)); [by left|].
  rewrite bind_call.
  destruct (migrateOut_body c vs nodeID r) as [[[from to] datas]|e| |] eqn:E;
    [|by left..].
  destruct (_ || _); [by left|]. rewrite !bind_update. right.
  exists to, datas. split; [|done]. by apply (migrateOut_body_datas c vs nodeID r from to).
Qed.

Lemma move_registered r a b datas k :
  datas ⊆ keys_of (DataKeys r a) →
  registered (AddNodeToDataKeys b datas (DeleteNodeToDataKeys a datas r)) k
  ↔ registered r k.
Proof.
  intros Hsub. unfold registered. split.
  - intros [m Hm]. rewrite keys_Add in Hm. destruct (decide (m = b)) as [->|].
    + apply elem_of_union in Hm as [Hm|Hm]; [|exists a; by apply Hsub].
      rewrite keys_Delete in Hm. destruct (decide (b = a)) as [->|]; [|by exists b].
      exists a. set_solver.
    + rewrite keys_Delete in Hm. destruct (decide (m = a)) as [->|]; [|by exists m].
      exists a. set_solver.
  - intros [m Hm]. destruct (decide (k ∈ datas)) as [Hk|Hk].
    + exists b. rewrite keys_Add, decide_True by done. set_solver.
    + exists m. rewrite keys_Add. destruct (decide (m = b)) as [->|].
      * rewrite keys_Delete. destruct (decide (b = a)) as [->|]; set_solver.
      * rewrite keys_Delete. destruct (decide (m = a)) as [->|]; set_solver.
Qed.

(** X18. Whatever their outcome, [migrateIn] and [migrateOut] neither lose
    nor invent a data key: a data key is registered under some node after
    the call exactly when it was before, and the slots, the replica counts
    and the lock are left alone. *)
Theorem migrations_keep_data_keys c vs nodeID r k :
  (registered (fst (migrateIn c vs nodeID r)) k ↔ registered r k) ∧
  (registered (fst (migrateOut c vs nodeID r)) k ↔ registered r k) ∧
  same_slots r (fst (migrateIn c vs nodeID r)) ∧
  same_slots r (fst (migrateOut c vs nodeID r)).
Proof.
  split; [|split; [|split]].
  - destruct (migrateIn_cases c vs nodeID r) as [->|(owner & datas & Hsub & ->)]; [done|].
    by apply move_registered.
  - destruct (migrateOut_cases c vs nodeID r) as [->|(to & datas & Hsub & ->)]; [done|].
    by apply move_registered.
  - apply migrateIn_slots.
  - apply migrateOut_slots.
Qed.

(** *** What [AddNode] and [RemoveNode] do to the slots *)

(** X19. On a ring between two operations, a successful [AddNode] records
    the replica count [getValidWeight weight * replicas] for the node, which
    was not in [nodeToReplicas], and adds to the slots exactly the
    virtual-node keys of the node, from index 0 to the count, each at its
    score; a successful [RemoveNode] drops the node from [nodeToReplicas]
    and removes from the slots exactly its virtual-node keys. *)
Theorem AddNode_RemoveNode_slots c pid g nodeID weight rolls r :
  Inv c r →
  (∀ rA ts, AddNode c pid g nodeID weight rolls r = (rA, Ok ts) →
     nodeToReplicas r !! nodeID = None ∧
     nodeToReplicas rA =
       <[nodeID := wrap64 (getValidWeight weight * replicas (opts c))]>
         (nodeToReplicas r) ∧
     ∀ sc v, in_slot rA sc v ↔
       in_slot r sc v ∨
       ∃ i, (i < Z.to_nat (wrap64 (getValidWeight weight * replicas (opts c))))%nat ∧
            v = vkey nodeID i ∧ sc = encryptor c v) ∧
  (∀ rB ts, RemoveNode c pid g nodeID r = (rB, Ok ts) →
     ∃ R, nodeToReplicas r !! nodeID = Some R ∧
       nodeToReplicas rB = delete nodeID (nodeToReplicas r) ∧
       ∀ sc v, in_slot rB sc v ↔
         in_slot r sc v ∧
         ¬ ∃ i, (i < Z.to_nat R)%nat ∧ v = vkey nodeID i ∧ sc = encryptor c v).
Proof.
  intros HInv. pose proof HInv as [Hwf Hs Hc Hf]. split.
  - intros rA ts HA.
    destruct (AddNode_Ok_inv _ _ _ _ _ _ _ _ _ HA)
      as (r1 & r2 & Hd1 & Hnone & Hloop & Hd2 & _).
    set (R := wrap64 (getValidWeight weight * replicas (opts c))) in *.
    assert (wf (AddNodeToReplica nodeID R r1)) as Hwf1.
    { pose proof (same_data_wf _ _ Hd1 Hwf) as H. by destruct H. }
    pose proof (AddNode_loop_spec c nodeID rolls (seq 0 (Z.to_nat R)) []
                  (AddNodeToReplica nodeID R r1) Hwf1) as Hsp.
    rewrite Hloop in Hsp. simpl in Hsp. destruct Hsp as (_ & Hrep & _ & Hold & Hnew).
    pose proof (AddNode_loop_Ok c nodeID rolls (seq 0 (Z.to_nat R)) []
                  (AddNodeToReplica nodeID R r1) r2 ts Hwf1 Hloop) as Hall.
    split; [done|]. split.
    { destruct Hd2 as (_ & _ & <- & _). rewrite Hrep. simpl.
      by destruct Hd1 as (_ & _ & <- & _). }
    intros sc v. rewrite <- (same_data_in_slot r2 rA sc v Hd2).
    rewrite (in_slot_chain r (AddNodeToReplica nodeID R r1) sc v)
      by (by destruct Hd1 as (_ & ? & _)).
    split.
    + intros Hin. destruct (Hnew sc v Hin) as [?|(i & Hi & -> & ->)]; [by left|].
      right. exists i. apply elem_of_seq in Hi. split; [lia|done].
    + intros [Hin|(i & Hi & -> & ->)]; [by apply Hold|].
      apply Hall. apply elem_of_seq. lia.
  - intros rB ts HB.
    destruct (RemoveNode_Ok_inv _ _ _ _ _ _ _ HB)
      as (R & r1 & r2 & Hd1 & HR & Hloop & Hd2 & _).
    assert (wf (DeleteNodeToReplica nodeID r1)) as Hwf1.
    { pose proof (same_data_wf _ _ Hd1 Hwf) as H. by destruct H. }
    destruct (RemoveNode_loop_Ok c nodeID (seq 0 (Z.to_nat R)) []
                (DeleteNodeToReplica nodeID r1) r2 ts Hwf1 Hloop) as (_ & Hrep & Hslots).
    exists R. split; [done|]. split.
    { destruct Hd2 as (_ & _ & <- & _). rewrite Hrep. simpl.
      by destruct Hd1 as (_ & _ & <- & _). }
    intros sc v. rewrite <- (same_data_in_slot r2 rB sc v Hd2), Hslots.
    rewrite (in_slot_chain r (DeleteNodeToReplica nodeID r1) sc v)
      by (by destruct Hd1 as (_ & ? & _)).
    split.
    + intros [Hin Hno]. split; [done|]. intros (i & Hi & He). apply Hno.
      exists i. split; [|done]. apply elem_of_seq. lia.
    + intros [Hin Hno]. split; [done|]. intros (i & Hi & He). apply Hno.
      exists i. split; [|done]. apply elem_of_seq in Hi. lia.
Qed.

Lemma AddNode_RemoveNode_slots_witness :
  Inv wrap_engine wrap_ring_d ∧
  AddNode wrap_engine 1 "7" "Y" 1 no_rolls wrap_ring_d
    = (wrap_ring_Y, Ok [Task "A" "Y" {["d"]}]) ∧
  nodeToReplicas wrap_ring_d !! "Y" = None ∧
  nodeToReplicas wrap_ring_Y =
    <["Y" := wrap64 (getValidWeight 1 * replicas (opts wrap_engine))]>
      (nodeToReplicas wrap_ring_d) ∧
  ∀ sc v, in_slot wrap_ring_Y sc v ↔
    in_slot wrap_ring_d sc v ∨
    ∃ i, (i < Z.to_nat (wrap64 (getValidWeight 1 * replicas (opts wrap_engine))))%nat ∧
         v = vkey "Y" i ∧ sc = encryptor wrap_engine v.
Proof.
  assert (AddNode wrap_engine 1 "7" "Y" 1 no_rolls wrap_ring_d
          = (wrap_ring_Y, Ok [Task "A" "Y" {["d"]}])) as HA by (by vm_compute).
  split; [exact wrap_ring_d_Inv|]. split; [exact HA|].
  exact (proj1 (AddNode_RemoveNode_slots wrap_engine 1 "7" "Y" 1 no_rolls wrap_ring_d
                  wrap_ring_d_Inv) wrap_ring_Y _ HA).
Defined.

Lemma Inv_is_kept_witness :
  Inv wrap_engine wrap_ring_d ∧
  Inv wrap_engine (fst (GetNode wrap_engine 1 "7" "d" wrap_ring_d)).
Proof.
  split; [exact wrap_ring_d_Inv|].
  exact (proj2 (proj2 (proj2 (Inv_is_kept wrap_engine 1 "7" "A" 1 no_rolls "d"
                                wrap_ring_d) wrap_ring_d_Inv))).
Defined.

Lemma virtual_node_keys_witness :
  no_underscore "A" = true ∧ getNodeID "A" = Panic ∧
  getNodeID (getRawNodeKey "a_b" (Z.of_nat 12)) = Ok "a_b".
Proof.
  split; [reflexivity|]. split.
  - exact (proj2 (proj2 (proj2 (virtual_node_keys "A" 0))) "A" eq_refl).
  - exact (proj1 (virtual_node_keys "a_b" 12)).
Defined.

End EngineLaws.
